(** * Compile-time type lists, type maps and flag sets

    A shallow embedding of the template metaprograms of
    [fatal/type/list.h], [fatal/type/map.h] and
    [fatal/container/flag_set.h].

    - A parameter pack [Args...] is a [list] of its elements; a C++ type is
      an inhabitant of an arbitrary carrier [T].  [std::is_same] is a
      decidable equality on the carrier.
    - A template instantiation that is ill-formed (no matching
      specialisation, a failing [static_assert] or [enable_if]) is [None].
    - [std::size_t] template arguments that count or index elements of a
      pack are [nat]: a pack cannot hold more than [SIZE_MAX] elements.
      The only place where the limit of [std::size_t] is observable,
      the default depth of [flatten], keeps the limit explicit.
    - The runtime facilities ([binary_search], [foreach]) call a visitor;
      the calls are recorded, in order, in a trace.
    - [flag_set] values are machine integers, modelled as [Z] with the bit
      operations of [Z]. *)

From Stdlib Require Import List Arith ZArith Lia Bool Permutation.
From Equations Require Import Equations.
From Equations.Prop Require Import Logic.
Import ListNotations.

Set Implicit Arguments.
Set Warnings "-register-all".

(** ** A small error monad for ill-formed instantiations *)

Definition bind {A B : Type} (m : option A) (k : A -> option B) : option B :=
  match m with
  | Some a => k a
  | None => None
  end.

Notation "x <- m ;; k" := (bind m (fun x => k))
  (at level 61, m at next level, right associativity).

Notation "' p <- m ;; k" := (bind m (fun x => let p := x in k))
  (at level 61, p pattern, m at next level, right associativity).

(** [static_assert(c, ...)] in a class body. *)
Definition static_assert (c : bool) : option unit :=
  if c then Some tt else None.

(** Modelled from the spec: [indexed_type_tag<T, Index>] of
    [fatal/type/tag.h] is missing; a tag carries an element and its
    position. *)
Record indexed_type_tag (T : Type) : Type := mk_indexed_type_tag {
  tag_type : T;
  tag_index : nat
}.

(** One call [visitor(indexed_type_tag<T, Index>{}, needle, args...)]. *)
Record visit (T Needle VArgs : Type) : Type := mk_visit {
  visit_tag : indexed_type_tag T;
  visit_needle : Needle;
  visit_args : VArgs
}.

(** ** The comparers that [fatal/type/list.h] provides for [binary_search] *)


(** [index_value_comparer::compare(lhs, indexed_type_tag<TRHS, Index>)]. *)
Definition index_value_comparer {T : Type} (lhs : nat)
  (rhs : indexed_type_tag T) : Z :=
  if lhs <? tag_index rhs then (-1)%Z
  else if tag_index rhs <? lhs then 1%Z
  else 0%Z.

(** ** [detail::type_list_impl] *)

Module type_list_impl.

Section Packs.

Context {T : Type}.

(** [at<Distance, Args...>]: there is no specialisation for an empty pack. *)
Fixpoint at_ (Distance : nat) (args : list T) : option T :=
  match args with
  | [] => None
  | u :: uargs =>
      match Distance with
      | 0 => Some u
      | S d => at_ d uargs
      end
  end.

(** [try_at<Distance, Args...>]: both arguments of [std::conditional] are
    instantiated, so the recursion always reaches the empty pack, where
    [static_assert(Distance == 0)] decides. *)
Fixpoint try_at (Distance : nat) (args : list T) : option (list T) :=
  match args with
  | [] => _ <- static_assert (Distance =? 0) ;; Some []
  | u :: uargs =>
      rest <- try_at (if Distance =? 0 then 0 else Distance - 1) uargs ;;
      Some (if Distance =? 0 then [u] else rest)
  end.

(** [left<Size, Args...>]. *)
Fixpoint left (Size : nat) (args : list T) : option (list T) :=
  match Size, args with
  | 0, _ => Some []
  | S n, u :: uargs =>
      _ <- static_assert (Size <=? length uargs + 1) ;;
      l <- left n uargs ;;
      Some (u :: l)
  | S _, [] => None
  end.

(** [slice<Begin, End, Args...>]. *)
Fixpoint slice (Begin End_ : nat) (args : list T) : option (list T) :=
  match Begin, args with
  | 0, _ => left End_ args
  | S b, _ :: uargs =>
      _ <- static_assert (Begin <=? End_) ;;
      slice b (End_ - 1) uargs
  | S _, [] => None
  end.

(** [tail<Index, Args...>]. *)
Fixpoint tail (Index : nat) (args : list T) : option (list T) :=
  match Index, args with
  | 0, _ => Some args
  | S i, _ :: args' =>
      _ <- static_assert (Index <=? length args' + 1) ;;
      tail i args'
  | S _, [] => None
  end.

(** On a pack that is not empty, [at<0>] is the head and [tail<1>] the
    rest: the templates below that take a list apart this way are written
    by pattern matching. *)
Lemma at_first (u : T) (uargs : list T) : at_ 0 (u :: uargs) = Some u.
Proof. reflexivity. Qed.

Lemma tail_first (u : T) (uargs : list T) : tail 1 (u :: uargs) = Some uargs.
Proof.
  cbn [tail]. rewrite Nat.add_1_r. reflexivity.
Qed.

(** [split<Index, Args...>]. *)
Fixpoint split (Index : nat) (args : list T) : option (list T * list T) :=
  match Index, args with
  | 0, _ => Some ([], args)
  | S i, t :: args' =>
      ' (first, second) <- split i args' ;;
      Some (t :: first, second)
  | S _, [] => None
  end.

(** Splitting a pack of two or more elements in the middle yields two
    strictly shorter packs; this is what makes the divide-and-conquer
    instantiations below terminate. *)
Lemma split_spec (Index : nat) (args : list T) :
  Index <= length args ->
  split Index args = Some (firstn Index args, skipn Index args).
Proof.
  revert args.
  induction Index as [|i IH]; intros args Hle.
  - destruct args; reflexivity.
  - destruct args as [|t args']; simpl in Hle; [lia|].
    simpl. rewrite IH by lia. reflexivity.
Qed.

Lemma split_length (Index : nat) (args first second : list T) :
  split Index args = Some (first, second) ->
  length first = Index /\ length first + length second = length args.
Proof.
  revert args first second.
  induction Index as [|i IH]; intros args first second H.
  - destruct args; inversion H; subst; simpl; lia.
  - destruct args as [|t args']; simpl in H; [discriminate|].
    destruct (split i args') as [[f s]|] eqn:E; simpl in H; [|discriminate].
    inversion H; subst.
    destruct (IH _ _ _ E) as [H1 H2]. simpl. lia.
Qed.

Lemma half_bounds (n : nat) : 2 <= n -> 1 <= n / 2 < n.
Proof.
  intros Hn. split.
  - apply Nat.div_le_lower_bound; lia.
  - apply Nat.div_lt; lia.
Qed.

Lemma split_half_shrinks (args first second : list T) :
  2 <= length args ->
  split (length args / 2) args = Some (first, second) ->
  1 <= length first < length args /\ 1 <= length second < length args.
Proof.
  intros Hn H.
  apply split_length in H.
  pose proof (half_bounds Hn).
  lia.
Qed.

Lemma split_half_pivot (args first second : list T) :
  1 <= length args ->
  split (length args / 2) args = Some (first, second) ->
  length first < length args /\ 1 <= length second <= length args.
Proof.
  intros Hn H.
  apply split_length in H.
  assert (length args / 2 < length args) by (apply Nat.div_lt; lia).
  lia.
Qed.

(** [filter<TFilter, Args...>]: a [type_pair] of two lists. *)
Fixpoint filter (TFilter : T -> bool) (args : list T) : list T * list T :=
  match args with
  | [] => ([], [])
  | u :: uargs =>
      let tail := filter TFilter uargs in
      if TFilter u
      then (u :: fst tail, snd tail)
      else (fst tail, u :: snd tail)
  end.

(** [zip<TRightList, Index, Left...>]: [std::conditional] instantiates the
    interleaved branch also when [Index == TRightList::size]. *)
Fixpoint zip (TRightList : list T) (Index : nat) (lefts : list T)
  : option (list T) :=
  match lefts with
  | [] => slice Index (length TRightList) TRightList
  | u :: ulefts =>
      r <- try_at Index TRightList ;;
      z <- zip TRightList
             (if Index =? length TRightList then Index else Index + 1)
             ulefts ;;
      Some (if Index =? length TRightList
            then u :: ulefts
            else (u :: r) ++ z)
  end.

(** [skip<Next, Step, Args...>]. *)
Fixpoint skip (Next Step : nat) (args : list T) : list T :=
  match args with
  | [] => []
  | u :: uargs =>
      let tail := skip (if Next =? 0 then Step else Next - 1) Step uargs in
      if Next =? 0 then u :: tail else tail
  end.

(** [search<TFilter, TDefault, Args...>]. *)
Fixpoint search (TFilter : T -> bool) (TDefault : T) (args : list T) : T :=
  match args with
  | [] => TDefault
  | u :: uargs => if TFilter u then u else search TFilter TDefault uargs
  end.

(** [foreach_if<TCondition, Index, Args...>::visit]: the number of calls,
    and the calls themselves, written down from left to right (C++ leaves
    open which operand of the sum is evaluated first). *)
Fixpoint foreach_if (TCondition : T -> bool) (Index : nat) (args : list T)
  : nat * list (indexed_type_tag T) :=
  match args with
  | [] => (0, [])
  | u :: uargs =>
      let here :=
        if TCondition u then (1, [mk_indexed_type_tag u Index]) else (0, []) in
      let rest := foreach_if TCondition (Index + 1) uargs in
      (fst here + fst rest, snd here ++ snd rest)
  end.

Section Equality.

Variable is_same_dec : forall x y : T, {x = y} + {x <> y}.

(** [std::is_same<T, U>::value]. *)
Definition is_same (x y : T) : bool :=
  if is_same_dec x y then true else false.

(** [index_of<Index, T, Args...>]. *)
Fixpoint index_of (Index : nat) (t : T) (args : list T) : nat :=
  match args with
  | [] => Index
  | u :: uargs => if is_same t u then Index else index_of (Index + 1) t uargs
  end.

(** [contains<T, Args...>]. *)
Fixpoint contains (t : T) (args : list T) : bool :=
  match args with
  | [] => false
  | head :: args' => if is_same t head then true else contains t args'
  end.

(** [unique<TResult, Args...>]: [TResult::contains<T>] and
    [TResult::push_back<T>] are [contains] and an append. *)
Fixpoint unique (TResult : list T) (args : list T) : list T :=
  match args with
  | [] => TResult
  | t :: args' =>
      unique (if contains t TResult then TResult else TResult ++ [t]) args'
  end.

(** [replace_transform<TFrom, TTo>::type<U>]. *)
Definition replace_transform (TFrom TTo : T) (u : T) : T :=
  if is_same u TFrom then TTo else u.

End Equality.

Section Ordering.

Variable TLessComparer : T -> T -> bool.

(** [is_sorted<TLessComparer, Args...>]; [logical_and_constants] and
    [negate_constant], of [fatal/type/traits.h], are conjunction and
    negation. *)
Fixpoint is_sorted (args : list T) : bool :=
  match args with
  | lhs :: (rhs :: _) as args' =>
      negb (TLessComparer rhs lhs) && is_sorted args'
  | _ => true
  end.

(** [merge<TLessComparer, TRHSList, LHS...>]: [rhs], the head of the
    right-hand list ([TRHSList::at<0>], with [rtail] for
    [TRHSList::tail<1>]), is taken only when it is strictly less than the
    head of the left-hand pack. *)
Equations? merge (TRHSList lhs : list T) : list T
  by wf (length TRHSList + length lhs) lt :=
merge [] [] := [];
merge (rhs :: rtail) [] := rhs :: rtail;
merge [] (l :: largs) := l :: largs;
merge (rhs :: rtail) (l :: largs) with TLessComparer rhs l := {
  | true => rhs :: merge rtail (l :: largs)
  | false => l :: merge (rhs :: rtail) largs }.
Proof.
  all: simpl; lia.
Qed.

(** [NDEBUG]: when it is not defined, [merge_entry_point] asserts that both
    of its inputs are sorted. *)
Variable NDEBUG : bool.

(** [merge_entry_point<TLessComparer, TRHSList, LHS...>]. *)
Definition merge_entry_point (TRHSList lhs : list T) : option (list T) :=
  _ <- static_assert (NDEBUG || is_sorted lhs) ;;
  _ <- static_assert (NDEBUG || is_sorted TRHSList) ;;
  Some (merge TRHSList lhs).

(** [merge_sort<TLessComparer, TList>]: the two specialisations for the
    empty and the one-element list, and the primary template, which splits
    in the middle, sorts both halves and merges them through
    [sorted_left::merge<sorted_right, TLessComparer>]. *)
Equations? merge_sort (TList : list T) : option (list T)
  by wf (length TList) lt :=
merge_sort [] := Some [];
merge_sort [t] := Some [t];
merge_sort (t :: u :: rest)
  with inspect (split (length (t :: u :: rest) / 2) (t :: u :: rest)) := {
  | exist _ (Some (first, second)) e =>
      sorted_left <- merge_sort first ;;
      sorted_right <- merge_sort second ;;
      merge_entry_point sorted_right sorted_left
  | exist _ None e => None }.
Proof.
  all: destruct (@split_half_shrinks (t :: u :: rest) first second) as [H1 H2];
    [simpl; lia | exact e | simpl in *; lia].
Qed.

(** [insert_sorted<TLessComparer, T, Args...>]. *)
Fixpoint insert_sorted (t : T) (args : list T) : list T :=
  match args with
  | [] => [t]
  | head :: tail =>
      if TLessComparer t head
      then t :: head :: tail
      else head :: insert_sorted t tail
  end.

End Ordering.

Section BinarySearch.

Variables Needle VArgs : Type.

(** [TComparer::compare(needle, indexed_type_tag<T, Index>{})], an [int]
    that is negative, zero or positive. *)
Variable compare : Needle -> indexed_type_tag T -> Z.

Variable needle : Needle.

Variable args : VArgs.

(** The outcome of a runtime search: the boolean it returns and the calls
    it made to the visitor. *)
Definition found := (bool * list (visit T Needle VArgs))%type.

Definition call_visitor (t : T) (Index : nat) : visit T Needle VArgs :=
  mk_visit (mk_indexed_type_tag t Index) needle args.

(** [binary_search_exact<Args...>::search<TComparer, Offset>], with [impl]
    inlined.  The pivot is the first element of the second half; the class
    asserts that the second half is not empty. *)
Equations? binary_search_exact (list_ : list T) (Offset : nat) : option found
  by wf (length list_) lt :=
binary_search_exact [] Offset := Some (false, []);
binary_search_exact (a :: rest) Offset
  with inspect (split (length (a :: rest) / 2) (a :: rest)) := {
  | exist _ (Some (left_, pivot :: right_)) e =>
      let comparison :=
        compare needle (mk_indexed_type_tag pivot (Offset + length left_)) in
      if (comparison <? 0)%Z
      then binary_search_exact left_ Offset
      else if (0 <? comparison)%Z
      then binary_search_exact right_ (Offset + length left_ + 1)
      else Some (true, [call_visitor pivot (Offset + length left_)])
  | exist _ (Some (left_, [])) e => None
  | exist _ None e => None }.
Proof.
  all: destruct (@split_half_pivot (a :: rest) left_ (pivot :: right_))
    as [H1 H2]; [simpl; lia | exact e | simpl in *; lia].
Qed.

(** [binary_search_lower_bound<Args...>::recursion<TComparer, Offset>]: the
    specialisations for the empty and the one-element pack, and the primary
    template. *)
Equations? lower_bound_recursion (list_ : list T) (Offset : nat)
  : option found by wf (length list_) lt :=
lower_bound_recursion [] Offset := Some (false, []);
lower_bound_recursion [t] Offset := Some (true, [call_visitor t Offset]);
lower_bound_recursion (a :: b :: rest) Offset
  with inspect (split (length (a :: b :: rest) / 2) (a :: b :: rest)) := {
  | exist _ (Some (left_, pivot :: right_)) e =>
      if (compare needle
            (mk_indexed_type_tag pivot (Offset + length left_)) <? 0)%Z
      then lower_bound_recursion left_ Offset
      else lower_bound_recursion (pivot :: right_) (Offset + length left_)
  | exist _ (Some (left_, [])) e => None
  | exist _ None e => None }.
Proof.
  all: destruct (@split_half_shrinks (a :: b :: rest) left_ (pivot :: right_))
    as [H1 H2]; [simpl; lia | exact e | simpl in *; lia].
Qed.

(** [binary_search_lower_bound<Args...>::search<TComparer>]. *)
Definition binary_search_lower_bound (list_ : list T) : option found :=
  match list_ with
  | [] => Some (false, [])
  | first :: _ =>
      if (compare needle (mk_indexed_type_tag first 0) >=? 0)%Z
      then lower_bound_recursion list_ 0
      else Some (false, [])
  end.

(** [type_list<Args...>::at<Index>], as the templates reach it through a
    list: [enable_if<!empty, ...>] around [at]. *)
Definition list_at (Index : nat) (list_ : list T) : option T :=
  _ <- static_assert (negb (length list_ =? 0)) ;;
  at_ Index list_.

Lemma upper_half_bounds (n : nat) : 2 <= n -> 1 <= (n + 1) / 2 < n.
Proof.
  intros Hn. split.
  - apply Nat.div_le_lower_bound; lia.
  - apply Nat.Div0.div_lt_upper_bound. lia.
Qed.

Lemma split_upper_half_shrinks (list_ left_ right_ : list T) :
  2 <= length list_ ->
  split ((length list_ + 1) / 2) list_ = Some (left_, right_) ->
  1 <= length left_ < length list_ /\ length right_ < length list_.
Proof.
  intros Hn H.
  apply split_length in H.
  pose proof (upper_half_bounds Hn).
  lia.
Qed.

(** [binary_search_upper_bound<Args...>::search<TComparer, Offset>]: the
    specialisations for the empty and the one-element pack, and the primary
    template, whose pivot is the last element of the first half. *)
Equations? binary_search_upper_bound (list_ : list T) (Offset : nat)
  : option found by wf (length list_) lt :=
binary_search_upper_bound [] Offset := Some (false, []);
binary_search_upper_bound [t] Offset :=
  if (compare needle (mk_indexed_type_tag t Offset) <? 0)%Z
  then Some (true, [call_visitor t Offset])
  else Some (false, []);
binary_search_upper_bound (a :: b :: rest) Offset
  with inspect (split ((length (a :: b :: rest) + 1) / 2) (a :: b :: rest)) := {
  | exist _ (Some (left_, right_)) e =>
      pivot <- list_at (length left_ - 1) left_ ;;
      if (compare needle
            (mk_indexed_type_tag pivot (Offset + (length left_ - 1))) <? 0)%Z
      then binary_search_upper_bound left_ Offset
      else binary_search_upper_bound right_ (Offset + length left_)
  | exist _ None e => None }.
Proof.
  all: destruct (@split_upper_half_shrinks (a :: b :: rest) left_ right_)
    as [H1 H2]; [simpl; lia | exact e | simpl in *; lia].
Qed.

End BinarySearch.

(** [visit<Index, Args...>::at(index, visitor, args...)]: whether the
    visitor was called, and its call. *)
Fixpoint visit_at (Index : nat) (args : list T) (index : nat)
  : bool * list (indexed_type_tag T) :=
  match args with
  | [] => (false, [])
  | t :: args' =>
      if index =? Index
      then (true, [mk_indexed_type_tag t Index])
      else visit_at (Index + 1) args' index
  end.

(** [type_at<Args...>::at(index)]: the type whose [std::type_info] is
    returned.  There is no specialisation for the empty pack. *)
Fixpoint type_at (args : list T) (index : nat) : option T :=
  match args with
  | [] => None
  | u :: uargs =>
      match uargs with
      | [] => Some u
      | _ :: _ => if index =? 0 then Some u else type_at uargs (index - 1)
      end
  end.

(** [right<Size, Args...>]. *)
Definition right (Size : nat) (args : list T) : option (list T) :=
  _ <- static_assert (Size <=? length args) ;;
  slice (length args - Size) (length args) args.

(** [indexed_transform_helper<T, TList, Index>]: the primary template
    asserts that the list is empty. *)
Definition indexed_transform_helper {R : Type} (f : T -> nat -> R)
  (TList : list T) (Index : nat) : option (list R) :=
  match TList with
  | [u] => Some [f u Index]
  | _ => _ <- static_assert (length TList =? 0) ;; Some []
  end.

(** [indexed_transform<T, TList, Position>]. *)
Fixpoint indexed_transform {R : Type} (f : T -> nat -> R) (TList : list T)
  (Position : nat) : option (list R) :=
  match Position with
  | 0 => Some []
  | S p =>
      previous <- indexed_transform f TList p ;;
      at_position <- try_at p TList ;;
      current <- indexed_transform_helper f at_position p ;;
      Some (previous ++ current)
  end.

End Packs.

(** [combine<TRightList, Index, TCombiner, Args...>]: the two lists and
    the result of the combiner have carriers of their own. *)
Fixpoint combine {T U R : Type} (TRightList : list U) (Index : nat)
  (TCombiner : T -> U -> R) (args : list T) : option (list R) :=
  match args with
  | [] => _ <- static_assert (Index =? length TRightList) ;; Some []
  | u :: uargs =>
      _ <- static_assert (Index <? length TRightList) ;;
      rest <- combine TRightList (Index + 1) TCombiner uargs ;;
      r <- list_at Index TRightList ;;
      Some (TCombiner u r :: rest)
  end.

(** *** Lists of lists: [flatten]

    [flatten] tells a [type_list<Args...>] element from any other type by
    partial specialisation, so its carrier is the nested one: an element is
    either some type that is not a [type_list], or a [type_list] of
    elements. *)

Inductive type (A : Type) : Type :=
| plain : A -> type A
| type_list_of : list (type A) -> type A.

Arguments plain {A} _.
Arguments type_list_of {A} _.

Section Flatten.

Context {A : Type}.

(** The number of template arguments written in a type, which decreases
    along the instantiations of [flatten]. *)
Fixpoint type_size (t : type A) : nat :=
  match t with
  | plain _ => 1
  | type_list_of args =>
      S ((fix sizes (l : list (type A)) : nat :=
            match l with
            | [] => 0
            | u :: us => type_size u + sizes us
            end) args)
  end.

Fixpoint pack_size (args : list (type A)) : nat :=
  match args with
  | [] => 0
  | u :: us => type_size u + pack_size us
  end.

Lemma type_size_list (args : list (type A)) :
  type_size (type_list_of args) = S (pack_size args).
Proof.
  reflexivity.
Qed.

(** [std::numeric_limits<std::size_t>::max()]. *)
Variable size_t_max : N.

(** [Depth + 1] on [std::size_t]. *)
Definition next_depth (Depth : N) : N :=
  if (Depth =? size_t_max)%N then 0%N else (Depth + 1)%N.

(** [flatten<Depth, MaxDepth, Args...>]: the empty pack, a pack that starts
    with a [type_list], and a pack that starts with any other type. *)
Equations? flatten (Depth MaxDepth : N) (args : list (type A))
  : list (type A) by wf (pack_size args) lt :=
flatten Depth MaxDepth [] := [];
flatten Depth MaxDepth (type_list_of inner :: uargs) :=
  if (Depth =? MaxDepth)%N
  then type_list_of inner :: uargs
  else flatten (next_depth Depth) MaxDepth inner
         ++ flatten Depth MaxDepth uargs;
flatten Depth MaxDepth (plain t :: rest) :=
  if (Depth =? MaxDepth)%N
  then plain t :: rest
  else plain t :: flatten Depth MaxDepth rest.
Proof.
  - change (pack_size inner < S (pack_size inner + pack_size uargs)). lia.
  - change (pack_size uargs < S (pack_size inner + pack_size uargs)). lia.
Qed.

End Flatten.

End type_list_impl.


(** ** [type_list<Args...>]: the members used below *)

Module type_list.

Section Members.

Context {T : Type}.

Definition size (args : list T) : nat := length args.

Definition empty (args : list T) : bool := length args =? 0.

Definition at_ (Index : nat) (args : list T) : option T :=
  _ <- static_assert (negb (empty args)) ;;
  type_list_impl.at_ Index args.

Definition try_at (Index : nat) (args : list T) : option (list T) :=
  type_list_impl.try_at Index args.

Definition push_back (args suffix : list T) : list T := args ++ suffix.

Definition push_front (args prefix : list T) : list T := prefix ++ args.

Definition concat (args TList : list T) : list T := push_front TList args.

Definition tail (Offset : nat) (args : list T) : option (list T) :=
  type_list_impl.tail Offset args.

Definition split (Index : nat) (args : list T) : option (list T * list T) :=
  type_list_impl.split Index args.

Definition filter (TFilter : T -> bool) (args : list T) : list T * list T :=
  type_list_impl.filter TFilter args.

(** [Args::zip<UArgs...>]: this list is the left one. *)
Definition zip (args uargs : list T) : option (list T) :=
  type_list_impl.zip uargs 0 args.

(** [unzip<Step, Offset>]. *)
Definition unzip (Step Offset : nat) (args : list T) : option (list T) :=
  t <- tail (if Offset <? size args then Offset else size args) args ;;
  Some (type_list_impl.skip 0 Step t).

Definition search (TFilter : T -> bool) (TDefault : T) (args : list T) : T :=
  type_list_impl.search TFilter TDefault args.

Definition foreach_if (TCondition : T -> bool) (args : list T)
  : nat * list (indexed_type_tag T) :=
  type_list_impl.foreach_if TCondition 0 args.

(** [foreach(visitor, args...)]: whether the visitor was called, and its
    calls. *)
Definition foreach (args : list T) : bool * list (indexed_type_tag T) :=
  let r := foreach_if (fun _ => true) args in
  (0 <? fst r, snd r).

(** [visit(index, visitor, args...)]. *)
Definition visit (index : nat) (args : list T)
  : bool * list (indexed_type_tag T) :=
  type_list_impl.visit_at 0 args index.

(** [type_at(index)]. *)
Definition type_at (index : nat) (args : list T) : option T :=
  type_list_impl.type_at args index.

Definition left (Size : nat) (args : list T) : option (list T) :=
  type_list_impl.left Size args.

Definition slice (Begin End_ : nat) (args : list T) : option (list T) :=
  type_list_impl.slice Begin End_ args.

Definition right (Size : nat) (args : list T) : option (list T) :=
  type_list_impl.right Size args.

(** [transform<T>]. *)
Definition transform {R : Type} (f : T -> R) (args : list T) : list R :=
  map f args.

(** [indexed_transform<T>]: [Position] starts at the size of the list. *)
Definition indexed_transform {R : Type} (f : T -> nat -> R) (args : list T)
  : option (list R) :=
  type_list_impl.indexed_transform f args (size args).

(** [combine<TRightList, TCombiner>]. *)
Definition combine {U R : Type} (args : list T) (TRightList : list U)
  (TCombiner : T -> U -> R) : option (list R) :=
  type_list_impl.combine TRightList 0 TCombiner args.

Section Equality.

Variable is_same_dec : forall x y : T, {x = y} + {x <> y}.

Definition index_of (t : T) (args : list T) : nat :=
  type_list_impl.index_of is_same_dec 0 t args.

Definition contains (t : T) (args : list T) : bool :=
  type_list_impl.contains is_same_dec t args.

(** [remove<UArgs...>]: what [filter<type_list<UArgs...>::contains>]
    rejects. *)
Definition remove (uargs args : list T) : list T :=
  snd (filter (fun u => contains u uargs) args).

(** [replace<TFrom, TTo>]. *)
Definition replace (TFrom TTo : T) (args : list T) : list T :=
  transform (type_list_impl.replace_transform is_same_dec TFrom TTo) args.

(** [unique<TTransform>]. *)
Definition unique (TTransform : T -> T) (args : list T) : list T :=
  type_list_impl.unique is_same_dec [] (map TTransform args).

End Equality.

Section Ordering.

Variable TLessComparer : T -> T -> bool.

Variable NDEBUG : bool.

Definition is_sorted (args : list T) : bool :=
  type_list_impl.is_sorted TLessComparer args.

Definition merge (args TList : list T) : option (list T) :=
  type_list_impl.merge_entry_point TLessComparer NDEBUG TList args.

Definition merge_sort (args : list T) : option (list T) :=
  type_list_impl.merge_sort TLessComparer NDEBUG args.

Definition insert_sorted (t : T) (args : list T) : list T :=
  type_list_impl.insert_sorted TLessComparer t args.

End Ordering.

Section BinarySearch.

Variables Needle VArgs : Type.

Variable compare : Needle -> indexed_type_tag T -> Z.

(** [binary_search<TComparer>::exact(needle, visitor, args...)]. *)
Definition exact (list_ : list T) (needle : Needle) (args : VArgs)
  : option (@type_list_impl.found T Needle VArgs) :=
  type_list_impl.binary_search_exact compare needle args list_ 0.

(** [binary_search<TComparer>::lower_bound(needle, visitor, args...)]. *)
Definition lower_bound (list_ : list T) (needle : Needle) (args : VArgs)
  : option (@type_list_impl.found T Needle VArgs) :=
  type_list_impl.binary_search_lower_bound compare needle args list_.

(** [binary_search<TComparer>::upper_bound(needle, visitor, args...)]. *)
Definition upper_bound (list_ : list T) (needle : Needle) (args : VArgs)
  : option (@type_list_impl.found T Needle VArgs) :=
  type_list_impl.binary_search_upper_bound compare needle args list_ 0.

End BinarySearch.

End Members.

Section Flatten.

Context {A : Type}.

Variable size_t_max : N.

(** [flatten<Depth>]. *)
Definition flatten (Depth : N) (args : list (type_list_impl.type A))
  : list (type_list_impl.type A) :=
  type_list_impl.flatten size_t_max 0 Depth args.

(** [flatten<>], with [Depth] defaulted to the maximum of [std::size_t]. *)
Definition flatten_default (args : list (type_list_impl.type A))
  : list (type_list_impl.type A) :=
  flatten size_t_max args.

End Flatten.

End type_list.

(** ** [type_map<Args...>]

    A map is the pack of its [type_pair<TKey, TMapped>] elements, in order;
    keys need not be unique.  The class asserts that every element is a
    [type_pair], which the carrier [K * V] states. *)

Module type_map.

Section Maps.

Context {K V : Type}.

Variable is_same_dec : forall x y : K, {x = y} + {x <> y}.

(** Modelled from the spec: [type_pair<TFirst, TSecond>] and its member
    [transform<TFirstTransform, TSecondTransform>], of
    [fatal/type/pair.h], are missing; a pair is a Rocq pair, [first] and
    [second] are [fst] and [snd], and the transforms are applied component
    by component, so that identity transforms leave a pair as it is. *)
Definition pair_transform {K' V' : Type}
  (TFirstTransform : K -> K') (TSecondTransform : V -> V') (p : K * V)
  : K' * V' :=
  (TFirstTransform (fst p), TSecondTransform (snd p)).

(** [detail::type_map_impl::curried_key_filter<TFilter, Args...>::type]. *)
Definition curried_key_filter (TFilter : K -> bool) (p : K * V) : bool :=
  TFilter (fst p).

(** [detail::type_map_impl::transform_at<TKey, TPair, TKeyTransform,
    TMappedTransform>]. *)
Definition transform_at_pair (TKey : K)
  (TKeyTransform : K -> K) (TMappedTransform : V -> V) (TPair : K * V)
  : K * V :=
  if type_list_impl.is_same is_same_dec TKey (fst TPair)
  then pair_transform TKeyTransform TMappedTransform TPair
  else TPair.

(** [keys]. *)
Definition keys (m : list (K * V)) : list K := map fst m.

(** [mapped]. *)
Definition mapped (m : list (K * V)) : list V := map snd m.

(** [transform_at<TKey, TMappedTransform>], with the key transform left at
    its default, the identity. *)
Definition transform_at (TKey : K) (TMappedTransform : V -> V)
  (m : list (K * V)) : list (K * V) :=
  map (transform_at_pair TKey (fun k => k) TMappedTransform) m.

(** [find<TKey, TDefault>]: the default travels as the second component
    of [type_pair<void, TDefault>]. *)
Definition find (void : K) (TKey : K) (TDefault : V) (m : list (K * V)) : V :=
  snd (type_list.search
         (curried_key_filter
            (fun k => type_list_impl.is_same is_same_dec k TKey))
         (void, TDefault) m).

(** [contains<T>]. *)
Definition contains (t : K) (m : list (K * V)) : bool :=
  type_list.contains is_same_dec t (keys m).

(** [push_back<TKey, TMapped>]. *)
Definition push_back (m : list (K * V)) (TKey : K) (TMapped : V)
  : list (K * V) :=
  m ++ [(TKey, TMapped)].

End Maps.

Section Cluster.

Context {K V : Type}.

Variable is_same_dec : forall x y : K, {x = y} + {x <> y}.

(** [detail::type_map_impl::cluster_transform<T>::add<U>]. *)
Definition cluster_transform_add (t : V) (u : list V) : list V :=
  type_list.push_back u [t].

(** [detail::type_map_impl::cluster<Args...>]. *)
Fixpoint cluster_impl (args : list (K * V)) : list (K * list V) :=
  match args with
  | [] => []
  | t :: args' =>
      let tail := cluster_impl args' in
      let key := fst t in
      let mapped := snd t in
      if contains is_same_dec key tail
      then transform_at is_same_dec key (cluster_transform_add mapped) tail
      else push_back tail key [mapped]
  end.

(** [cluster<TKeyTransform, TMappedTransform>]. *)
Definition cluster (TKeyTransform : K -> K) (TMappedTransform : V -> V)
  (m : list (K * V)) : list (K * list V) :=
  cluster_impl (map (pair_transform TKeyTransform TMappedTransform) m).

End Cluster.

Section Members.

Context {K V : Type}.

Variable is_same_dec : forall x y : K, {x = y} + {x <> y}.

(** [transform<TMappedTransform, TKeyTransform>]. *)
Definition transform {K' V' : Type} (TMappedTransform : V -> V')
  (TKeyTransform : K -> K') (m : list (K * V)) : list (K' * V') :=
  map (pair_transform TKeyTransform TMappedTransform) m.

(** Modelled from the spec: the member [invert] of [type_pair], of
    [fatal/type/pair.h], is missing; it swaps the two components. *)
Definition pair_invert {A B : Type} (p : A * B) : B * A := (snd p, fst p).

(** [invert<TKeyTransform, TMappedTransform>]. *)
Definition invert {K' V' : Type} (TKeyTransform : K -> K')
  (TMappedTransform : V -> V') (m : list (K * V)) : list (V' * K') :=
  map (fun p => pair_invert (pair_transform TKeyTransform TMappedTransform p))
    m.

(** [push_front<TKey, TMapped>]; [pair_resolver] makes a pair of a key and
    a mapped type, or takes a pair as it is. *)
Definition push_front (m : list (K * V)) (TKey : K) (TMapped : V)
  : list (K * V) :=
  (TKey, TMapped) :: m.

(** [insert<TKey, TMapped>]. *)
Definition insert (m : list (K * V)) (TKey : K) (TMapped : V)
  : list (K * V) :=
  type_list.push_back m [(TKey, TMapped)].

(** Modelled from the spec: [transform::fixed<T>] of
    [fatal/type/transform.h] is missing; it yields [T] whatever it is
    applied to. *)
Definition fixed {A B : Type} (t : B) (_ : A) : B := t.

(** [replace<TKey, TMapped>]. *)
Definition replace (TKey : K) (TMapped : V) (m : list (K * V))
  : list (K * V) :=
  transform_at is_same_dec TKey (fixed TMapped) m.

(** [remove<UArgs...>]. *)
Definition remove (uargs : list K) (m : list (K * V)) : list (K * V) :=
  snd (type_list.filter
         (curried_key_filter (fun k => type_list.contains is_same_dec k uargs))
         m).

(** [filter<TFilter>], through [detail::type_map_impl::filter]. *)
Definition filter (TFilter : K -> bool) (m : list (K * V))
  : list (K * V) * list (K * V) :=
  let filtered := type_list.filter (curried_key_filter TFilter) m in
  (fst filtered, snd filtered).

(** Modelled from the spec: [type_get_first_comparer<TLessComparer>] of
    [fatal/type/pair.h] is missing; it compares two pairs by their first
    components. *)
Definition type_get_first_comparer (TLessComparer : K -> K -> bool)
  (lhs rhs : K * V) : bool :=
  TLessComparer (fst lhs) (fst rhs).

(** [insert_sorted<TKey, TValue, TLessComparer>]. *)
Definition insert_sorted (TKey : K) (TValue : V)
  (TLessComparer : K -> K -> bool) (m : list (K * V)) : list (K * V) :=
  type_list.insert_sorted (type_get_first_comparer TLessComparer)
    (TKey, TValue) m.

(** [insert_pair_sorted<TPair, TLessComparer>]. *)
Definition insert_pair_sorted (TPair : K * V)
  (TLessComparer : K -> K -> bool) (m : list (K * V)) : list (K * V) :=
  type_list.insert_sorted (type_get_first_comparer TLessComparer) TPair m.

(** [merge_sort<TLessComparer>]. *)
Definition merge_sort (TLessComparer : K -> K -> bool) (NDEBUG : bool)
  (m : list (K * V)) : option (list (K * V)) :=
  type_list.merge_sort (type_get_first_comparer TLessComparer) NDEBUG m.

Section Visit.

(** [detail::type_map_impl::visit_not_found], a mapped type like any
    other, which [visit_visitor] tells apart by partial specialisation. *)
Variable visit_not_found : V.

Variable is_same_mapped_dec : forall x y : V, {x = y} + {x <> y}.

Variable void : K.

(** [visit<TKey>(visitor, args...)]: whether the visitor was called, and
    the [type_pair<TKey, TMapped>] it was called with. *)
Definition visit (TKey : K) (m : list (K * V)) : bool * list (K * V) :=
  let mapped := find is_same_dec void TKey visit_not_found m in
  if type_list_impl.is_same is_same_mapped_dec mapped visit_not_found
  then (false, [])
  else (true, [(TKey, mapped)]).

End Visit.

Section BinarySearch.

Variables Needle VArgs : Type.

Variable compare : Needle -> indexed_type_tag K -> Z.

(** [detail::type_map_impl::binary_search_comparer<TComparer>::compare]. *)
Definition binary_search_comparer (needle : Needle)
  (t : indexed_type_tag (K * V)) : Z :=
  compare needle (mk_indexed_type_tag (fst (tag_type t)) (tag_index t)).

Definition exact (m : list (K * V)) (needle : Needle) (args : VArgs)
  : option (@type_list_impl.found (K * V) Needle VArgs) :=
  type_list.exact binary_search_comparer m needle args.

Definition lower_bound (m : list (K * V)) (needle : Needle) (args : VArgs)
  : option (@type_list_impl.found (K * V) Needle VArgs) :=
  type_list.lower_bound binary_search_comparer m needle args.

Definition upper_bound (m : list (K * V)) (needle : Needle) (args : VArgs)
  : option (@type_list_impl.found (K * V) Needle VArgs) :=
  type_list.upper_bound binary_search_comparer m needle args.

End BinarySearch.

End Members.

Section Builders.

Context {T : Type}.

(** [detail::type_map_impl::builder<Args...>], behind [build_type_map]:
    keys and mapped types come from one flat list; [type_pair] is the
    combiner. *)
Definition build_type_map (args : list T) : option (list (T * T)) :=
  keys <- type_list.unzip 1 0 args ;;
  mapped <- type_list.unzip 1 1 args ;;
  _ <- static_assert (type_list.size keys =? type_list.size mapped) ;;
  type_list.combine keys mapped pair.

(** [type_map_from<TKeyTransform, TValueTransform>::list<UList>];
    [type_pair_from], of [fatal/type/pair.h], pairs the two transforms of
    an element. *)
Definition type_map_from {K V : Type} (TKeyTransform : T -> K)
  (TValueTransform : T -> V) (UList : list T) : list (K * V) :=
  map (fun u => (TKeyTransform u, TValueTransform u)) UList.

End Builders.

End type_map.

(** ** [flag_set<TFlags...>] *)

Module flag_set.

(** What a use of a member comes to: a value, a program that does not
    compile, or an [assert] that aborts. *)
Inductive outcome (A : Type) : Type :=
| ok : A -> outcome A
| ill_formed : outcome A
| assertion_failed : outcome A.

Arguments ok {A} _.
Arguments ill_formed {A}.
Arguments assertion_failed {A}.

Definition and_then {A B : Type} (m : outcome A) (k : A -> outcome B)
  : outcome B :=
  match m with
  | ok a => k a
  | ill_formed => ill_formed
  | assertion_failed => assertion_failed
  end.

Notation "x <~ m ;; k" := (and_then m (fun x => k))
  (at level 61, m at next level, right associativity).

Definition enable_if (c : bool) : outcome unit :=
  if c then ok tt else ill_formed.

Definition assert (c : bool) : outcome unit :=
  if c then ok tt else assertion_failed.

(** The object: its only member is [flags_]. *)
Record t : Type := mk { flags_ : Z }.

Section Sets.

Context {Flag : Type}.

Variable is_same_dec : forall x y : Flag, {x = y} + {x <> y}.

(** [data_bits<smallest_fast_unsigned_integral<n>>::value]: the width of
    [flags_type] for [n] flags.  [fatal/math/numerics.h] is not part of the
    sources, so the choice of the integral type is left open. *)
Variable flags_bits : nat -> nat.

(** Conversion to [flags_type], an unsigned type of [flags_bits n] bits. *)
Definition flags_type (n : nat) (z : Z) : Z :=
  z mod 2 ^ Z.of_nat (flags_bits n).

(** Modelled from the spec: [mersenne_number] of [fatal/math/numerics.h]
    is missing; [range_mask] is the mask [2^n - 1] of the [n] supported
    flags. *)
Definition range_mask (n : nat) : Z := 2 ^ Z.of_nat n - 1.

(** The [static_assert] of the class: [flags_type] has room for the
    flags. *)
Definition instantiate (tag_list : list Flag) : outcome unit :=
  enable_if (type_list.size tag_list <=? flags_bits (type_list.size tag_list)).

(** One element of the pack expanded in [mask_for]. *)
Definition flag_mask (tag_list : list Flag) (IgnoreUnsupported : bool)
  (UFlag : Flag) : outcome Z :=
  _ <~ enable_if
         (IgnoreUnsupported || type_list.contains is_same_dec UFlag tag_list) ;;
  ok (if type_list.index_of is_same_dec UFlag tag_list
            <? type_list.size tag_list
      then flags_type (type_list.size tag_list)
             (Z.shiftl 1
                (Z.of_nat (type_list.index_of is_same_dec UFlag tag_list)))
      else 0%Z).

(** [mask_for<IgnoreUnsupported, UFlags...>]: [bitwise_or_constants], of
    [fatal/type/traits.h], is the bitwise or of [0] and of the masks of the
    flags. *)
Fixpoint mask_for (tag_list : list Flag) (IgnoreUnsupported : bool)
  (UFlags : list Flag) : outcome Z :=
  match UFlags with
  | [] => ok 0%Z
  | u :: us =>
      m <~ flag_mask tag_list IgnoreUnsupported u ;;
      rest <~ mask_for tag_list IgnoreUnsupported us ;;
      ok (Z.lor m rest)
  end.

(** [is_set<UFlags...>()]. *)
Definition is_set (tag_list UFlags : list Flag) (s : t) : outcome bool :=
  _ <~ instantiate tag_list ;;
  mask <~ mask_for tag_list false UFlags ;;
  ok (Z.land (flags_ s) mask =? mask)%Z.

(** The supported flags of the set at hand. *)
Variable TFlags : list Flag.

Section ImportForeign.

(** [import_foreign<UFlags...>]: the flags of the foreign set. *)
Variable UFlags : list Flag.

(** [visitor::operator()]. *)
Definition visitor (tag : indexed_type_tag Flag) (foreign : t) (out : Z)
  : outcome Z :=
  b <~ is_set UFlags [tag_type tag] foreign ;;
  m <~ mask_for TFlags true [tag_type tag] ;;
  ok (if b then Z.lor out m else out).

(** The calls that [foreach] makes, threaded through [out]. *)
Fixpoint visit_each (calls : list (indexed_type_tag Flag)) (foreign : t)
  (out : Z) : outcome Z :=
  match calls with
  | [] => ok out
  | c :: cs => out' <~ visitor c foreign out ;; visit_each cs foreign out'
  end.

(** [import_foreign<UFlags...>::import]. *)
Definition import (foreign : t) : outcome Z :=
  flags <~ visit_each (snd (type_list.foreach UFlags)) foreign 0%Z ;;
  _ <~ assert
         (Z.land flags (range_mask (type_list.size TFlags)) =? flags)%Z ;;
  ok flags.

End ImportForeign.

(** [flag_set()]. *)
Definition default_ctor : outcome t :=
  _ <~ instantiate TFlags ;;
  ok (mk 0).

(** [flag_set(UFlags &&...)]. *)
Definition variadic_ctor (UFlags : list Flag) : outcome t :=
  _ <~ instantiate TFlags ;;
  m <~ mask_for TFlags false UFlags ;;
  ok (mk m).

(** [flag_set(flag_set<UFlags...> const &other)]. *)
Definition foreign_ctor (UFlags : list Flag) (other : t) : outcome t :=
  _ <~ instantiate TFlags ;;
  f <~ import UFlags other ;;
  ok (mk f).

(** [clear()]. *)
Definition clear (s : t) : outcome t :=
  _ <~ instantiate TFlags ;;
  ok (mk 0).

(** [set<UFlags...>()]. *)
Definition set (UFlags : list Flag) (s : t) : outcome t :=
  _ <~ instantiate TFlags ;;
  m <~ mask_for TFlags false UFlags ;;
  let f := Z.lor (flags_ s) m in
  _ <~ assert (Z.land f (range_mask (type_list.size TFlags)) =? f)%Z ;;
  ok (mk f).

(** [set_if<UFlag>(condition)]: [set<UFlag>] is instantiated whatever the
    condition is at run time. *)
Definition set_if (UFlag : Flag) (condition : bool) (s : t) : outcome t :=
  _ <~ instantiate TFlags ;;
  _ <~ mask_for TFlags false [UFlag] ;;
  if condition then set [UFlag] s else ok s.

(** [reset<UFlags...>()]. *)
Definition reset (UFlags : list Flag) (s : t) : outcome t :=
  _ <~ instantiate TFlags ;;
  m <~ mask_for TFlags false UFlags ;;
  _ <~ assert (Z.land m (range_mask (type_list.size TFlags)) =? m)%Z ;;
  ok (mk m).

(** [operator =(flag_set<UFlags...> const &rhs)]. *)
Definition assign_foreign (UFlags : list Flag) (rhs : t) (s : t) : outcome t :=
  _ <~ instantiate TFlags ;;
  f <~ import UFlags rhs ;;
  ok (mk f).

(** [get()]. *)
Definition get (s : t) : Z := flags_ s.

(** The operations that build or change a set, as one step function: the
    constructors do not look at the state they start from. *)
Inductive operation : Type :=
| op_default_ctor
| op_variadic_ctor (UFlags : list Flag)
| op_foreign_ctor (UFlags : list Flag) (other : t)
| op_assign_foreign (UFlags : list Flag) (rhs : t)
| op_set (UFlags : list Flag)
| op_set_if (UFlag : Flag) (condition : bool)
| op_reset (UFlags : list Flag)
| op_clear.

Definition run (o : operation) (s : t) : outcome t :=
  match o with
  | op_default_ctor => default_ctor
  | op_variadic_ctor UFlags => variadic_ctor UFlags
  | op_foreign_ctor UFlags other => foreign_ctor UFlags other
  | op_assign_foreign UFlags rhs => assign_foreign UFlags rhs s
  | op_set UFlags => set UFlags s
  | op_set_if UFlag condition => set_if UFlag condition s
  | op_reset UFlags => reset UFlags s
  | op_clear => clear s
  end.

(** No bit at position [n] or above: [get() & ~(2^n - 1) == 0]. *)
Definition in_range (s : t) : Prop :=
  Z.land (get s) (Z.lnot (2 ^ Z.of_nat (type_list.size TFlags) - 1)) = 0%Z.

End Sets.

Section Expand.

Context {Flag : Type}.

Variable is_same_dec : forall x y : Flag, {x = y} + {x <> y}.

Variable flags_bits : nat -> nat.

Variable TFlags : list Flag.

(** [flag_set(flag_set const &) = default]. *)
Definition copy_ctor (other : t) : outcome t :=
  _ <~ instantiate flags_bits TFlags ;;
  ok other.

(** [operator =(flag_set const &rhs)]. *)
Definition assign (rhs : t) (s : t) : outcome t :=
  _ <~ instantiate flags_bits TFlags ;;
  let f := flags_ rhs in
  _ <~ assert (Z.land f (range_mask (type_list.size TFlags)) =? f)%Z ;;
  ok (mk f).

(** [expanded<UFlag>]: the supported flags of the expanded set;
    [apply_back<flag_set, UFlag>] is [flag_set<TFlags..., UFlag>]. *)
Definition expanded (UFlag : Flag) : list Flag :=
  if type_list.contains is_same_dec UFlag TFlags
  then TFlags
  else type_list.push_back TFlags [UFlag].

(** The [expanded<UFlag>] built from this set: by the copy constructor
    when [expanded<UFlag>] is this class, by the constructor from a foreign
    set otherwise. *)
Definition expanded_ctor (UFlag : Flag) (s : t) : outcome t :=
  _ <~ instantiate flags_bits TFlags ;;
  if type_list.contains is_same_dec UFlag TFlags
  then copy_ctor s
  else foreign_ctor is_same_dec flags_bits (expanded UFlag) TFlags s.

(** [expand<UFlag>()]. *)
Definition expand (UFlag : Flag) (s : t) : outcome t :=
  copy <~ expanded_ctor UFlag s ;;
  set is_same_dec flags_bits (expanded UFlag) [UFlag] copy.

(** [expand_if<UFlag>(condition)]. *)
Definition expand_if (UFlag : Flag) (condition : bool) (s : t) : outcome t :=
  copy <~ expanded_ctor UFlag s ;;
  set_if is_same_dec flags_bits (expanded UFlag) UFlag condition copy.

End Expand.

End flag_set.

(** * Properties *)

(** ** [index_of] and [contains] *)

Section IndexOf.

Context {T : Type}.

Variable is_same_dec : forall x y : T, {x = y} + {x <> y}.

Lemma is_same_true (x y : T) :
  type_list_impl.is_same is_same_dec x y = true <-> x = y.
Proof.
  unfold type_list_impl.is_same.
  destruct (is_same_dec x y); split; intros; congruence.
Qed.

Lemma is_same_false (x y : T) :
  type_list_impl.is_same is_same_dec x y = false <-> x <> y.
Proof.
  unfold type_list_impl.is_same.
  destruct (is_same_dec x y); split; intros; congruence.
Qed.

Lemma contains_In (t : T) (args : list T) :
  type_list_impl.contains is_same_dec t args = true <-> In t args.
Proof.
  induction args as [|u uargs IH]; simpl.
  - split; [discriminate | tauto].
  - destruct (type_list_impl.is_same is_same_dec t u) eqn:E.
    + apply is_same_true in E. subst. tauto.
    + apply is_same_false in E. rewrite IH.
      split; [tauto | intros [H|H]; congruence].
Qed.

Lemma contains_false (t : T) (args : list T) :
  type_list_impl.contains is_same_dec t args = false <-> ~ In t args.
Proof.
  rewrite <- contains_In.
  destruct (type_list_impl.contains is_same_dec t args); split; congruence.
Qed.

(** The accumulator of [index_of] is an offset. *)
Lemma index_of_offset (Index : nat) (t : T) (args : list T) :
  type_list_impl.index_of is_same_dec Index t args
  = Index + type_list_impl.index_of is_same_dec 0 t args.
Proof.
  revert Index.
  induction args as [|u uargs IH]; intros Index; simpl.
  - lia.
  - destruct (type_list_impl.is_same is_same_dec t u); [lia|].
    rewrite (IH (Index + 1)), (IH 1). lia.
Qed.

Lemma index_of_le_size (t : T) (args : list T) :
  type_list.index_of is_same_dec t args <= type_list.size args.
Proof.
  unfold type_list.index_of, type_list.size.
  induction args as [|u uargs IH]; simpl; [lia|].
  destruct (type_list_impl.is_same is_same_dec t u); [lia|].
  rewrite index_of_offset. lia.
Qed.

Lemma index_of_absent (t : T) (args : list T) :
  ~ In t args -> type_list.index_of is_same_dec t args = type_list.size args.
Proof.
  unfold type_list.index_of, type_list.size.
  induction args as [|u uargs IH]; simpl; intros Hn; [reflexivity|].
  destruct (type_list_impl.is_same is_same_dec t u) eqn:E.
  - apply is_same_true in E. subst. tauto.
  - rewrite index_of_offset, IH by tauto. lia.
Qed.

Lemma index_of_present (t : T) (args : list T) :
  In t args ->
  nth_error args (type_list.index_of is_same_dec t args) = Some t /\
  forall j, j < type_list.index_of is_same_dec t args ->
            nth_error args j <> Some t.
Proof.
  unfold type_list.index_of.
  induction args as [|u uargs IH]; simpl; intros Hin; [tauto|].
  destruct (type_list_impl.is_same is_same_dec t u) eqn:E.
  - apply is_same_true in E. subst. split; [reflexivity | intros; lia].
  - apply is_same_false in E.
    destruct Hin as [Hin|Hin]; [congruence|].
    destruct (IH Hin) as [Hat Hbefore].
    rewrite index_of_offset. split.
    + exact Hat.
    + intros [|j] Hj; simpl.
      * congruence.
      * apply Hbefore. simpl in Hj. lia.
Qed.

(** C10. [L::index_of<T>::value] is the 0-based position of the first
    occurrence of [T] in [L] when [T] occurs in [L], and [L::size] when it
    does not; hence [index_of<T>::value < size] exactly when
    [L::contains<T>::value] is true. *)
Theorem index_of_first_occurrence (t : T) (L : list T) :
  (In t L ->
   nth_error L (type_list.index_of is_same_dec t L) = Some t /\
   forall j, j < type_list.index_of is_same_dec t L ->
             nth_error L j <> Some t) /\
  (~ In t L -> type_list.index_of is_same_dec t L = type_list.size L) /\
  (type_list.index_of is_same_dec t L < type_list.size L
   <-> type_list.contains is_same_dec t L = true).
Proof.
  split; [apply index_of_present|].
  split; [apply index_of_absent|].
  unfold type_list.contains. rewrite contains_In.
  split.
  - intros Hlt.
    destruct (in_dec is_same_dec t L) as [Hin|Hout]; [exact Hin|].
    rewrite (@index_of_absent t L Hout) in Hlt. lia.
  - intros Hin.
    destruct (@index_of_present t L Hin) as [Hat _].
    apply nth_error_Some. unfold type_list.size. congruence.
Qed.

End IndexOf.

(** ** [filter] *)

Section Filter.

Context {T : Type}.

Variable TFilter : T -> bool.

Lemma filter_components (L : list T) :
  type_list_impl.filter TFilter L
  = (List.filter TFilter L, List.filter (fun u => negb (TFilter u)) L).
Proof.
  induction L as [|u uargs IH]; simpl; [reflexivity|].
  rewrite IH. simpl.
  destruct (TFilter u); reflexivity.
Qed.

Lemma filter_partition_perm (L : list T) :
  Permutation L
    (List.filter TFilter L ++ List.filter (fun u => negb (TFilter u)) L).
Proof.
  induction L as [|u uargs IH]; simpl; [constructor|].
  destruct (TFilter u); simpl.
  - now constructor.
  - now apply Permutation_cons_app.
Qed.

(** C4. [L::filter<TFilter>] is the pair of the elements of [L] that
    [TFilter] accepts, in their order in [L], and of those it rejects, in
    their order in [L]; every element of [L] is in exactly one of the
    two. *)
Theorem filter_partitions (L : list T) :
  let accepted := fst (type_list.filter TFilter L) in
  let rejected := snd (type_list.filter TFilter L) in
  accepted = List.filter TFilter L /\
  rejected = List.filter (fun u => negb (TFilter u)) L /\
  Permutation L (accepted ++ rejected) /\
  (forall u, In u accepted <-> In u L /\ TFilter u = true) /\
  (forall u, In u rejected <-> In u L /\ TFilter u = false) /\
  (forall u, In u L ->
     (In u accepted /\ ~ In u rejected) \/ (In u rejected /\ ~ In u accepted)).
Proof.
  unfold type_list.filter. rewrite filter_components. simpl.
  split; [reflexivity|]. split; [reflexivity|].
  split; [apply filter_partition_perm|].
  assert (Hacc : forall u, In u (List.filter TFilter L)
                           <-> In u L /\ TFilter u = true)
    by (intros u; apply filter_In).
  assert (Hrej : forall u, In u (List.filter (fun u => negb (TFilter u)) L)
                           <-> In u L /\ TFilter u = false).
  { intros u. rewrite filter_In, negb_true_iff. tauto. }
  split; [exact Hacc|]. split; [exact Hrej|].
  intros u Hin. rewrite !Hacc, !Hrej.
  destruct (TFilter u); [left | right]; intuition congruence.
Qed.

End Filter.

(** ** [zip] and [unzip] *)

Section Zip.

Context {T : Type}.

(** The interleaving in the words of the documentation: alternate between
    the two lists, starting with the first, and append what is left of the
    longer one. *)
Fixpoint interleave (a b : list T) : list T :=
  match a, b with
  | [], _ => b
  | _, [] => a
  | x :: a', y :: b' => x :: y :: interleave a' b'
  end.

Lemma try_at_spec (Distance : nat) (args : list T) :
  Distance <= length args ->
  type_list_impl.try_at Distance args
  = Some (firstn 1 (skipn Distance args)).
Proof.
  revert Distance.
  induction args as [|u uargs IH]; intros Distance Hle; simpl in *.
  - assert (Distance = 0) by lia. subst. reflexivity.
  - destruct Distance as [|d]; simpl.
    + rewrite IH by lia. reflexivity.
    + rewrite Nat.sub_0_r, IH by lia. reflexivity.
Qed.

Lemma left_spec (Size : nat) (args : list T) :
  Size <= length args ->
  type_list_impl.left Size args = Some (firstn Size args).
Proof.
  revert args.
  induction Size as [|n IH]; intros args Hle; [reflexivity|].
  destruct args as [|u uargs]; simpl in Hle; [lia|].
  cbn [type_list_impl.left].
  replace (S n <=? length uargs + 1) with true
    by (symmetry; apply Nat.leb_le; lia).
  simpl. rewrite IH by lia. reflexivity.
Qed.

Lemma slice_spec (Begin End_ : nat) (args : list T) :
  Begin <= End_ -> End_ <= length args ->
  type_list_impl.slice Begin End_ args
  = Some (firstn (End_ - Begin) (skipn Begin args)).
Proof.
  revert End_ args.
  induction Begin as [|b IH]; intros End_ args Hbe Hel.
  - destruct args; simpl; rewrite Nat.sub_0_r; apply left_spec; assumption.
  - destruct args as [|u uargs]; simpl in Hel; [lia|].
    cbn [type_list_impl.slice].
    replace (S b <=? End_) with true by (symmetry; apply Nat.leb_le; lia).
    simpl. rewrite IH by lia.
    replace (End_ - 1 - b) with (End_ - S b) by lia. reflexivity.
Qed.

Lemma tail_spec (Index : nat) (args : list T) :
  Index <= length args ->
  type_list_impl.tail Index args = Some (skipn Index args).
Proof.
  revert args.
  induction Index as [|i IH]; intros args Hle; [reflexivity|].
  destruct args as [|u uargs]; simpl in Hle; [lia|].
  cbn [type_list_impl.tail].
  replace (S i <=? length uargs + 1) with true
    by (symmetry; apply Nat.leb_le; lia).
  simpl. apply IH. lia.
Qed.

Lemma zip_from (TRightList lefts : list T) (Index : nat) :
  Index <= length TRightList ->
  type_list_impl.zip TRightList Index lefts
  = Some (interleave lefts (skipn Index TRightList)).
Proof.
  revert Index.
  induction lefts as [|u ulefts IH]; intros Index Hle.
  - simpl. rewrite slice_spec by lia.
    rewrite firstn_all2 by (rewrite length_skipn; lia). reflexivity.
  - cbn [type_list_impl.zip].
    rewrite try_at_spec by exact Hle. simpl.
    destruct (Index =? length TRightList) eqn:E.
    + apply Nat.eqb_eq in E.
      rewrite IH by lia. simpl.
      rewrite skipn_all2 by lia. reflexivity.
    + apply Nat.eqb_neq in E.
      rewrite IH by lia. simpl.
      destruct (skipn Index TRightList) as [|y ys] eqn:Es.
      * apply (f_equal (@length T)) in Es.
        rewrite length_skipn in Es. simpl in Es. lia.
      * replace (Index + 1) with (S Index) by lia.
        assert (Hs : skipn (S Index) TRightList = ys).
        { change (S Index) with (1 + Index).
          rewrite <- skipn_skipn, Es. reflexivity. }
        rewrite Hs. reflexivity.
Qed.

Lemma skip_interleave (a b : list T) :
  length a = length b ->
  type_list_impl.skip 0 1 (interleave a b) = a /\
  type_list_impl.skip 1 1 (interleave a b) = b.
Proof.
  revert b.
  induction a as [|x a' IH]; intros [|y b'] Hlen; simpl in Hlen;
    try discriminate.
  - split; reflexivity.
  - destruct (IH b') as [H0 H1]; [lia|].
    simpl. rewrite H0, H1. split; reflexivity.
Qed.

(** The interleaving alternates as long as both lists last, and then
    appends what is left of the longer one. *)
Lemma interleave_remainder (a b r : list T) :
  length a = length b ->
  interleave (a ++ r) b = interleave a b ++ r /\
  interleave a (b ++ r) = interleave a b ++ r.
Proof.
  revert b.
  induction a as [|x a' IH]; intros [|y b'] Hlen; simpl in Hlen;
    try discriminate.
  - simpl. split; [destruct r|]; reflexivity.
  - destruct (IH b') as [H1 H2]; [lia|].
    simpl. rewrite H1, H2. split; reflexivity.
Qed.

(** C5. [A::zip<B...>] interleaves [A] and [B], starting with [A] and
    appending the rest of the longer list; and for lists of equal size,
    with [Z] the interleaving, [Z::unzip<1, 0>] is [A] and
    [Z::unzip<1, 1>] is [B]. *)
Theorem zip_unzip_roundtrip (A B : list T) :
  type_list.zip A B = Some (interleave A B) /\
  (length A = length B ->
   type_list.unzip 1 0 (interleave A B) = Some A /\
   type_list.unzip 1 1 (interleave A B) = Some B).
Proof.
  split.
  - unfold type_list.zip. rewrite zip_from by lia. reflexivity.
  - intros Hlen.
    destruct (skip_interleave A B Hlen) as [H0 H1].
    unfold type_list.unzip, type_list.tail, type_list.size.
    split.
    + destruct (0 <? length (interleave A B)) eqn:E.
      * rewrite tail_spec by lia. simpl. congruence.
      * apply Nat.ltb_ge in E.
        assert (Hnil : interleave A B = []) by (apply length_zero_iff_nil; lia).
        rewrite Hnil in *. simpl in *. congruence.
    + destruct A as [|x A']; destruct B as [|y B']; simpl in Hlen;
        try discriminate; [reflexivity|].
      simpl in H1. simpl. congruence.
Qed.

End Zip.

(** The documentation's example: [l1 = <E, D, G>], [l2 = <B, A>], and two
    lists of equal size taken apart again. *)
Lemma zip_unzip_roundtrip_witness :
  type_list.zip [5; 4; 7] [2; 1] = Some [5; 2; 4; 1; 7] /\
  type_list.unzip 1 0 (interleave [5; 4] [2; 1]) = Some [5; 4] /\
  type_list.unzip 1 1 (interleave [5; 4] [2; 1]) = Some [2; 1].
Proof.
  split.
  - exact (proj1 (zip_unzip_roundtrip [5; 4; 7] [2; 1])).
  - exact (proj2 (zip_unzip_roundtrip [5; 4] [2; 1]) eq_refl).
Defined.

(** ** [type_map::find] and [type_map::contains] *)

Section Find.

Context {K V : Type}.

Variable is_same_dec : forall x y : K, {x = y} + {x <> y}.

Variable void : K.

Lemma map_contains_In (TKey : K) (M : list (K * V)) :
  type_map.contains is_same_dec TKey M = true <-> In TKey (type_map.keys M).
Proof.
  unfold type_map.contains, type_list.contains. apply contains_In.
Qed.

(** [M] splits at the first pair whose key is [TKey]. *)
Definition first_pair (TKey : K) (v : V) (M : list (K * V)) : Prop :=
  exists before after,
    M = before ++ (TKey, v) :: after /\ ~ In TKey (type_map.keys before).

Lemma find_absent (TKey : K) (TDefault : V) (M : list (K * V)) :
  ~ In TKey (type_map.keys M) ->
  type_map.find is_same_dec void TKey TDefault M = TDefault.
Proof.
  unfold type_map.find, type_list.search, type_map.curried_key_filter.
  induction M as [|[k v] M' IH]; simpl; intros Hn; [reflexivity|].
  destruct (type_list_impl.is_same is_same_dec k TKey) eqn:E.
  - apply is_same_true in E. tauto.
  - apply IH. tauto.
Qed.

Lemma find_present (TKey : K) (TDefault : V) (M : list (K * V)) :
  In TKey (type_map.keys M) ->
  first_pair TKey (type_map.find is_same_dec void TKey TDefault M) M.
Proof.
  unfold type_map.find, type_list.search, type_map.curried_key_filter.
  induction M as [|[k v] M' IH]; simpl; intros Hin; [tauto|].
  destruct (type_list_impl.is_same is_same_dec k TKey) eqn:E.
  - apply is_same_true in E. subst.
    exists [], M'. simpl. tauto.
  - apply is_same_false in E.
    destruct Hin as [Hin|Hin]; [congruence|].
    destruct (IH Hin) as (before & after & HM & Hfresh).
    exists ((k, v) :: before), after. simpl. split.
    + congruence.
    + intros [H|H]; tauto.
Qed.

Lemma first_pair_unique (TKey : K) (v w : V) (M : list (K * V)) :
  first_pair TKey v M -> first_pair TKey w M -> v = w.
Proof.
  intros (b1 & a1 & H1 & F1).
  revert M H1.
  induction b1 as [|[k x] b1 IH]; intros M H1 (b2 & a2 & H2 & F2); subst M.
  - destruct b2 as [|[k2 x2] b2]; simpl in *.
    + congruence.
    + inversion H2; subst. tauto.
  - destruct b2 as [|[k2 x2] b2]; simpl in *.
    + inversion H2; subst. tauto.
    + inversion H2; subst.
      apply (IH (fun H => F1 (or_intror H)) _ eq_refl).
      exists b2, a2. split; [assumption | tauto].
Qed.

(** C8, as the code has it.  [M::find<TKey, TDefault>] is the mapped type
    of the first pair of [M] whose key is [TKey], and [TDefault] when [M]
    has no pair with key [TKey] (that is, when [M::contains<TKey>] is
    false).  The result is [TDefault] exactly when there is no such pair
    or when the first such pair is mapped to [TDefault] itself. *)
Theorem find_first_or_default (TKey : K) (TDefault : V) (M : list (K * V)) :
  let found := type_map.find is_same_dec void TKey TDefault M in
  (type_map.contains is_same_dec TKey M = true
   <-> exists v, In (TKey, v) M) /\
  (type_map.contains is_same_dec TKey M = true -> first_pair TKey found M) /\
  (type_map.contains is_same_dec TKey M = false -> found = TDefault) /\
  (found = TDefault
   <-> type_map.contains is_same_dec TKey M = false
       \/ first_pair TKey TDefault M).
Proof.
  intros found. subst found.
  assert (Hkeys : In TKey (type_map.keys M) <-> exists v, In (TKey, v) M).
  { unfold type_map.keys. rewrite in_map_iff. split.
    - intros ([k v] & Hk & Hin). simpl in Hk. subst. now exists v.
    - intros (v & Hin). now exists (TKey, v). }
  assert (Habsent : type_map.contains is_same_dec TKey M = false
                    -> ~ In TKey (type_map.keys M)).
  { intros Hc Hin. apply map_contains_In in Hin. congruence. }
  split; [rewrite map_contains_In; exact Hkeys|].
  split; [intros Hc; apply find_present, map_contains_In, Hc|].
  split; [intros Hc; apply find_absent, Habsent, Hc|].
  split.
  - intros Hfound.
    destruct (type_map.contains is_same_dec TKey M) eqn:Hc; [right | now left].
    rewrite <- Hfound. apply find_present, map_contains_In, Hc.
  - intros [Hc | Hfirst].
    + apply find_absent, Habsent, Hc.
    + assert (Hin : In TKey (type_map.keys M)).
      { destruct Hfirst as (before & after & HM & _). subst M.
        unfold type_map.keys. rewrite map_app. apply in_or_app.
        right. now left. }
      apply (first_pair_unique (@find_present TKey TDefault M Hin) Hfirst).
Qed.

End Find.

(** C8, as stated, fails: in [type_map<type_pair<int, void>>], looking up
    [int] with default [void] yields [void] although the key is there.
    Types are numbered: [int] is 1 and [void] is 0. *)
Lemma find_default_with_key_present :
  ~ (type_map.find Nat.eq_dec 0 1 0 [(1, 0)] = 0
     <-> type_map.contains Nat.eq_dec 1 [(1, 0)] = false).
Proof.
  intros [H _]. specialize (H eq_refl). discriminate H.
Qed.

(** ** [type_map::cluster] *)

Section Cluster.

Context {K V : Type}.

Variable is_same_dec : forall x y : K, {x = y} + {x <> y}.

(** The mapped types paired with [k] in [M], in the order of [M]. *)
Definition mapped_of (k : K) (M : list (K * V)) : list V :=
  map snd (List.filter (fun p => type_list_impl.is_same is_same_dec k (fst p)) M).

Lemma mapped_of_cons (k k0 : K) (v0 : V) (M : list (K * V)) :
  mapped_of k ((k0, v0) :: M)
  = if type_list_impl.is_same is_same_dec k k0
    then v0 :: mapped_of k M
    else mapped_of k M.
Proof.
  unfold mapped_of. simpl.
  destruct (type_list_impl.is_same is_same_dec k k0); reflexivity.
Qed.

Lemma mapped_of_absent (k : K) (M : list (K * V)) :
  ~ In k (type_map.keys M) -> mapped_of k M = [].
Proof.
  unfold mapped_of.
  induction M as [|[k' v] M' IH]; simpl; intros Hn; [reflexivity|].
  destruct (type_list_impl.is_same is_same_dec k k') eqn:E.
  - apply is_same_true in E. subst. tauto.
  - apply IH. tauto.
Qed.

Lemma keys_transform_at {W : Type} (k : K) (f : W -> W) (m : list (K * W)) :
  type_map.keys (type_map.transform_at is_same_dec k f m) = type_map.keys m.
Proof.
  unfold type_map.keys, type_map.transform_at, type_map.transform_at_pair,
    type_map.pair_transform.
  rewrite map_map. apply map_ext. intros [k' w]. simpl.
  destruct (type_list_impl.is_same is_same_dec k k'); reflexivity.
Qed.

Lemma keys_push_back {W : Type} (m : list (K * W)) (k : K) (w : W) :
  type_map.keys (type_map.push_back m k w) = type_map.keys m ++ [k].
Proof.
  unfold type_map.keys, type_map.push_back. rewrite map_app. reflexivity.
Qed.

Lemma cluster_identity (M : list (K * V)) :
  type_map.cluster is_same_dec (fun k => k) (fun v => v) M
  = type_map.cluster_impl is_same_dec M.
Proof.
  unfold type_map.cluster, type_map.pair_transform. f_equal.
  rewrite <- (map_id M) at 2. apply map_ext. intros [k v]. reflexivity.
Qed.

Lemma cluster_keys (M : list (K * V)) (k : K) :
  In k (type_map.keys (type_map.cluster_impl is_same_dec M))
  <-> In k (type_map.keys M).
Proof.
  induction M as [|[k0 v0] M' IH]; simpl; [tauto|].
  destruct (type_map.contains is_same_dec k0
              (type_map.cluster_impl is_same_dec M')) eqn:Hc.
  - rewrite keys_transform_at, IH.
    apply map_contains_In in Hc.
    split; [tauto|]. intros [H|H]; [|exact H].
    subst. apply IH. exact Hc.
  - rewrite keys_push_back, in_app_iff, IH. simpl. tauto.
Qed.

Lemma cluster_keys_NoDup (M : list (K * V)) :
  NoDup (type_map.keys (type_map.cluster_impl is_same_dec M)).
Proof.
  induction M as [|[k0 v0] M' IH]; simpl; [constructor|].
  destruct (type_map.contains is_same_dec k0
              (type_map.cluster_impl is_same_dec M')) eqn:Hc.
  - rewrite keys_transform_at. exact IH.
  - rewrite keys_push_back.
    apply NoDup_app; [exact IH | repeat constructor; simpl; tauto |].
    intros k Hk [Heq|[]]. subst.
    apply (proj2 (map_contains_In is_same_dec _ _)) in Hk. congruence.
Qed.

(** Each cluster lists the mapped types of its key from the last pair of
    [M] to the first: a pair is appended to what the rest of the map has
    already gathered. *)
Lemma cluster_mapped_order (M : list (K * V)) (k : K) (vs : list V) :
  In (k, vs) (type_map.cluster_impl is_same_dec M) ->
  vs = rev (mapped_of k M).
Proof.
  revert k vs.
  induction M as [|[k0 v0] M' IH]; simpl; intros k vs Hin; [tauto|].
  rewrite mapped_of_cons.
  destruct (type_map.contains is_same_dec k0
              (type_map.cluster_impl is_same_dec M')) eqn:Hc.
  - unfold type_map.transform_at in Hin. apply in_map_iff in Hin.
    destruct Hin as ([k' ws] & Heq & Hin').
    unfold type_map.transform_at_pair, type_map.pair_transform in Heq.
    simpl in Heq.
    destruct (type_list_impl.is_same is_same_dec k0 k') eqn:E.
    + apply is_same_true in E. subst k'.
      inversion Heq; subst.
      assert (Hs : type_list_impl.is_same is_same_dec k k = true)
        by (apply is_same_true; reflexivity).
      rewrite Hs. simpl.
      rewrite (IH _ _ Hin'). reflexivity.
    + apply is_same_false in E. inversion Heq; subst.
      assert (Hs : type_list_impl.is_same is_same_dec k k0 = false)
        by (apply is_same_false; congruence).
      rewrite Hs. apply IH. exact Hin'.
  - unfold type_map.push_back in Hin. apply in_app_iff in Hin.
    assert (Hfresh : ~ In k0 (type_map.keys M')).
    { intros H. apply (proj2 (cluster_keys M' k0)) in H.
      apply (proj2 (map_contains_In is_same_dec _ _)) in H. congruence. }
    destruct Hin as [Hin|[Heq|[]]].
    + assert (Hs : type_list_impl.is_same is_same_dec k k0 = false).
      { apply is_same_false. intros ->. apply Hfresh, cluster_keys.
        unfold type_map.keys. apply in_map_iff. now exists (k0, vs). }
      rewrite Hs. apply IH. exact Hin.
    + inversion Heq; subst.
      assert (Hs : type_list_impl.is_same is_same_dec k k = true)
        by (apply is_same_true; reflexivity).
      rewrite Hs, (@mapped_of_absent k M' Hfresh). reflexivity.
Qed.

(** C7. [M::cluster<>] has every key of [M] exactly once and no other key,
    and maps each key to the list of the mapped types paired with it in
    [M], with their multiplicity. *)
Theorem cluster_groups_by_key (M : list (K * V)) :
  let C := type_map.cluster is_same_dec (fun k => k) (fun v => v) M in
  NoDup (type_map.keys C) /\
  (forall k, In k (type_map.keys C) <-> In k (type_map.keys M)) /\
  (forall k vs, In (k, vs) C -> Permutation vs (mapped_of k M)).
Proof.
  intros C. subst C. rewrite cluster_identity.
  split; [apply cluster_keys_NoDup|].
  split; [apply cluster_keys|].
  intros k vs Hin.
  rewrite (cluster_mapped_order _ _ _ Hin).
  symmetry. apply Permutation_rev.
Qed.

End Cluster.

(** ** [flatten] *)

Section FlattenFacts.

Context {A : Type}.

#[local] Abbreviation type := (type_list_impl.type A).
#[local] Abbreviation plain := (@type_list_impl.plain A).
#[local] Abbreviation type_list_of := (@type_list_impl.type_list_of A).

Definition is_type_list (t : type) : bool :=
  match t with
  | type_list_impl.plain _ => false
  | type_list_impl.type_list_of _ => true
  end.

(** The types met by a recursive iterator over the nested lists: depth
    first, left to right. *)
Fixpoint leaves (t : type) : list A :=
  match t with
  | type_list_impl.plain a => [a]
  | type_list_impl.type_list_of args =>
      (fix traverse (l : list type) : list A :=
         match l with
         | [] => []
         | u :: us => leaves u ++ traverse us
         end) args
  end.

Fixpoint traversal (args : list type) : list A :=
  match args with
  | [] => []
  | u :: us => leaves u ++ traversal us
  end.

(** How many [type_list]s are nested inside one another in a type. *)
Fixpoint nesting (t : type) : nat :=
  match t with
  | type_list_impl.plain _ => 0
  | type_list_impl.type_list_of args =>
      S ((fix deepest (l : list type) : nat :=
            match l with
            | [] => 0
            | u :: us => Nat.max (nesting u) (deepest us)
            end) args)
  end.

Fixpoint pack_nesting (args : list type) : nat :=
  match args with
  | [] => 0
  | u :: us => Nat.max (nesting u) (pack_nesting us)
  end.

Lemma leaves_list (args : list type) :
  leaves (type_list_of args) = traversal args.
Proof. reflexivity. Qed.

Lemma nesting_list (args : list type) :
  nesting (type_list_of args) = S (pack_nesting args).
Proof. reflexivity. Qed.

Lemma flat_pack (args : list type) :
  pack_nesting args = 0 -> args = map plain (traversal args).
Proof.
  induction args as [|[a|inner] us IH]; intros H.
  - reflexivity.
  - simpl in *. f_equal. apply IH. lia.
  - cbn [pack_nesting] in H. rewrite nesting_list in H. lia.
Qed.

Variable size_t_max : N.

Lemma flatten_at_max_depth (Depth : N) (args : list type) :
  type_list_impl.flatten size_t_max Depth Depth args = args.
Proof.
  destruct args as [|[a|inner] us]; simp flatten;
    try rewrite N.eqb_refl; reflexivity.
Qed.

Lemma flatten_below_max_depth (Depth : N) (args : list type) :
  (Depth + N.of_nat (pack_nesting args) <= size_t_max)%N ->
  type_list_impl.flatten size_t_max Depth size_t_max args
  = map plain (traversal args).
Proof.
  remember (type_list_impl.pack_size args) as n eqn:Hn.
  revert Depth args Hn.
  induction n as [n IH] using lt_wf_ind.
  intros Depth [|[a|inner] us] Hn Hdepth; simp flatten.
  - reflexivity.
  - destruct (Depth =? size_t_max)%N eqn:E.
    + apply N.eqb_eq in E. apply flat_pack. lia.
    + cbn [traversal leaves map app]. f_equal.
      apply (IH (type_list_impl.pack_size us)).
      * subst n. simpl. lia.
      * reflexivity.
      * cbn [pack_nesting] in Hdepth. lia.
  - cbn [pack_nesting] in Hdepth. rewrite nesting_list in Hdepth.
    assert (E : (Depth =? size_t_max)%N = false) by (apply N.eqb_neq; lia).
    rewrite E.
    cbn [traversal]. rewrite leaves_list, map_app.
    assert (Hsize : type_list_impl.pack_size (type_list_of inner :: us)
                    = S (type_list_impl.pack_size inner
                         + type_list_impl.pack_size us)) by reflexivity.
    f_equal.
    + apply (IH (type_list_impl.pack_size inner)).
      * lia.
      * reflexivity.
      * unfold type_list_impl.next_depth. rewrite E. lia.
    + apply (IH (type_list_impl.pack_size us)).
      * lia.
      * reflexivity.
      * lia.
Qed.

(** C6. [L::flatten<0>] is [L]; and [L::flatten<>], whose depth is the
    maximum of [std::size_t], has no [type_list] among its elements: they
    are the types met by the depth-first, left-to-right traversal of the
    nested lists, in that order.  A type whose lists are nested more than
    [SIZE_MAX] deep cannot be written; the embedding, whose lists are
    unbounded, says so. *)
Theorem flatten_zero_and_default (L : list type) :
  type_list.flatten size_t_max 0 L = L /\
  ((N.of_nat (pack_nesting L) <= size_t_max)%N ->
   type_list.flatten_default size_t_max L = map plain (traversal L) /\
   Forall (fun t => is_type_list t = false)
     (type_list.flatten_default size_t_max L)).
Proof.
  split; [apply flatten_at_max_depth|].
  intros Hdepth.
  assert (Hflat : type_list.flatten_default size_t_max L
                  = map plain (traversal L)).
  { unfold type_list.flatten_default, type_list.flatten.
    apply flatten_below_max_depth. lia. }
  split; [exact Hflat|].
  rewrite Hflat. apply Forall_forall.
  intros t Hin. apply in_map_iff in Hin.
  destruct Hin as (a & <- & _). reflexivity.
Qed.

End FlattenFacts.

(** The documentation's example, on a 64-bit [std::size_t]:
    [<int, <double, float, <<string>, <size_t, vector>, short>>, bool>],
    with the types numbered from 0 in the order in which they are
    written. *)
Definition flatten_example : list (type_list_impl.type nat) :=
  [ type_list_impl.plain 0;
    type_list_impl.type_list_of
      [ type_list_impl.plain 1;
        type_list_impl.plain 2;
        type_list_impl.type_list_of
          [ type_list_impl.type_list_of [type_list_impl.plain 3];
            type_list_impl.type_list_of
              [type_list_impl.plain 4; type_list_impl.plain 5];
            type_list_impl.plain 6 ] ];
    type_list_impl.plain 7 ].

Lemma flatten_zero_and_default_witness :
  (N.of_nat (pack_nesting flatten_example) <= 18446744073709551615)%N /\
  type_list.flatten 18446744073709551615 0 flatten_example = flatten_example /\
  type_list.flatten_default 18446744073709551615 flatten_example
  = map type_list_impl.plain [0; 1; 2; 3; 4; 5; 6; 7] /\
  Forall (fun t => is_type_list t = false)
    (type_list.flatten_default 18446744073709551615 flatten_example).
Proof.
  assert (H : (N.of_nat (pack_nesting flatten_example)
               <= 18446744073709551615)%N)
    by (vm_compute; discriminate).
  split; [exact H|].
  split.
  - exact (proj1 (@flatten_zero_and_default nat 18446744073709551615%N
                    flatten_example)).
  - exact (proj2 (@flatten_zero_and_default nat 18446744073709551615%N
                    flatten_example) H).
Defined.

(** ** [flag_set]: the range invariant *)

Section FlagSetInvariant.

Context {Flag : Type}.

Variable is_same_dec : forall x y : Flag, {x = y} + {x <> y}.

Variable flags_bits : nat -> nat.

Variable TFlags : list Flag.

#[local] Abbreviation n := (type_list.size TFlags).

(** The invariant bit by bit. *)
Definition clear_from (k : nat) (z : Z) : Prop :=
  forall i, (Z.of_nat k <= i)%Z -> Z.testbit z i = false.

Lemma clear_from_lnot (k : nat) (z : Z) :
  Z.land z (Z.lnot (2 ^ Z.of_nat k - 1)) = 0%Z <-> clear_from k z.
Proof.
  replace (2 ^ Z.of_nat k - 1)%Z with (Z.ones (Z.of_nat k))
    by (rewrite Z.ones_equiv; lia).
  unfold clear_from. split.
  - intros H i Hi.
    apply (f_equal (fun x => Z.testbit x i)) in H.
    rewrite Z.land_spec, Z.lnot_spec, Z.bits_0 in H by lia.
    rewrite Z.ones_spec_high in H by lia.
    simpl in H. rewrite andb_true_r in H. exact H.
  - intros H. apply Z.bits_inj'. intros i Hi.
    rewrite Z.land_spec, Z.lnot_spec, Z.bits_0 by lia.
    destruct (Z_lt_le_dec i (Z.of_nat k)) as [Hlt|Hge].
    + rewrite Z.ones_spec_low by lia. apply andb_false_r.
    + rewrite (H i Hge). reflexivity.
Qed.

(** The condition of the [assert]s of the class. *)
Lemma clear_from_range_mask (k : nat) (z : Z) :
  clear_from k z ->
  (Z.land z (flag_set.range_mask k) =? z)%Z = true.
Proof.
  intros H. apply Z.eqb_eq. unfold flag_set.range_mask.
  replace (2 ^ Z.of_nat k - 1)%Z with (Z.ones (Z.of_nat k))
    by (rewrite Z.ones_equiv; lia).
  apply Z.bits_inj'. intros i Hi.
  rewrite Z.land_spec.
  destruct (Z_lt_le_dec i (Z.of_nat k)) as [Hlt|Hge].
  - rewrite Z.ones_spec_low by lia. apply andb_true_r.
  - rewrite (H i Hge). reflexivity.
Qed.

Lemma clear_from_0 (k : nat) : clear_from k 0.
Proof. intros i _. apply Z.bits_0. Qed.

Lemma clear_from_lor (k : nat) (a b : Z) :
  clear_from k a -> clear_from k b -> clear_from k (Z.lor a b).
Proof.
  intros Ha Hb i Hi. rewrite Z.lor_spec, (Ha i Hi), (Hb i Hi). reflexivity.
Qed.

Lemma clear_from_bit (k bits idx : nat) :
  idx < k ->
  clear_from k (Z.shiftl 1 (Z.of_nat idx) mod 2 ^ Z.of_nat bits).
Proof.
  intros Hidx i Hi.
  rewrite Z.shiftl_1_l.
  destruct (Z_lt_le_dec i (Z.of_nat bits)) as [Hlt|Hge].
  - rewrite Z.mod_pow2_bits_low by lia.
    rewrite Z.pow2_bits_eqb by lia.
    apply Z.eqb_neq. lia.
  - apply Z.mod_pow2_bits_high. lia.
Qed.

(** An outcome is safe for [P] when it is not a failed assertion and, if
    it is a value, the value satisfies [P]. *)
Definition safe {X : Type} (P : X -> Prop) (m : flag_set.outcome X) : Prop :=
  match m with
  | flag_set.ok a => P a
  | flag_set.ill_formed => True
  | flag_set.assertion_failed => False
  end.

Lemma safe_and_then {X Y : Type} (P : X -> Prop) (Q : Y -> Prop)
  (m : flag_set.outcome X) (k : X -> flag_set.outcome Y) :
  safe P m -> (forall a, P a -> safe Q (k a)) ->
  safe Q (flag_set.and_then m k).
Proof.
  destruct m; simpl; intros Hm Hk; auto.
Qed.

Lemma safe_enable_if (c : bool) : safe (fun _ => True) (flag_set.enable_if c).
Proof. destruct c; exact I. Qed.

Lemma safe_weaken {X : Type} (P Q : X -> Prop) (m : flag_set.outcome X) :
  (forall a, P a -> Q a) -> safe P m -> safe Q m.
Proof.
  destruct m; simpl; auto.
Qed.

Lemma safe_assert_range (z : Z) :
  clear_from n z ->
  safe (fun _ => True)
    (flag_set.assert (Z.land z (flag_set.range_mask n) =? z)%Z).
Proof.
  intros H. rewrite (clear_from_range_mask H). exact I.
Qed.

Lemma safe_flag_mask (tag_list : list Flag) (IgnoreUnsupported : bool)
  (UFlag : Flag) :
  safe (clear_from (type_list.size tag_list))
    (flag_set.flag_mask is_same_dec flags_bits tag_list IgnoreUnsupported
       UFlag).
Proof.
  unfold flag_set.flag_mask.
  apply safe_and_then with (P := fun _ => True); [apply safe_enable_if|].
  intros _ _. simpl.
  destruct (type_list.index_of is_same_dec UFlag tag_list
            <? type_list.size tag_list) eqn:E.
  - apply Nat.ltb_lt in E. unfold flag_set.flags_type.
    apply clear_from_bit. exact E.
  - apply clear_from_0.
Qed.

Lemma safe_mask_for (tag_list : list Flag) (IgnoreUnsupported : bool)
  (UFlags : list Flag) :
  safe (clear_from (type_list.size tag_list))
    (flag_set.mask_for is_same_dec flags_bits tag_list IgnoreUnsupported
       UFlags).
Proof.
  induction UFlags as [|u us IH]; simpl.
  - apply clear_from_0.
  - apply safe_and_then with (P := clear_from (type_list.size tag_list));
      [apply safe_flag_mask|].
    intros m Hm.
    apply safe_and_then with (P := clear_from (type_list.size tag_list));
      [exact IH|].
    intros rest Hrest. simpl. apply clear_from_lor; assumption.
Qed.

(** The foreign set may hold anything: only the masks of this set reach
    [out]. *)
Lemma safe_is_set (tag_list UFlags : list Flag) (s : flag_set.t) :
  safe (fun _ => True)
    (flag_set.is_set is_same_dec flags_bits tag_list UFlags s).
Proof.
  unfold flag_set.is_set, flag_set.instantiate.
  apply safe_and_then with (P := fun _ => True); [apply safe_enable_if|].
  intros _ _.
  apply safe_and_then with (P := clear_from (type_list.size tag_list));
    [apply safe_mask_for|].
  intros mask _. exact I.
Qed.

Lemma safe_visit_each (UFlags : list Flag)
  (calls : list (indexed_type_tag Flag)) (foreign : flag_set.t) (out : Z) :
  clear_from n out ->
  safe (clear_from n)
    (flag_set.visit_each is_same_dec flags_bits TFlags UFlags calls foreign out).
Proof.
  revert out.
  induction calls as [|c cs IH]; intros out Hout; simpl; [exact Hout|].
  apply safe_and_then with (P := clear_from n); [|exact IH].
  unfold flag_set.visitor.
  apply safe_and_then with (P := fun _ => True); [apply safe_is_set|].
  intros b _.
  apply safe_and_then with (P := clear_from n); [apply safe_mask_for|].
  intros m Hm. simpl.
  destruct b; [apply clear_from_lor|]; assumption.
Qed.

Lemma safe_import (UFlags : list Flag) (foreign : flag_set.t) :
  safe (clear_from n)
    (flag_set.import is_same_dec flags_bits TFlags UFlags foreign).
Proof.
  unfold flag_set.import.
  apply safe_and_then with (P := clear_from n).
  - apply safe_visit_each, clear_from_0.
  - intros flags Hflags.
    apply safe_and_then with (P := fun _ => True);
      [apply safe_assert_range; exact Hflags|].
    intros _ _. exact Hflags.
Qed.

Definition is_constructor (o : flag_set.operation (Flag := Flag)) : bool :=
  match o with
  | flag_set.op_default_ctor
  | flag_set.op_variadic_ctor _
  | flag_set.op_foreign_ctor _ _ => true
  | _ => false
  end.

Lemma safe_run (o : flag_set.operation) (s : flag_set.t) :
  is_constructor o = true \/ clear_from n (flag_set.get s) ->
  safe (fun s' => clear_from n (flag_set.get s'))
    (flag_set.run is_same_dec flags_bits TFlags o s).
Proof.
  intros Hs.
  assert (Hinst : safe (fun _ => True)
                    (flag_set.instantiate flags_bits TFlags))
    by apply safe_enable_if.
  destruct o as [|UFlags|UFlags other|UFlags rhs|UFlags|UFlag condition
                 |UFlags|]; simpl in Hs;
    cbn [flag_set.run].
  - unfold flag_set.default_ctor.
    apply safe_and_then with (P := fun _ => True); [exact Hinst|]. intros _ _. apply clear_from_0.
  - unfold flag_set.variadic_ctor.
    apply safe_and_then with (P := fun _ => True); [exact Hinst|]. intros _ _.
    apply safe_and_then with (P := clear_from n); [apply safe_mask_for|].
    intros m Hm. exact Hm.
  - unfold flag_set.foreign_ctor.
    apply safe_and_then with (P := fun _ => True); [exact Hinst|]. intros _ _.
    apply safe_and_then with (P := clear_from n); [apply safe_import|].
    intros f Hf. exact Hf.
  - unfold flag_set.assign_foreign.
    apply safe_and_then with (P := fun _ => True); [exact Hinst|]. intros _ _.
    apply safe_and_then with (P := clear_from n); [apply safe_import|].
    intros f Hf. exact Hf.
  - destruct Hs as [Hs|Hs]; [discriminate|].
    unfold flag_set.set.
    apply safe_and_then with (P := fun _ => True); [exact Hinst|]. intros _ _.
    apply safe_and_then with (P := clear_from n); [apply safe_mask_for|].
    intros m Hm. cbv zeta.
    assert (Hf : clear_from n (Z.lor (flag_set.flags_ s) m))
      by (apply clear_from_lor; assumption).
    apply safe_and_then with (P := fun _ => True);
      [apply safe_assert_range; exact Hf|].
    intros _ _. exact Hf.
  - destruct Hs as [Hs|Hs]; [discriminate|].
    unfold flag_set.set_if.
    apply safe_and_then with (P := fun _ => True); [exact Hinst|]. intros _ _.
    apply safe_and_then with (P := clear_from n); [apply safe_mask_for|].
    intros _ _.
    destruct condition; [|exact Hs].
    unfold flag_set.set.
    apply safe_and_then with (P := fun _ => True); [exact Hinst|]. intros _ _.
    apply safe_and_then with (P := clear_from n); [apply safe_mask_for|].
    intros m Hm. cbv zeta.
    assert (Hf : clear_from n (Z.lor (flag_set.flags_ s) m))
      by (apply clear_from_lor; assumption).
    apply safe_and_then with (P := fun _ => True);
      [apply safe_assert_range; exact Hf|].
    intros _ _. exact Hf.
  - unfold flag_set.reset.
    apply safe_and_then with (P := fun _ => True); [exact Hinst|]. intros _ _.
    apply safe_and_then with (P := clear_from n); [apply safe_mask_for|].
    intros m Hm.
    apply safe_and_then with (P := fun _ => True);
      [apply safe_assert_range; exact Hm|].
    intros _ _. exact Hm.
  - unfold flag_set.clear.
    apply safe_and_then with (P := fun _ => True); [exact Hinst|]. intros _ _. apply clear_from_0.
Qed.

(** The sets that a program can hold: built by a constructor, then
    changed by any operations. *)
Inductive reachable : flag_set.t -> Prop :=
| reachable_built (o : flag_set.operation) (s s' : flag_set.t) :
    is_constructor o = true ->
    flag_set.run is_same_dec flags_bits TFlags o s = flag_set.ok s' ->
    reachable s'
| reachable_changed (o : flag_set.operation) (s s' : flag_set.t) :
    reachable s ->
    flag_set.run is_same_dec flags_bits TFlags o s = flag_set.ok s' ->
    reachable s'.

Lemma reachable_in_range (s : flag_set.t) :
  reachable s -> flag_set.in_range TFlags s.
Proof.
  intros Hr. apply clear_from_lnot.
  induction Hr as [o s s' Hc Hrun | o s s' _ IH Hrun].
  - pose proof (@safe_run o s (or_introl Hc)) as Hsafe.
    rewrite Hrun in Hsafe. exact Hsafe.
  - pose proof (@safe_run o s (or_intror IH)) as Hsafe.
    rewrite Hrun in Hsafe. exact Hsafe.
Qed.

(** C9. Every operation of a [flag_set] of [n] flags (default and variadic
    construction, construction and assignment from a foreign set, [set],
    [set_if], [reset], [clear]) leaves a set whose integral representation
    has no bit at position [n] or above, [get() & ~(2^n - 1) == 0]: the
    constructors establish it, the others keep it; and no [assert] of the
    class fails on the way. *)
Theorem operations_keep_flags_in_range
  (o : flag_set.operation) (s : flag_set.t) :
  is_constructor o = true \/ flag_set.in_range TFlags s ->
  flag_set.run is_same_dec flags_bits TFlags o s <> flag_set.assertion_failed /\
  forall s', flag_set.run is_same_dec flags_bits TFlags o s = flag_set.ok s' ->
             flag_set.in_range TFlags s'.
Proof.
  intros Hs.
  assert (Hsafe : safe (fun s' => clear_from n (flag_set.get s'))
                    (flag_set.run is_same_dec flags_bits TFlags o s)).
  { apply safe_run. destruct Hs as [Hs|Hs]; [now left | right].
    apply clear_from_lnot. exact Hs. }
  split.
  - intros E. rewrite E in Hsafe. exact Hsafe.
  - intros s' E. rewrite E in Hsafe.
    apply clear_from_lnot. exact Hsafe.
Qed.

End FlagSetInvariant.

(** A set of three flags in an eight-bit [flags_type]: setting the first
    and the third flag of the empty set yields [0b101]. *)
Lemma operations_keep_flags_in_range_witness :
  flag_set.in_range [1; 2; 3] (flag_set.mk 0) /\
  flag_set.run Nat.eq_dec (fun _ => 8) [1; 2; 3]
    (flag_set.op_set [1; 3]) (flag_set.mk 0)
  = flag_set.ok (flag_set.mk 5) /\
  flag_set.in_range [1; 2; 3] (flag_set.mk 5).
Proof.
  assert (H0 : flag_set.in_range [1; 2; 3] (flag_set.mk 0)) by reflexivity.
  split; [exact H0|].
  split; [reflexivity|].
  exact (proj2 (@operations_keep_flags_in_range nat Nat.eq_dec (fun _ => 8)
                  [1; 2; 3] (flag_set.op_set [1; 3]) (flag_set.mk 0)
                  (or_intror H0))
           (flag_set.mk 5) eq_refl).
Defined.

(** ** [merge] and [merge_sort] *)

Section MergeSort.

Context {T : Type}.

Variable TLessComparer : T -> T -> bool.

Variable NDEBUG : bool.

#[local] Abbreviation less := TLessComparer.
#[local] Abbreviation is_sorted := (type_list_impl.is_sorted TLessComparer).
#[local] Abbreviation merge := (type_list_impl.merge TLessComparer).

(** Two elements are equivalent when neither is less than the other. *)
Definition equivalent (x y : T) : bool :=
  negb (less x y) && negb (less y x).

(** A less-comparer is a total order on the elements of [L] when "not
    greater than", [x <= y] for [less y x = false], is total and transitive
    there.  Elements may be equivalent without being the same, which is
    what gives stability a meaning. *)
Definition total_order_on (L : list T) : Prop :=
  (forall x y, In x L -> In y L -> less x y = true -> less y x = false) /\
  (forall x y z, In x L -> In y L -> In z L ->
     less y x = false -> less z y = false -> less z x = false).

(** Every strict total order is one. *)
Lemma strict_total_order_on (L : list T) :
  (forall x, In x L -> less x x = false) ->
  (forall x y z, In x L -> In y L -> In z L ->
     less x y = true -> less y z = true -> less x z = true) ->
  (forall x y, In x L -> In y L ->
     less x y = true \/ x = y \/ less y x = true) ->
  total_order_on L.
Proof.
  intros Hirr Htrans Htri.
  assert (Hasym : forall x y, In x L -> In y L ->
                    less x y = true -> less y x = false).
  { intros x y Hx Hy Hxy.
    destruct (less y x) eqn:Hyx; [|reflexivity].
    rewrite <- (Hirr x Hx). symmetry. apply (Htrans x y x); assumption. }
  split; [exact Hasym|].
  intros x y z Hx Hy Hz Hyx Hzy.
  destruct (Htri x y Hx Hy) as [Hxy|[Hxy|Hxy]];
    destruct (Htri y z Hy Hz) as [Hyz|[Hyz|Hyz]]; subst; try congruence.
  apply Hasym; try assumption. apply (Htrans x y z); assumption.
Qed.

Lemma is_sorted_cons (x : T) (l : list T) :
  is_sorted (x :: l) = true <->
  (forall y, hd_error l = Some y -> less y x = false) /\ is_sorted l = true.
Proof.
  destruct l as [|y l']; cbn [type_list_impl.is_sorted hd_error].
  - split; [intros _; split; [discriminate | reflexivity] | reflexivity].
  - rewrite andb_true_iff, negb_true_iff. split.
    + intros [H1 H2]. split; [|exact H2]. intros y' Hy'. congruence.
    + intros [H1 H2]. split; [|exact H2]. apply H1. reflexivity.
Qed.

Lemma merge_permutation (rhs lhs : list T) :
  Permutation (lhs ++ rhs) (merge rhs lhs).
Proof.
  funelim (merge rhs lhs).
  - constructor.
  - rewrite app_nil_r. reflexivity.
  - reflexivity.
  - symmetry. apply Permutation_cons_app. symmetry. assumption.
  - simpl. constructor. assumption.
Qed.

Lemma merge_head (rhs lhs : list T) (y : T) :
  hd_error (merge rhs lhs) = Some y ->
  hd_error rhs = Some y \/ hd_error lhs = Some y.
Proof.
  funelim (merge rhs lhs); simpl; auto.
Qed.

Section OnAList.

Variable L : list T.

Hypothesis Horder : total_order_on L.

Lemma merge_sorted (rhs lhs : list T) :
  incl rhs L -> incl lhs L ->
  is_sorted rhs = true -> is_sorted lhs = true ->
  is_sorted (merge rhs lhs) = true.
Proof.
  destruct Horder as [Hasym _].
  funelim (merge rhs lhs); intros Hr Hl Sr Sl; try assumption.
  - apply is_sorted_cons. apply is_sorted_cons in Sr.
    destruct Sr as [Hhead Srt]. split.
    + intros y Hy. apply merge_head in Hy.
      destruct Hy as [Hy|Hy]; [apply Hhead; exact Hy|].
      simpl in Hy. inversion Hy; subst.
      apply Hasym; [apply Hr | apply Hl | assumption]; now left.
    + apply H; try assumption.
      intros z Hz. apply Hr. now right.
  - apply is_sorted_cons. apply is_sorted_cons in Sl.
    destruct Sl as [Hhead Slt]. split.
    + intros y Hy. apply merge_head in Hy.
      destruct Hy as [Hy|Hy]; [|apply Hhead; exact Hy].
      simpl in Hy. inversion Hy; subst. assumption.
    + apply H; try assumption.
      intros z Hz. apply Hl. now right.
Qed.

(** In a sorted list nothing is less than the head. *)
Lemma sorted_above (x : T) (l : list T) :
  incl (x :: l) L -> is_sorted (x :: l) = true ->
  forall y, In y l -> less y x = false.
Proof.
  destruct Horder as [_ Htrans].
  revert x.
  induction l as [|y0 l' IH]; intros x Hin Hs y Hy; [contradiction|].
  apply is_sorted_cons in Hs. destruct Hs as [Hhead Hs'].
  assert (H0 : less y0 x = false) by (apply Hhead; reflexivity).
  destruct Hy as [->|Hy]; [exact H0|].
  assert (Hy0 : less y y0 = false).
  { apply IH; try assumption. intros z Hz. apply Hin. now right. }
  apply (Htrans x y0 y); try assumption; apply Hin; simpl; auto.
Qed.

Lemma filter_step (f : T -> bool) (a : T) (l : list T) :
  List.filter f (a :: l) = if f a then a :: List.filter f l else List.filter f l.
Proof. reflexivity. Qed.

Lemma filter_none (f : T -> bool) (l : list T) :
  (forall y, In y l -> f y = false) -> List.filter f l = [].
Proof.
  induction l as [|y l' IH]; intros H; [reflexivity|].
  simpl. rewrite (H y) by now left.
  apply IH. intros z Hz. apply H. now right.
Qed.

(** Elements equivalent to [x] are taken from the left-hand pack before
    those of the right-hand list. *)
Lemma merge_stable (x : T) (rhs lhs : list T) :
  In x L -> incl rhs L -> incl lhs L ->
  is_sorted rhs = true -> is_sorted lhs = true ->
  List.filter (equivalent x) (merge rhs lhs)
  = List.filter (equivalent x) lhs ++ List.filter (equivalent x) rhs.
Proof.
  funelim (merge rhs lhs); intros Hx Hr Hl Sr Sl;
    destruct Horder as [Hasym Htrans].
  - reflexivity.
  - rewrite app_nil_r. reflexivity.
  - reflexivity.
  - assert (Hrt : incl rtail L) by (intros z Hz; apply Hr; now right).
    assert (Srt : is_sorted rtail = true)
      by (apply is_sorted_cons in Sr; tauto).
    rewrite !(filter_step (equivalent x) rhs), (H x Hx Hrt Hl Srt Sl).
    destruct (equivalent x rhs) eqn:E; [|reflexivity].
    assert (Hnone : List.filter (equivalent x) (l :: largs) = []).
    { apply filter_none. intros y Hy.
      assert (Hrhs : In rhs L) by (apply Hr; now left).
      assert (Hl0 : In l L) by (apply Hl; now left).
      assert (HyL : In y L) by (apply Hl; exact Hy).
      assert (Hly : less y l = false).
      { destruct Hy as [->|Hy].
        - destruct (less y y) eqn:Eyy; [|reflexivity].
          pose proof (Hasym y y HyL HyL Eyy). congruence.
        - apply (sorted_above Hl Sl). exact Hy. }
      assert (Hlt : less rhs y = true).
      { destruct (less rhs y) eqn:Er; [reflexivity|].
        rewrite <- Heq. symmetry.
        apply (Htrans l y rhs); assumption. }
      destruct (equivalent x y) eqn:Exy; [exfalso | reflexivity].
      unfold equivalent in *.
      apply andb_true_iff in E. destruct E as [E1 E2].
      apply andb_true_iff in Exy. destruct Exy as [Exy Eyx].
      apply negb_true_iff in E1, E2, Exy, Eyx.
      pose proof (Htrans y x rhs HyL Hx Hrhs Exy E2). congruence. }
    rewrite Hnone. reflexivity.
  - assert (Hlt : incl largs L) by (intros z Hz; apply Hl; now right).
    assert (Slt : is_sorted largs = true)
      by (apply is_sorted_cons in Sl; tauto).
    rewrite !(filter_step (equivalent x) l), (H x Hx Hr Hlt Sr Slt).
    destruct (equivalent x l); reflexivity.
Qed.

End OnAList.

Lemma merge_sort_unfold (t u : T) (rest : list T) :
  type_list_impl.merge_sort TLessComparer NDEBUG (t :: u :: rest)
  = match type_list_impl.split (length (t :: u :: rest) / 2)
            (t :: u :: rest) with
    | Some (first, second) =>
        sorted_left <- type_list_impl.merge_sort TLessComparer NDEBUG first ;;
        sorted_right <- type_list_impl.merge_sort TLessComparer NDEBUG second ;;
        type_list_impl.merge_entry_point TLessComparer NDEBUG
          sorted_right sorted_left
    | None => None
    end.
Proof.
  simp merge_sort.
  destruct (inspect (type_list_impl.split (length (t :: u :: rest) / 2)
                       (t :: u :: rest))) as [[[first second]|] e];
    simp merge_sort; rewrite e; reflexivity.
Qed.

(** What [merge_sort] does to a list whose elements are all in [L]. *)
Definition sorts_stably (L l : list T) : Prop :=
  exists S,
    type_list.merge_sort TLessComparer NDEBUG l = Some S /\
    type_list.is_sorted TLessComparer S = true /\
    Permutation l S /\
    forall x, In x L ->
      List.filter (equivalent x) S = List.filter (equivalent x) l.

Lemma merge_sort_on (L : list T) (Horder : total_order_on L) (l : list T) :
  incl l L -> sorts_stably L l.
Proof.
  remember (length l) as k eqn:Hk. revert l Hk.
  induction k as [k IH] using lt_wf_ind.
  intros l Hk Hincl.
  unfold sorts_stably, type_list.merge_sort, type_list.is_sorted.
  destruct l as [|t [|u rest]].
  - exists []. simp merge_sort. repeat split; auto.
  - exists [t]. simp merge_sort. repeat split; auto.
  - rewrite merge_sort_unfold.
    remember (t :: u :: rest) as l eqn:El.
    assert (Hlen : 2 <= length l) by (subst l; simpl; lia).
    clear El.
    pose proof (type_list_impl.half_bounds Hlen) as Hhalf.
    rewrite type_list_impl.split_spec by lia.
    set (first := firstn (length l / 2) l).
    set (second := skipn (length l / 2) l).
    assert (Hl : l = first ++ second)
      by (symmetry; apply firstn_skipn).
    assert (Hf : incl first L).
    { intros z Hz. apply Hincl. rewrite Hl. apply in_or_app. now left. }
    assert (Hs : incl second L).
    { intros z Hz. apply Hincl. rewrite Hl. apply in_or_app. now right. }
    destruct (IH (length first)) with (l := first)
      as (sl & Esl & Ssl & Psl & Fsl);
      [subst first; rewrite length_firstn; lia | reflexivity | exact Hf |].
    destruct (IH (length second)) with (l := second)
      as (sr & Esr & Ssr & Psr & Fsr);
      [subst second; rewrite length_skipn; lia | reflexivity | exact Hs |].
    unfold type_list.merge_sort, type_list.is_sorted in *.
    rewrite Esl, Esr. simpl.
    unfold type_list_impl.merge_entry_point.
    rewrite Ssl, Ssr, !orb_true_r. simpl.
    assert (Hsl : incl sl L).
    { intros z Hz. apply Hf. apply Permutation_in with sl; [|exact Hz].
      symmetry. exact Psl. }
    assert (Hsr : incl sr L).
    { intros z Hz. apply Hs. apply Permutation_in with sr; [|exact Hz].
      symmetry. exact Psr. }
    exists (merge sr sl). split; [reflexivity|].
    split; [apply (merge_sorted Horder); assumption|].
    split.
    + rewrite Hl, <- merge_permutation.
      apply Permutation_app; assumption.
    + intros x Hx.
      rewrite (merge_stable Horder x Hx Hsr Hsl Ssr Ssl).
      rewrite (Fsl x Hx), (Fsr x Hx), Hl, filter_app. reflexivity.
Qed.

(** C1. For a less-comparer that is a total order on the elements of [L],
    [L::merge_sort<C>] is a list that is sorted for [C]
    ([is_sorted<C>] holds), that is a permutation of [L], and in which the
    elements of [L] that are equivalent for [C] keep the order they have
    in [L]: the sort is stable. *)
Theorem merge_sort_sorts_stably (L : list T) :
  total_order_on L ->
  exists S,
    type_list.merge_sort TLessComparer NDEBUG L = Some S /\
    type_list.is_sorted TLessComparer S = true /\
    Permutation L S /\
    forall x, In x L ->
      List.filter (equivalent x) S = List.filter (equivalent x) L.
Proof.
  intros Horder.
  apply (merge_sort_on Horder). apply incl_refl.
Qed.

End MergeSort.

(** Pairs of a key and a tag, compared by key: pairs with the same key are
    equivalent and not the same. *)
Definition by_key (p q : nat * nat) : bool := fst p <? fst q.

Definition keyed_example : list (nat * nat) :=
  [(2, 0); (1, 0); (2, 1); (0, 0); (1, 1)].

Lemma by_key_total_order (L : list (nat * nat)) : total_order_on by_key L.
Proof.
  unfold by_key. split.
  - intros x y _ _ H. apply Nat.ltb_lt in H. apply Nat.ltb_ge. lia.
  - intros x y z _ _ _ H1 H2.
    apply Nat.ltb_ge in H1, H2. apply Nat.ltb_ge. lia.
Qed.

Example merge_sort_keyed_example :
  type_list.merge_sort by_key false keyed_example
  = Some [(0, 0); (1, 0); (1, 1); (2, 0); (2, 1)].
Proof. reflexivity. Qed.

(** Without an order there is nothing to expect: with a comparer that
    always answers yes, the result of sorting [<1, 2>] does not pass
    [is_sorted]. *)
Example merge_sort_needs_an_order :
  type_list.merge_sort (fun _ _ : nat => true) false [1; 2] = Some [2; 1] /\
  type_list.is_sorted (fun _ _ : nat => true) [2; 1] = false.
Proof. split; reflexivity. Qed.

Lemma merge_sort_sorts_stably_witness :
  total_order_on by_key keyed_example /\
  exists S,
    type_list.merge_sort by_key false keyed_example = Some S /\
    type_list.is_sorted by_key S = true /\
    Permutation keyed_example S /\
    forall x, In x keyed_example ->
      List.filter (equivalent by_key x) S
      = List.filter (equivalent by_key x) keyed_example.
Proof.
  split.
  - apply by_key_total_order.
  - exact (@merge_sort_sorts_stably (nat * nat) by_key false keyed_example
             (by_key_total_order keyed_example)).
Defined.

(** ** [binary_search] *)

Section BinarySearchFacts.

Context {T Needle VArgs : Type}.

Variable compare : Needle -> indexed_type_tag T -> Z.

Variable needle : Needle.

Variable args : VArgs.

#[local] Abbreviation tag := (@mk_indexed_type_tag T).
#[local] Abbreviation call :=
  (type_list_impl.call_visitor (T := T) needle args).
#[local] Abbreviation search_exact :=
  (type_list_impl.binary_search_exact compare needle args).
#[local] Abbreviation recursion :=
  (type_list_impl.lower_bound_recursion compare needle args).

(** A list is sorted with respect to the comparer, as far as a needle can
    tell, when the comparisons of the needle with its elements, taken from
    left to right, never go up in sign: first the elements below the
    needle (positive), then those equal to it (zero), then those above it
    (negative).  [Offset] is the position of the first element. *)
Definition sorted_from (Offset : nat) (l : list T) : Prop :=
  forall i j x y, i < j ->
    nth_error l i = Some x -> nth_error l j = Some y ->
    (Z.sgn (compare needle (tag y (Offset + j)))
     <= Z.sgn (compare needle (tag x (Offset + i))))%Z.

Definition sorted_for (L : list T) : Prop := sorted_from 0 L.

(** The same, as a check that runs. *)
Fixpoint comparisons (Offset : nat) (l : list T) : list Z :=
  match l with
  | [] => []
  | x :: l' =>
      Z.sgn (compare needle (tag x Offset)) :: comparisons (S Offset) l'
  end.

Fixpoint non_increasing (s : list Z) : bool :=
  match s with
  | a :: (b :: _) as s' => (b <=? a)%Z && non_increasing s'
  | _ => true
  end.

Definition sorted_forb (L : list T) : bool :=
  non_increasing (comparisons 0 L).

Lemma non_increasing_head (a : Z) (s : list Z) :
  non_increasing (a :: s) = true ->
  non_increasing s = true /\ forall b, In b s -> (b <= a)%Z.
Proof.
  revert a.
  induction s as [|b s' IH]; intros a H.
  - split; [reflexivity | contradiction].
  - cbn [non_increasing] in H. apply andb_true_iff in H.
    destruct H as [Hba Hs]. apply Z.leb_le in Hba.
    split; [exact Hs|].
    intros c [<-|Hc]; [exact Hba|].
    destruct (IH b Hs) as [_ Hall]. specialize (Hall c Hc). lia.
Qed.

Lemma comparisons_nth (Offset : nat) (l : list T) (i : nat) (x : T) :
  nth_error l i = Some x ->
  nth_error (comparisons Offset l) i
  = Some (Z.sgn (compare needle (tag x (Offset + i)))).
Proof.
  revert Offset i.
  induction l as [|a l' IH]; intros Offset [|i] H; simpl in *;
    try discriminate.
  - inversion H; subst. rewrite Nat.add_0_r. reflexivity.
  - rewrite (IH (S Offset) i H).
    replace (S Offset + i) with (Offset + S i) by lia. reflexivity.
Qed.

Lemma non_increasing_sorted_from (Offset : nat) (l : list T) :
  non_increasing (comparisons Offset l) = true -> sorted_from Offset l.
Proof.
  revert Offset.
  induction l as [|a l' IH]; intros Offset H i j x y Hij Hi Hj.
  - destruct i; discriminate.
  - cbn [comparisons] in H. apply non_increasing_head in H.
    destruct H as [Hrest Hhead].
    destruct j as [|j]; [lia|]. simpl in Hj.
    destruct i as [|i]; simpl in Hi.
    + inversion Hi; subst. rewrite Nat.add_0_r.
      apply Hhead.
      apply (nth_error_In _ j).
      rewrite (comparisons_nth (S Offset) l' j Hj).
      replace (S Offset + j) with (Offset + S j) by lia. reflexivity.
    + replace (Offset + S j) with (S Offset + j) by lia.
      replace (Offset + S i) with (S Offset + i) by lia.
      apply (IH (S Offset) Hrest i j); [lia | assumption | assumption].
Qed.

Lemma sorted_forb_sound (L : list T) :
  sorted_forb L = true -> sorted_for L.
Proof. apply non_increasing_sorted_from. Qed.

(** Sortedness passes to both sides of a split. *)
Lemma sorted_from_firstn (Offset h : nat) (l : list T) :
  sorted_from Offset l -> sorted_from Offset (firstn h l).
Proof.
  intros H i j x y Hij Hi Hj.
  assert (Hjh : j < h).
  { destruct (Nat.lt_ge_cases j h) as [Hlt|Hge]; [exact Hlt|].
    rewrite nth_error_firstn in Hj.
    destruct (j <? h) eqn:E; [apply Nat.ltb_lt in E; lia | discriminate]. }
  rewrite nth_error_firstn in Hi, Hj.
  replace (i <? h) with true in Hi by (symmetry; apply Nat.ltb_lt; lia).
  replace (j <? h) with true in Hj by (symmetry; apply Nat.ltb_lt; lia).
  apply (H i j); assumption.
Qed.

Lemma sorted_from_skipn (Offset h : nat) (l : list T) :
  sorted_from Offset l -> sorted_from (Offset + h) (skipn h l).
Proof.
  intros H i j x y Hij Hi Hj.
  rewrite nth_error_skipn in Hi, Hj.
  replace (Offset + h + j) with (Offset + (h + j)) by lia.
  replace (Offset + h + i) with (Offset + (h + i)) by lia.
  apply (H (h + i) (h + j)); [lia | assumption | assumption].
Qed.

Lemma exact_unfold (a : T) (rest : list T) (Offset : nat) :
  search_exact (a :: rest) Offset
  = match type_list_impl.split (length (a :: rest) / 2) (a :: rest) with
    | Some (left_, pivot :: right_) =>
        let comparison := compare needle (tag pivot (Offset + length left_)) in
        if (comparison <? 0)%Z
        then search_exact left_ Offset
        else if (0 <? comparison)%Z
        then search_exact right_ (Offset + length left_ + 1)
        else Some (true, [call pivot (Offset + length left_)])
    | Some (_, []) => None
    | None => None
    end.
Proof.
  simp binary_search_exact.
  destruct (inspect (type_list_impl.split (length (a :: rest) / 2)
                       (a :: rest))) as [[[left_ [|pivot right_]]|] e];
    simp binary_search_exact; rewrite e; reflexivity.
Qed.

Lemma recursion_unfold (a b : T) (rest : list T) (Offset : nat) :
  recursion (a :: b :: rest) Offset
  = match type_list_impl.split (length (a :: b :: rest) / 2)
            (a :: b :: rest) with
    | Some (left_, pivot :: right_) =>
        if (compare needle (tag pivot (Offset + length left_)) <? 0)%Z
        then recursion left_ Offset
        else recursion (pivot :: right_) (Offset + length left_)
    | Some (_, []) => None
    | None => None
    end.
Proof.
  simp lower_bound_recursion.
  destruct (inspect (type_list_impl.split (length (a :: b :: rest) / 2)
                       (a :: b :: rest))) as [[[left_ [|pivot right_]]|] e];
    simp lower_bound_recursion; rewrite e; reflexivity.
Qed.

Lemma sgn_below (c d : Z) : (c < 0)%Z -> (Z.sgn d <= Z.sgn c)%Z -> (d < 0)%Z.
Proof. destruct c, d; simpl; lia. Qed.

Lemma sgn_above (c d : Z) : (0 < c)%Z -> (Z.sgn c <= Z.sgn d)%Z -> (0 < d)%Z.
Proof. destruct c, d; simpl; lia. Qed.

Lemma sgn_not_below (c d : Z) :
  (0 <= c)%Z -> (Z.sgn c <= Z.sgn d)%Z -> (0 <= d)%Z.
Proof. destruct c, d; simpl; lia. Qed.

Lemma skipn_pivot (h : nat) (l : list T) (pivot : T) (right_ : list T) :
  skipn h l = pivot :: right_ ->
  nth_error l h = Some pivot /\ skipn (S h) l = right_ /\ h < length l.
Proof.
  intros E. split; [|split].
  - rewrite <- (Nat.add_0_r h), <- nth_error_skipn, E. reflexivity.
  - change (S h) with (1 + h). rewrite <- skipn_skipn, E. reflexivity.
  - apply (f_equal (@length T)) in E. rewrite length_skipn in E.
    simpl in E. lia.
Qed.

(** [binary_search_exact] on a part of the list that starts at position
    [Offset]. *)
Lemma exact_window (l : list T) (Offset : nat) :
  exists b calls,
    search_exact l Offset = Some (b, calls) /\
    (b = true ->
     exists i x, nth_error l i = Some x /\
                 compare needle (tag x (Offset + i)) = 0%Z /\
                 calls = [call x (Offset + i)]) /\
    (b = false ->
     calls = [] /\
     (sorted_from Offset l ->
      forall i x, nth_error l i = Some x ->
                  compare needle (tag x (Offset + i)) <> 0%Z)).
Proof.
  remember (length l) as k eqn:Hk. revert l Offset Hk.
  induction k as [k IH] using lt_wf_ind.
  intros [|a rest] Offset Hk.
  - simp binary_search_exact. exists false, [].
    split; [reflexivity|]. split; [discriminate|].
    intros _. split; [reflexivity|].
    intros _ [|i] x Hi; discriminate.
  - rewrite exact_unfold.
    remember (a :: rest) as l eqn:El.
    assert (Hlen : 1 <= length l) by (subst l; simpl; lia).
    clear El a rest.
    assert (Hh : length l / 2 < length l) by (apply Nat.div_lt; lia).
    set (h := length l / 2) in *.
    rewrite type_list_impl.split_spec by lia.
    destruct (skipn h l) as [|pivot right_] eqn:Esk.
    { apply (f_equal (@length T)) in Esk. rewrite length_skipn in Esk.
      simpl in Esk. lia. }
    destruct (skipn_pivot _ _ Esk) as (Hpivot & Hright & _).
    rewrite length_firstn, Nat.min_l by lia. cbv zeta.
    destruct (compare needle (tag pivot (Offset + h)) <? 0)%Z eqn:Eneg;
      [|destruct (0 <? compare needle (tag pivot (Offset + h)))%Z eqn:Epos].
    + apply Z.ltb_lt in Eneg.
      destruct (IH (length (firstn h l))) with (l := firstn h l)
                                               (Offset := Offset)
        as (b & calls & Hrun & Htrue & Hfalse);
        [rewrite length_firstn; lia | reflexivity |].
      exists b, calls. split; [exact Hrun|]. split.
      * intros Hb. destruct (Htrue Hb) as (i & x & Hi & Hc & Hcalls).
        exists i, x. split; [|split; assumption].
        rewrite nth_error_firstn in Hi.
        destruct (i <? h); [exact Hi | discriminate].
      * intros Hb. destruct (Hfalse Hb) as [Hcalls Hnone].
        split; [exact Hcalls|].
        intros Hsorted i x Hi.
        destruct (Nat.lt_ge_cases i h) as [Hlt|Hge].
        -- apply Hnone; [apply sorted_from_firstn; exact Hsorted|].
           rewrite nth_error_firstn.
           replace (i <? h) with true by (symmetry; apply Nat.ltb_lt; lia).
           exact Hi.
        -- assert (Hx : (compare needle (tag x (Offset + i)) < 0)%Z).
           { destruct (Nat.eq_dec i h) as [->|Hne].
             - congruence.
             - eapply sgn_below; [exact Eneg|].
               apply (Hsorted h i); [lia | assumption | assumption]. }
           lia.
    + apply Z.ltb_lt in Epos.
      destruct (IH (length right_)) with (l := right_)
                                         (Offset := Offset + h + 1)
        as (b & calls & Hrun & Htrue & Hfalse);
        [subst right_; rewrite length_skipn; lia | reflexivity |].
      exists b, calls. split; [exact Hrun|]. split.
      * intros Hb. destruct (Htrue Hb) as (i & x & Hi & Hc & Hcalls).
        exists (S h + i), x.
        replace (Offset + (S h + i)) with (Offset + h + 1 + i) by lia.
        split; [|split; assumption].
        rewrite <- nth_error_skipn, Hright. exact Hi.
      * intros Hb. destruct (Hfalse Hb) as [Hcalls Hnone].
        split; [exact Hcalls|].
        intros Hsorted i x Hi.
        destruct (Nat.lt_ge_cases h i) as [Hlt|Hge].
        -- replace i with (S h + (i - S h)) in * by lia.
           replace (Offset + (S h + (i - S h)))
             with (Offset + h + 1 + (i - S h)) by lia.
           apply Hnone.
           ++ replace (Offset + h + 1) with (Offset + S h) by lia.
              rewrite <- Hright. apply sorted_from_skipn. exact Hsorted.
           ++ rewrite <- Hright, nth_error_skipn. exact Hi.
        -- assert (Hx : (0 < compare needle (tag x (Offset + i)))%Z).
           { destruct (Nat.eq_dec i h) as [->|Hne].
             - congruence.
             - eapply sgn_above; [exact Epos|].
               apply (Hsorted i h); [lia | assumption | assumption]. }
           lia.
    + apply Z.ltb_ge in Eneg, Epos.
      exists true, [call pivot (Offset + h)].
      split; [reflexivity|]. split; [|discriminate].
      intros _. exists h, pivot.
      split; [exact Hpivot|]. split; [lia | reflexivity].
Qed.

(** C2. On a list sorted with respect to the comparer,
    [binary_search<TComparer>::exact(needle, visitor, args...)] returns
    [true] exactly when some element of the list compares equal to the
    needle; it then calls the visitor once, with the element, its position
    in the list, the needle and the arguments; when it returns [false] it
    does not call the visitor. *)
Theorem exact_finds_equal_element (L : list T) :
  sorted_for L ->
  exists b calls,
    type_list.exact compare L needle args = Some (b, calls) /\
    (b = true <->
     exists i x, nth_error L i = Some x /\
                 compare needle (tag x i) = 0%Z) /\
    (b = true ->
     exists i x, nth_error L i = Some x /\
                 compare needle (tag x i) = 0%Z /\
                 calls = [mk_visit (tag x i) needle args]) /\
    (b = false -> calls = []).
Proof.
  intros Hsorted.
  destruct (exact_window L 0) as (b & calls & Hrun & Htrue & Hfalse).
  exists b, calls. split; [exact Hrun|].
  split; [|split].
  - split.
    + intros Hb. destruct (Htrue Hb) as (i & x & Hi & Hc & _).
      exists i, x. split; assumption.
    + intros (i & x & Hi & Hc).
      destruct b; [reflexivity|].
      destruct (Hfalse eq_refl) as [_ Hnone].
      exfalso. apply (Hnone Hsorted i x Hi). exact Hc.
  - exact Htrue.
  - intros Hb. apply (Hfalse Hb).
Qed.

(** [recursion] on a part of the list that starts at position [Offset]:
    always one call, on the last element that is not above the needle. *)
Lemma recursion_window (l : list T) (Offset : nat) :
  l <> [] ->
  exists i x,
    recursion l Offset = Some (true, [call x (Offset + i)]) /\
    nth_error l i = Some x /\
    (sorted_from Offset l ->
     (forall first, hd_error l = Some first ->
                    (0 <= compare needle (tag first Offset))%Z) ->
     (0 <= compare needle (tag x (Offset + i)))%Z /\
     forall j y, i < j -> nth_error l j = Some y ->
                 (compare needle (tag y (Offset + j)) < 0)%Z).
Proof.
  remember (length l) as k eqn:Hk. revert l Offset Hk.
  induction k as [k IH] using lt_wf_ind.
  intros [|a [|b rest]] Offset Hk Hne; [congruence | |].
  - simp lower_bound_recursion. exists 0, a.
    rewrite Nat.add_0_r.
    split; [reflexivity|]. split; [reflexivity|].
    intros _ Hfirst. split; [apply Hfirst; reflexivity|].
    intros [|[|j]] y Hj Hy; try lia; discriminate.
  - rewrite recursion_unfold.
    remember (a :: b :: rest) as l eqn:El.
    assert (Hlen : 2 <= length l) by (subst l; simpl; lia).
    assert (Hhd : hd_error l = Some a) by (subst l; reflexivity).
    clear El b rest Hne.
    pose proof (type_list_impl.half_bounds Hlen) as Hh.
    set (h := length l / 2) in *.
    rewrite type_list_impl.split_spec by lia.
    destruct (skipn h l) as [|pivot right_] eqn:Esk.
    { apply (f_equal (@length T)) in Esk. rewrite length_skipn in Esk.
      simpl in Esk. lia. }
    destruct (skipn_pivot _ _ Esk) as (Hpivot & Hright & _).
    rewrite length_firstn, Nat.min_l by lia.
    destruct (compare needle (tag pivot (Offset + h)) <? 0)%Z eqn:Eneg.
    + apply Z.ltb_lt in Eneg.
      destruct (IH (length (firstn h l))) with (l := firstn h l)
                                               (Offset := Offset)
        as (i & x & Hrun & Hi & Hlast).
      * rewrite length_firstn. lia.
      * reflexivity.
      * intros E. apply (f_equal (@length T)) in E.
        rewrite length_firstn in E. simpl in E. lia.
      * rewrite nth_error_firstn in Hi.
        destruct (i <? h) eqn:Eih; [|discriminate].
        apply Nat.ltb_lt in Eih.
        exists i, x. split; [exact Hrun|]. split; [exact Hi|].
        intros Hsorted Hfirst.
        destruct Hlast as [Hx Hafter].
        -- apply sorted_from_firstn. exact Hsorted.
        -- intros first Hf. apply Hfirst.
           destruct l as [|a' l']; [discriminate|].
           destruct h; [lia|]. exact Hf.
        -- split; [exact Hx|].
           intros j y Hij Hy.
           destruct (Nat.lt_ge_cases j h) as [Hlt|Hge].
           ++ apply Hafter; [exact Hij|].
              rewrite nth_error_firstn.
              replace (j <? h) with true
                by (symmetry; apply Nat.ltb_lt; lia).
              exact Hy.
           ++ destruct (Nat.eq_dec j h) as [->|Hjh].
              ** congruence.
              ** eapply sgn_below; [exact Eneg|].
                 apply (Hsorted h j); [lia | assumption | assumption].
    + apply Z.ltb_ge in Eneg.
      destruct (IH (length (pivot :: right_))) with (l := pivot :: right_)
                                                    (Offset := Offset + h)
        as (i & x & Hrun & Hi & Hlast).
      * rewrite <- Esk, length_skipn. lia.
      * reflexivity.
      * discriminate.
      * exists (h + i), x.
        replace (Offset + (h + i)) with (Offset + h + i) by lia.
        split; [exact Hrun|].
        split; [rewrite <- nth_error_skipn, Esk; exact Hi|].
        intros Hsorted Hfirst.
        destruct Hlast as [Hx Hafter].
        -- rewrite <- Esk. apply sorted_from_skipn. exact Hsorted.
        -- intros first Hf. simpl in Hf. inversion Hf; subst. exact Eneg.
        -- split; [exact Hx|].
           intros j y Hij Hy.
           replace j with (h + (j - h)) in * by lia.
           replace (Offset + (h + (j - h)))
             with (Offset + h + (j - h)) by lia.
           apply Hafter; [lia|].
           rewrite <- Esk, nth_error_skipn. exact Hy.
Qed.

(** C3. On a list sorted with respect to the comparer,
    [binary_search<TComparer>::lower_bound(needle, visitor, args...)]
    returns [false], without calling the visitor, exactly when the list is
    empty or the needle compares less than its first element; otherwise
    it returns [true] and calls the visitor once, with the greatest
    element that is less than or equal to the needle (every element to its
    right is above the needle) and with the position of that element. *)
Theorem lower_bound_finds_greatest_not_above (L : list T) :
  sorted_for L ->
  exists b calls,
    type_list.lower_bound compare L needle args = Some (b, calls) /\
    (b = false <->
     L = [] \/
     exists first, hd_error L = Some first /\
                   (compare needle (tag first 0) < 0)%Z) /\
    (b = false -> calls = []) /\
    (b = true ->
     exists i x,
       nth_error L i = Some x /\
       calls = [mk_visit (tag x i) needle args] /\
       (0 <= compare needle (tag x i))%Z /\
       forall j y, i < j -> nth_error L j = Some y ->
                   (compare needle (tag y j) < 0)%Z).
Proof.
  intros Hsorted.
  unfold type_list.lower_bound, type_list_impl.binary_search_lower_bound.
  destruct L as [|first rest].
  - exists false, []. split; [reflexivity|].
    split; [split; auto|]. split; [reflexivity | discriminate].
  - destruct (compare needle (tag first 0) >=? 0)%Z eqn:E.
    + assert (Hge : (0 <= compare needle (tag first 0))%Z)
        by (apply Z.geb_le in E; exact E).
      destruct (@recursion_window (first :: rest) 0)
        as (i & x & Hrun & Hi & Hlast); [discriminate|].
      destruct Hlast as [Hx Hafter].
      { exact Hsorted. }
      { intros f Hf. simpl in Hf. inversion Hf; subst. exact Hge. }
      exists true, [call x (0 + i)]. split; [exact Hrun|].
      split; [|split].
      * split; [discriminate|].
        intros [Hnil | (f & Hf & Hlt)]; [discriminate|].
        simpl in Hf. inversion Hf; subst. lia.
      * discriminate.
      * intros _. exists i, x. repeat split; assumption.
    + assert (Hlt : (compare needle (tag first 0) < 0)%Z).
      { destruct (Z.geb_spec (compare needle (tag first 0)) 0);
          [discriminate | lia]. }
      exists false, []. split; [reflexivity|].
      split; [|split].
      * split; [|reflexivity]. intros _. right.
        exists first. split; [reflexivity | exact Hlt].
      * reflexivity.
      * discriminate.
Qed.

End BinarySearchFacts.

(** The comparer of the documentation, [needle - value]: on the vowels,
    the needle ['i'] is found at index 2; on [<10, 30, 50, 70>], the lower
    bound of 68 is 50, at index 2. *)
Definition difference (needle : Z) (t : indexed_type_tag Z) : Z :=
  (needle - tag_type t)%Z.

Definition vowels : list Z := [97; 101; 105; 111; 117]%Z.

Definition tens : list Z := [10; 30; 50; 70]%Z.

Example exact_vowels_found :
  type_list.exact difference vowels 105%Z tt
  = Some (true, [mk_visit (mk_indexed_type_tag 105%Z 2) 105%Z tt]).
Proof. reflexivity. Qed.

Example exact_vowels_not_found :
  type_list.exact difference vowels 120%Z tt = Some (false, []).
Proof. reflexivity. Qed.

Example lower_bound_tens_inside :
  type_list.lower_bound difference tens 68%Z tt
  = Some (true, [mk_visit (mk_indexed_type_tag 50%Z 2) 68%Z tt]).
Proof. reflexivity. Qed.

Example lower_bound_tens_below :
  type_list.lower_bound difference tens 5%Z tt = Some (false, []).
Proof. reflexivity. Qed.

Lemma exact_finds_equal_element_witness :
  sorted_for difference 105%Z vowels /\
  exists b calls,
    type_list.exact difference vowels 105%Z tt = Some (b, calls) /\
    (b = true <->
     exists i x, nth_error vowels i = Some x /\
                 difference 105%Z (mk_indexed_type_tag x i) = 0%Z) /\
    (b = true ->
     exists i x, nth_error vowels i = Some x /\
                 difference 105%Z (mk_indexed_type_tag x i) = 0%Z /\
                 calls = [mk_visit (mk_indexed_type_tag x i) 105%Z tt]) /\
    (b = false -> calls = []).
Proof.
  assert (H : sorted_for difference 105%Z vowels)
    by (apply sorted_forb_sound; reflexivity).
  split; [exact H|].
  exact (@exact_finds_equal_element Z Z unit difference 105%Z tt vowels H).
Defined.

Lemma lower_bound_finds_greatest_not_above_witness :
  sorted_for difference 68%Z tens /\
  exists b calls,
    type_list.lower_bound difference tens 68%Z tt = Some (b, calls) /\
    (b = false <->
     tens = [] \/
     exists first, hd_error tens = Some first /\
                   (difference 68%Z (mk_indexed_type_tag first 0) < 0)%Z) /\
    (b = false -> calls = []) /\
    (b = true ->
     exists i x,
       nth_error tens i = Some x /\
       calls = [mk_visit (mk_indexed_type_tag x i) 68%Z tt] /\
       (0 <= difference 68%Z (mk_indexed_type_tag x i))%Z /\
       forall j y, i < j -> nth_error tens j = Some y ->
                   (difference 68%Z (mk_indexed_type_tag y j) < 0)%Z).
Proof.
  assert (H : sorted_for difference 68%Z tens)
    by (apply sorted_forb_sound; reflexivity).
  split; [exact H|].
  exact (@lower_bound_finds_greatest_not_above Z Z unit difference 68%Z tt
           tens H).
Defined.

(** * Further properties of [type_list] *)

(** ** Access by position and its bounds *)

Section Positions.

Context {T : Type}.

Lemma at_nth_error (Distance : nat) (args : list T) :
  type_list_impl.at_ Distance args = nth_error args Distance.
Proof.
  revert Distance.
  induction args as [|u uargs IH]; intros [|d]; simpl; auto.
Qed.

Lemma static_assert_true (c : bool) (X : Type) (k : unit -> option X) :
  c = true -> bind (static_assert c) k = k tt.
Proof. intros ->. reflexivity. Qed.

Lemma static_assert_false (c : bool) (X : Type) (k : unit -> option X) :
  c = false -> bind (static_assert c) k = None.
Proof. intros ->. reflexivity. Qed.

Lemma try_at_past_the_end (Distance : nat) (args : list T) :
  length args < Distance -> type_list_impl.try_at Distance args = None.
Proof.
  revert Distance.
  induction args as [|u uargs IH]; intros Distance Hlt; simpl in Hlt.
  - destruct Distance; [lia | reflexivity].
  - destruct Distance as [|d]; [lia|].
    cbn [type_list_impl.try_at Nat.eqb].
    replace (S d - 1) with d by lia.
    rewrite IH by lia. reflexivity.
Qed.

(** X1. [at<Index>] is the element at [Index] and is ill-formed from the size
    of the list on; [try_at<Index>] is the one-element list of that
    element, the empty list exactly at the size of the list, and
    ill-formed past it. *)
Theorem at_and_try_at_bounds (Index : nat) (L : list T) :
  type_list.at_ Index L = nth_error L Index /\
  (forall x, nth_error L Index = Some x ->
             type_list.try_at Index L = Some [x]) /\
  (Index = type_list.size L -> type_list.try_at Index L = Some []) /\
  (type_list.size L < Index -> type_list.try_at Index L = None).
Proof.
  unfold type_list.at_, type_list.try_at, type_list.empty, type_list.size.
  split; [|split; [|split]].
  - destruct L as [|u uargs]; [destruct Index; reflexivity|].
    simpl. apply (at_nth_error Index (u :: uargs)).
  - intros x Hx.
    assert (Hlt : Index < length L) by (apply nth_error_Some; congruence).
    rewrite try_at_spec by lia.
    destruct (skipn Index L) as [|y ys] eqn:E.
    + apply (f_equal (@length T)) in E. rewrite length_skipn in E.
      simpl in E. lia.
    + assert (Hy : nth_error L Index = Some y).
      { rewrite <- (Nat.add_0_r Index), <- nth_error_skipn, E. reflexivity. }
      simpl. congruence.
  - intros ->. rewrite try_at_spec by lia.
    rewrite skipn_all. reflexivity.
  - apply try_at_past_the_end.
Qed.

Lemma split_past_the_end (Index : nat) (args : list T) :
  length args < Index -> type_list_impl.split Index args = None.
Proof.
  revert args.
  induction Index as [|i IH]; intros [|u uargs] Hlt; simpl in *;
    try lia; try reflexivity.
  rewrite IH by lia. reflexivity.
Qed.

Lemma left_past_the_end (Size : nat) (args : list T) :
  length args < Size -> type_list_impl.left Size args = None.
Proof.
  intros Hlt.
  destruct Size as [|s]; [lia|].
  destruct args as [|u uargs]; [reflexivity|].
  cbn [type_list_impl.left].
  apply static_assert_false. apply Nat.leb_gt. simpl in Hlt. lia.
Qed.

Lemma tail_past_the_end (Index : nat) (args : list T) :
  length args < Index -> type_list_impl.tail Index args = None.
Proof.
  intros Hlt.
  destruct Index as [|i]; [lia|].
  destruct args as [|u uargs]; [reflexivity|].
  cbn [type_list_impl.tail].
  apply static_assert_false. apply Nat.leb_gt. simpl in Hlt. lia.
Qed.

(** X2. [split<Index>] is the pair of [left<Index>] and [tail<Index>], and the
    two halves put together again are the list; all three are ill-formed
    when [Index] is past the size of the list. *)
Theorem split_is_left_and_tail (Index : nat) (L : list T) :
  (Index <= type_list.size L ->
   exists first second,
     type_list.split Index L = Some (first, second) /\
     type_list.left Index L = Some first /\
     type_list.tail Index L = Some second /\
     type_list.size first = Index /\
     type_list.concat first second = L) /\
  (type_list.size L < Index ->
   type_list.split Index L = None /\
   type_list.left Index L = None /\
   type_list.tail Index L = None).
Proof.
  unfold type_list.split, type_list.left, type_list.tail, type_list.size,
    type_list.concat, type_list.push_front.
  split.
  - intros Hle. exists (firstn Index L), (skipn Index L).
    rewrite type_list_impl.split_spec, left_spec, tail_spec by lia.
    repeat split.
    + rewrite length_firstn. lia.
    + apply firstn_skipn.
  - intros Hlt.
    rewrite split_past_the_end, left_past_the_end, tail_past_the_end by lia.
    repeat split.
Qed.

Lemma slice_out_of_range (Begin End_ : nat) (args : list T) :
  End_ < Begin \/ length args < End_ ->
  type_list_impl.slice Begin End_ args = None.
Proof.
  revert End_ args.
  induction Begin as [|b IH]; intros End_ args H.
  - assert (Hlt : length args < End_) by lia.
    destruct args; simpl; apply left_past_the_end; exact Hlt.
  - destruct args as [|u uargs]; [reflexivity|].
    cbn [type_list_impl.slice].
    destruct (S b <=? End_) eqn:E.
    + apply Nat.leb_le in E. simpl. apply IH. simpl in H. lia.
    + reflexivity.
Qed.

(** X3. [slice<Begin, End>] is the list of the elements at the positions from
    [Begin] up to and not including [End], and is ill-formed unless
    [Begin <= End <= size]; [right<Size>] is the list of the last [Size]
    elements, ill-formed when [Size] exceeds the size; and [tail<Offset>]
    is the same as [slice<Offset, size>] and as [right<size - Offset>]. *)
Theorem slice_right_and_tail (Begin End_ : nat) (L : list T) :
  (Begin <= End_ <= type_list.size L ->
   type_list.slice Begin End_ L
   = Some (firstn (End_ - Begin) (skipn Begin L))) /\
  (End_ < Begin \/ type_list.size L < End_ ->
   type_list.slice Begin End_ L = None) /\
  (End_ <= type_list.size L ->
   type_list.right End_ L = Some (skipn (type_list.size L - End_) L)) /\
  (type_list.size L < End_ -> type_list.right End_ L = None) /\
  (Begin <= type_list.size L ->
   type_list.tail Begin L = type_list.slice Begin (type_list.size L) L /\
   type_list.tail Begin L = type_list.right (type_list.size L - Begin) L).
Proof.
  unfold type_list.slice, type_list.right, type_list.tail, type_list.size,
    type_list_impl.right.
  split; [|split; [|split; [|split]]].
  - intros [H1 H2]. apply slice_spec; assumption.
  - apply slice_out_of_range.
  - intros Hle.
    rewrite static_assert_true by (apply Nat.leb_le; exact Hle).
    rewrite slice_spec by lia.
    rewrite firstn_all2 by (rewrite length_skipn; lia). reflexivity.
  - intros Hlt. apply static_assert_false. apply Nat.leb_gt. exact Hlt.
  - intros Hle. rewrite tail_spec by exact Hle.
    rewrite static_assert_true by (apply Nat.leb_le; lia).
    replace (length L - (length L - Begin)) with Begin by lia.
    rewrite slice_spec by lia.
    rewrite firstn_all2 by (rewrite length_skipn; lia).
    split; reflexivity.
Qed.

Lemma visit_at_from (Index : nat) (args : list T) (index : nat) :
  Index <= index ->
  type_list_impl.visit_at Index args index
  = match nth_error args (index - Index) with
    | Some t => (true, [mk_indexed_type_tag t index])
    | None => (false, [])
    end.
Proof.
  revert Index.
  induction args as [|t args' IH]; intros Index Hle; simpl.
  - destruct (index - Index); reflexivity.
  - destruct (index =? Index) eqn:E.
    + apply Nat.eqb_eq in E. subst. rewrite Nat.sub_diag. reflexivity.
    + apply Nat.eqb_neq in E. rewrite IH by lia.
      replace (index - Index) with (S (index - (Index + 1))) by lia.
      reflexivity.
Qed.

(** X4. [visit(index, visitor, args...)] returns [true] exactly when [index]
    is below the size of the list, and then calls the visitor once, with
    the element at [index] tagged with [index]; otherwise it does not call
    it. *)
Theorem visit_calls_for_the_element_at_index (index : nat) (L : list T) :
  (fst (type_list.visit index L) = true <-> index < type_list.size L) /\
  (forall t, nth_error L index = Some t ->
             type_list.visit index L = (true, [mk_indexed_type_tag t index])) /\
  (type_list.size L <= index -> type_list.visit index L = (false, [])).
Proof.
  unfold type_list.visit, type_list.size.
  rewrite visit_at_from by lia. rewrite Nat.sub_0_r.
  split; [|split].
  - destruct (nth_error L index) as [t|] eqn:E; simpl.
    + split; [intros _; apply nth_error_Some; congruence | reflexivity].
    + apply nth_error_None in E. split; [discriminate | lia].
  - intros t ->. reflexivity.
  - intros Hle. apply nth_error_None in Hle. rewrite Hle. reflexivity.
Qed.

Lemma type_at_spec (args : list T) (index : nat) (u : T) :
  type_list_impl.type_at (u :: args) index
  = nth_error (u :: args) (Nat.min index (length args)).
Proof.
  revert u index.
  induction args as [|v args' IH]; intros u index.
  - rewrite Nat.min_0_r. reflexivity.
  - destruct index as [|i]; [reflexivity|].
    transitivity (type_list_impl.type_at (v :: args') (i - 0));
      [reflexivity|].
    rewrite Nat.sub_0_r, IH. reflexivity.
Qed.

(** X5. [type_at(index)] does no bounds checking: on a list that is not empty
    it yields the type at [index], and the last type of the list when
    [index] is at or past the size; on the empty list it is ill-formed. *)
Theorem type_at_clamps_to_the_last (index : nat) (L : list T) :
  (L = [] -> type_list.type_at index L = None) /\
  (index < type_list.size L ->
   type_list.type_at index L = nth_error L index) /\
  (L <> [] -> type_list.size L <= index ->
   type_list.type_at index L = nth_error L (type_list.size L - 1)).
Proof.
  unfold type_list.type_at, type_list.size.
  split; [intros ->; reflexivity|].
  destruct L as [|u args].
  - split; [simpl; lia | congruence].
  - rewrite type_at_spec. simpl length. split.
    + intros Hlt. rewrite Nat.min_l by lia. reflexivity.
    + intros _ Hle. rewrite Nat.min_r by lia.
      replace (S (length args) - 1) with (length args) by lia. reflexivity.
Qed.

End Positions.

(** ** Walking a list: [foreach_if], [foreach], [indexed_transform],
    [combine], [unzip] *)

Section Walks.

Context {T : Type}.

(** The elements of a list with their positions, counted from [Index]. *)
Fixpoint tagged_from (Index : nat) (l : list T) : list (indexed_type_tag T) :=
  match l with
  | [] => []
  | x :: l' => mk_indexed_type_tag x Index :: tagged_from (S Index) l'
  end.

Lemma tagged_from_app (Index : nat) (l1 l2 : list T) :
  tagged_from Index (l1 ++ l2)
  = tagged_from Index l1 ++ tagged_from (Index + length l1) l2.
Proof.
  revert Index.
  induction l1 as [|x l1' IH]; intros Index; simpl.
  - rewrite Nat.add_0_r. reflexivity.
  - rewrite IH. replace (S Index + length l1') with (Index + S (length l1'))
      by lia. reflexivity.
Qed.


Lemma foreach_if_from (TCondition : T -> bool) (Index : nat) (args : list T) :
  type_list_impl.foreach_if TCondition Index args
  = (length (List.filter (fun t => TCondition (tag_type t))
               (tagged_from Index args)),
     List.filter (fun t => TCondition (tag_type t)) (tagged_from Index args)).
Proof.
  revert Index.
  induction args as [|u uargs IH]; intros Index; simpl; [reflexivity|].
  rewrite IH. replace (Index + 1) with (S Index) by lia.
  destruct (TCondition u); reflexivity.
Qed.


Section Transformed.

Context {R : Type}.

Variable f : T -> nat -> R.

(** The transform applied to each element and its position. *)
Definition transformed_from (Index : nat) (l : list T) : list R :=
  map (fun t => f (tag_type t) (tag_index t)) (tagged_from Index l).

Lemma indexed_transform_prefix (L : list T) (Position : nat) :
  Position <= length L ->
  type_list_impl.indexed_transform f L Position
  = Some (transformed_from 0 (firstn Position L)).
Proof.
  induction Position as [|p IH]; intros Hle; [reflexivity|].
  cbn [type_list_impl.indexed_transform].
  rewrite IH by lia. cbn [bind].
  rewrite try_at_spec by lia. cbn [bind].
  destruct (skipn p L) as [|x xs] eqn:E.
  { apply (f_equal (@length T)) in E. rewrite length_skipn in E.
    simpl in E. lia. }
  change (firstn 1 (x :: xs)) with [x].
  cbn [type_list_impl.indexed_transform_helper bind].
  assert (Hfirst : firstn (S p) L = firstn p L ++ [x]).
  { rewrite <- (firstn_skipn p L) at 1. rewrite E.
    rewrite firstn_app, length_firstn, Nat.min_l by lia.
    replace (S p - p) with 1 by lia.
    rewrite firstn_all2 by (rewrite length_firstn; lia). reflexivity. }
  rewrite Hfirst. unfold transformed_from.
  rewrite tagged_from_app, map_app, length_firstn, Nat.min_l by lia.
  reflexivity.
Qed.

(** [indexed_transform<T>] is always well-formed, and is the list of
    [T<U, Index>] for each element [U] of the list at its position
    [Index], in the order of the list. *)
Theorem indexed_transform_applies_to_positions (L : list T) :
  type_list.indexed_transform f L = Some (transformed_from 0 L) /\
  forall i u, nth_error L i = Some u ->
              nth_error (transformed_from 0 L) i = Some (f u i).
Proof.
  split.
  - unfold type_list.indexed_transform, type_list.size.
    rewrite indexed_transform_prefix by lia.
    rewrite firstn_all. reflexivity.
  - unfold transformed_from.
    assert (H : forall (k : nat) (l : list T) i u,
               nth_error l i = Some u ->
               nth_error (tagged_from k l) i
               = Some (mk_indexed_type_tag u (k + i))).
    { intros k l. revert k.
      induction l as [|x l' IH]; intros k [|i] u Hi; simpl in *;
        try discriminate.
      - inversion Hi; subst. rewrite Nat.add_0_r. reflexivity.
      - rewrite (IH (S k) i u Hi).
        replace (S k + i) with (k + S i) by lia. reflexivity. }
    intros i u Hi. rewrite nth_error_map, (H 0 L i u Hi). reflexivity.
Qed.

End Transformed.

Lemma skip_nth (Next Step : nat) (args : list T) (k : nat) :
  nth_error (type_list_impl.skip Next Step args) k
  = nth_error args (Next + k * S Step).
Proof.
  revert Next k.
  induction args as [|u uargs IH]; intros Next k.
  - simpl. destruct k; destruct (Next + _); reflexivity.
  - cbn [type_list_impl.skip].
    destruct Next as [|n]; cbn [Nat.eqb].
    + destruct k as [|k]; [reflexivity|].
      cbn [nth_error]. rewrite IH.
      replace (0 + S k * S Step) with (S (Step + k * S Step)) by lia.
      reflexivity.
    + rewrite IH. replace (S n - 1 + k * S Step) with (n + k * S Step)
        by lia. reflexivity.
Qed.

(** X7. [unzip<Step, Offset>] is always well-formed and picks the elements at
    the positions [Offset], [Offset + (Step + 1)], [Offset + 2 (Step + 1)],
    ... of the list; there are none when [Offset] is at or past its
    size. *)
Theorem unzip_picks_every_step (Step Offset : nat) (L : list T) :
  exists picked,
    type_list.unzip Step Offset L = Some picked /\
    (forall k, nth_error picked k = nth_error L (Offset + k * S Step)) /\
    (type_list.size L <= Offset -> picked = []).
Proof.
  unfold type_list.unzip, type_list.tail, type_list.size.
  destruct (Offset <? length L) eqn:E.
  - apply Nat.ltb_lt in E.
    rewrite tail_spec by lia. cbn [bind].
    eexists. split; [reflexivity|]. split; [|lia].
    intros k. rewrite skip_nth, nth_error_skipn.
    f_equal; lia.
  - apply Nat.ltb_ge in E.
    rewrite tail_spec by lia. cbn [bind].
    rewrite skipn_all. exists []. split; [reflexivity|].
    split; [|reflexivity].
    intros k. symmetry. rewrite nth_error_nil. apply nth_error_None. lia.
Qed.

End Walks.

Section Combine.

Context {T U R : Type}.

Variable TCombiner : T -> U -> R.

(** The combiner applied to the elements of two lists at the same
    position. *)
Definition pairwise (l : list T) (r : list U) : list R :=
  map (fun p => TCombiner (fst p) (snd p)) (List.combine l r).

Lemma combine_from (TRightList : list U) (args : list T) (Index : nat) :
  Index <= length TRightList ->
  type_list_impl.combine TRightList Index TCombiner args
  = if length args =? length TRightList - Index
    then Some (pairwise args (skipn Index TRightList))
    else None.
Proof.
  revert Index.
  induction args as [|u uargs IH]; intros Index Hle.
  - cbn [type_list_impl.combine length].
    destruct (Index =? length TRightList) eqn:E.
    + apply Nat.eqb_eq in E.
      replace (0 =? length TRightList - Index) with true
        by (symmetry; apply Nat.eqb_eq; lia).
      reflexivity.
    + apply Nat.eqb_neq in E.
      replace (0 =? length TRightList - Index) with false
        by (symmetry; apply Nat.eqb_neq; lia).
      reflexivity.
  - cbn [type_list_impl.combine length].
    destruct (Index <? length TRightList) eqn:E.
    + apply Nat.ltb_lt in E. cbn [static_assert bind].
      rewrite IH by lia.
      replace (length uargs =? length TRightList - (Index + 1))
        with (S (length uargs) =? length TRightList - Index)
        by (destruct (Nat.eqb_spec (S (length uargs))
                        (length TRightList - Index));
            symmetry; [apply Nat.eqb_eq | apply Nat.eqb_neq]; lia).
      destruct (S (length uargs) =? length TRightList - Index);
        [|reflexivity].
      cbn [bind]. unfold type_list_impl.list_at.
      rewrite static_assert_true
        by (apply negb_true_iff, Nat.eqb_neq; lia).
      rewrite at_nth_error.
      destruct (skipn Index TRightList) as [|y ys] eqn:Es.
      { apply (f_equal (@length U)) in Es. rewrite length_skipn in Es.
        simpl in Es. lia. }
      destruct (skipn_pivot _ _ Es) as (Hy & Hys & _).
      rewrite Hy. cbn [bind].
      replace (Index + 1) with (S Index) by lia.
      rewrite Hys. reflexivity.
    + apply Nat.ltb_ge in E. cbn [static_assert bind].
      replace (S (length uargs) =? length TRightList - Index) with false
        by (symmetry; apply Nat.eqb_neq; lia).
      reflexivity.
Qed.

(** X8. [combine<TRightList, TCombiner>] is well-formed exactly when the two
    lists have the same size, and is then the list of
    [TCombiner<U, V>] for the elements [U] and [V] at the same position of
    the two lists. *)
Theorem combine_needs_equal_sizes (L : list T) (TRightList : list U) :
  (type_list.size L = type_list.size TRightList ->
   type_list.combine L TRightList TCombiner
   = Some (pairwise L TRightList)) /\
  (type_list.size L <> type_list.size TRightList ->
   type_list.combine L TRightList TCombiner = None).
Proof.
  unfold type_list.combine, type_list.size.
  rewrite combine_from by lia. rewrite Nat.sub_0_r.
  split; intros H.
  - apply Nat.eqb_eq in H. rewrite H. reflexivity.
  - apply Nat.eqb_neq in H. rewrite H. reflexivity.
Qed.

End Combine.

(** ** [unique], [remove], [replace] *)

Section Duplicates.

Context {T : Type}.

Variable is_same_dec : forall x y : T, {x = y} + {x <> y}.

#[local] Abbreviation same := (type_list_impl.is_same is_same_dec).
#[local] Abbreviation member := (type_list_impl.contains is_same_dec).

(** Only the first occurrence of each element, in the words of the
    documentation: an element stays, and is struck out of what follows. *)
Fixpoint first_occurrences (l : list T) : list T :=
  match l with
  | [] => []
  | x :: l' => x :: List.filter (fun y => negb (same y x)) (first_occurrences l')
  end.

Lemma filter_filter_comm (p q : T -> bool) (l : list T) :
  List.filter p (List.filter q l) = List.filter q (List.filter p l).
Proof.
  induction l as [|x l' IH]; simpl; [reflexivity|].
  destruct (q x) eqn:Eq; destruct (p x) eqn:Ep; simpl;
    rewrite ?Eq, ?Ep; congruence.
Qed.

Lemma filter_both (p q : T -> bool) (l : list T) :
  List.filter p (List.filter q l) = List.filter (fun y => p y && q y) l.
Proof.
  induction l as [|x l' IH]; simpl; [reflexivity|].
  destruct (q x) eqn:Eq; destruct (p x) eqn:Ep; simpl;
    rewrite ?Ep; congruence.
Qed.

Lemma filter_without (p : T -> bool) (x : T) (l : list T) :
  p x = false ->
  List.filter p (List.filter (fun y => negb (same y x)) l) = List.filter p l.
Proof.
  intros Hx.
  induction l as [|y l' IH]; simpl; [reflexivity|].
  destruct (same y x) eqn:E; simpl.
  - apply is_same_true in E. subst. rewrite Hx. exact IH.
  - rewrite IH. reflexivity.
Qed.

Lemma first_occurrences_filter (p : T -> bool) (l : list T) :
  first_occurrences (List.filter p l) = List.filter p (first_occurrences l).
Proof.
  induction l as [|x l' IH]; simpl; [reflexivity|].
  destruct (p x) eqn:E; simpl.
  - rewrite IH. f_equal. apply filter_filter_comm.
  - rewrite IH. symmetry. apply filter_without. exact E.
Qed.

Lemma unique_from (TResult args : list T) :
  type_list_impl.unique is_same_dec TResult args
  = TResult
    ++ first_occurrences (List.filter (fun y => negb (member y TResult)) args).
Proof.
  revert TResult.
  induction args as [|t args' IH]; intros TResult; simpl.
  - rewrite app_nil_r. reflexivity.
  - destruct (member t TResult) eqn:E; simpl.
    + apply IH.
    + rewrite IH, <- app_assoc. simpl. f_equal. f_equal.
      rewrite <- first_occurrences_filter, filter_both.
      f_equal. apply filter_ext. intros y.
      destruct (member y (TResult ++ [t])) eqn:Ey.
      * apply contains_In, in_app_iff in Ey.
        destruct Ey as [Ey|[->|[]]].
        -- apply (proj2 (contains_In is_same_dec _ _)) in Ey.
           rewrite Ey. symmetry. apply andb_false_r.
        -- assert (Hs : same y y = true) by (apply is_same_true; reflexivity).
           rewrite Hs. reflexivity.
      * apply contains_false in Ey.
        assert (Hy : member y TResult = false).
        { apply contains_false. intros H. apply Ey, in_or_app. now left. }
        assert (Hs : same y t = false).
        { apply is_same_false. intros ->. apply Ey, in_or_app.
          right. now left. }
        rewrite Hy, Hs. reflexivity.
Qed.

Lemma first_occurrences_In (x : T) (l : list T) :
  In x (first_occurrences l) <-> In x l.
Proof.
  induction l as [|y l' IH]; simpl; [tauto|].
  rewrite filter_In, IH, negb_true_iff. split.
  - intros [H|[H _]]; auto.
  - intros [H|H]; [now left|].
    destruct (is_same_dec y x) as [Heq|Hne]; [now left | right].
    split; [exact H|]. apply is_same_false. congruence.
Qed.

Lemma first_occurrences_NoDup (l : list T) : NoDup (first_occurrences l).
Proof.
  induction l as [|x l' IH]; simpl; constructor.
  - rewrite filter_In, negb_true_iff. intros [_ H].
    apply is_same_false in H. congruence.
  - apply NoDup_filter. exact IH.
Qed.

Lemma filter_all (f : T -> bool) (l : list T) :
  (forall y, In y l -> f y = true) -> List.filter f l = l.
Proof.
  induction l as [|y l' IH]; intros H; simpl; [reflexivity|].
  rewrite (H y) by now left.
  f_equal. apply IH. intros z Hz. apply H. now right.
Qed.

Lemma first_occurrences_NoDup_id (l : list T) :
  NoDup l -> first_occurrences l = l.
Proof.
  induction 1 as [|x l' Hx Hl IH]; simpl; [reflexivity|].
  rewrite IH. f_equal. apply filter_all.
  intros y Hy. apply negb_true_iff, is_same_false.
  intros ->. contradiction.
Qed.

(** X9. [unique<TTransform>] applies the transform, then keeps the first
    occurrence of each type and drops the later ones: the result has no
    duplicates, has the same types as the transformed list, leaves a list
    without duplicates as it is, and is not changed by [unique<>] again. *)
Theorem unique_keeps_first_occurrences (TTransform : T -> T) (L : list T) :
  let U := type_list.unique is_same_dec TTransform L in
  U = first_occurrences (map TTransform L) /\
  NoDup U /\
  (forall x, In x U <-> In x (map TTransform L)) /\
  (NoDup (map TTransform L) -> U = map TTransform L) /\
  type_list.unique is_same_dec (fun t => t) U = U.
Proof.
  assert (Hu : forall l, type_list.unique is_same_dec (fun t => t) l
                         = first_occurrences l).
  { intros l. unfold type_list.unique. rewrite map_id, unique_from.
    simpl. f_equal.
    clear. induction l as [|x l IH]; simpl; congruence. }
  cbv zeta.
  assert (Hm : type_list.unique is_same_dec TTransform L
               = first_occurrences (map TTransform L)).
  { unfold type_list.unique. rewrite <- Hu. unfold type_list.unique.
    rewrite map_id. reflexivity. }
  rewrite Hm.
  split; [reflexivity|].
  split; [apply first_occurrences_NoDup|].
  split; [intros x; apply first_occurrences_In|].
  split; [apply first_occurrences_NoDup_id|].
  rewrite Hu. apply first_occurrences_NoDup_id, first_occurrences_NoDup.
Qed.

(** X10. [remove<UArgs...>] keeps, in their order, the elements of the list
    that are none of [UArgs...], so that none of them is left; and
    [replace<TFrom, TTo>] puts [TTo] wherever [TFrom] stands and nowhere
    else, so that [TFrom] is not left unless it is [TTo]. *)
Theorem remove_and_replace (UArgs : list T) (TFrom TTo : T) (L : list T) :
  type_list.remove is_same_dec UArgs L
  = List.filter (fun u => negb (member u UArgs)) L /\
  (forall u, In u (type_list.remove is_same_dec UArgs L)
             <-> In u L /\ ~ In u UArgs) /\
  (forall i, nth_error (type_list.replace is_same_dec TFrom TTo L) i
             = match nth_error L i with
               | Some u => Some (if same u TFrom then TTo else u)
               | None => None
               end) /\
  (TFrom <> TTo ->
   type_list.contains is_same_dec TFrom
     (type_list.replace is_same_dec TFrom TTo L) = false).
Proof.
  unfold type_list.remove, type_list.filter, type_list.replace,
    type_list.transform, type_list.contains.
  rewrite filter_components. cbn [snd].
  split; [reflexivity|]. split; [|split].
  - intros u. rewrite filter_In, negb_true_iff, contains_false. tauto.
  - intros i. rewrite nth_error_map.
    destruct (nth_error L i); reflexivity.
  - intros Hne. apply contains_false. rewrite in_map_iff.
    intros (u & Hu & _). unfold type_list_impl.replace_transform in Hu.
    destruct (same u TFrom) eqn:E.
    + congruence.
    + apply is_same_false in E. congruence.
Qed.

End Duplicates.

(** ** [insert_sorted] and [merge] *)

Section SortedLists.

Context {T : Type}.

Variable TLessComparer : T -> T -> bool.

#[local] Abbreviation less := TLessComparer.
#[local] Abbreviation sorted := (type_list.is_sorted TLessComparer).

(** Inserting is merging a list of one element in, as the right-hand
    list. *)
Lemma insert_sorted_is_merge (t : T) (l : list T) :
  type_list_impl.insert_sorted TLessComparer t l
  = type_list_impl.merge TLessComparer [t] l.
Proof.
  induction l as [|head tail IH]; simpl; simp merge; [reflexivity|].
  destruct (less t head) eqn:E; simpl; simp merge.
  - reflexivity.
  - rewrite IH. reflexivity.
Qed.

Lemma insert_sorted_splits (t : T) (l : list T) :
  exists before after,
    l = before ++ after /\
    type_list_impl.insert_sorted TLessComparer t l = before ++ t :: after /\
    (forall y, In y before -> less t y = false) /\
    (forall h, hd_error after = Some h -> less t h = true).
Proof.
  induction l as [|head tail IH]; simpl.
  - exists [], []. repeat split; auto; try discriminate. contradiction.
  - destruct (less t head) eqn:E.
    + exists [], (head :: tail). repeat split; auto; [contradiction|].
      intros h Hh. simpl in Hh. congruence.
    + destruct IH as (before & after & Hl & Hi & Hb & Ha).
      exists (head :: before), after. simpl.
      repeat split; try congruence; [|exact Ha].
      intros y [<-|Hy]; auto.
Qed.

(** X11. [insert_sorted<T, TLessComparer>] puts [T] just before the first
    element that [T] is less than, or at the end when there is none; the
    rest of the list stays as it is.  For a total order, inserting into a
    sorted list gives a sorted list. *)
Theorem insert_sorted_finds_its_place (t : T) (L : list T) :
  (exists before after,
     L = before ++ after /\
     type_list.insert_sorted TLessComparer t L = before ++ t :: after /\
     (forall y, In y before -> less t y = false) /\
     (forall h, hd_error after = Some h -> less t h = true)) /\
  (total_order_on TLessComparer (t :: L) -> sorted L = true ->
   sorted (type_list.insert_sorted TLessComparer t L) = true).
Proof.
  unfold type_list.insert_sorted, type_list.is_sorted.
  split; [apply insert_sorted_splits|].
  intros Horder Hs.
  rewrite insert_sorted_is_merge.
  apply (merge_sorted Horder).
  - intros x [<-|[]]. now left.
  - intros x Hx. now right.
  - reflexivity.
  - exact Hs.
Qed.

Variable NDEBUG : bool.

(** X12. [L::merge<R, TLessComparer>], for a total order and two sorted lists,
    is well-formed and is a sorted list with the elements of both, in
    which equivalent elements of [L] come before those of [R] and keep
    their order.  When [NDEBUG] is not defined, it is ill-formed as soon
    as one of the two lists is not sorted. *)
Theorem merge_of_sorted_lists (L R : list T) :
  (NDEBUG = false -> sorted L = false \/ sorted R = false ->
   type_list.merge TLessComparer NDEBUG L R = None) /\
  (total_order_on TLessComparer (L ++ R) ->
   sorted L = true -> sorted R = true ->
   exists M,
     type_list.merge TLessComparer NDEBUG L R = Some M /\
     sorted M = true /\
     Permutation (L ++ R) M /\
     forall x, In x (L ++ R) ->
       List.filter (equivalent TLessComparer x) M
       = List.filter (equivalent TLessComparer x) L
         ++ List.filter (equivalent TLessComparer x) R).
Proof.
  unfold type_list.merge, type_list.is_sorted,
    type_list_impl.merge_entry_point.
  split.
  - intros -> [H|H]; simpl.
    + rewrite H. reflexivity.
    + rewrite H. destruct (type_list_impl.is_sorted TLessComparer L);
        reflexivity.
  - intros Horder HL HR.
    rewrite HL, HR, !orb_true_r. simpl.
    assert (Hl : incl L (L ++ R)) by (apply incl_appl, incl_refl).
    assert (Hr : incl R (L ++ R)) by (apply incl_appr, incl_refl).
    eexists. split; [reflexivity|].
    split; [apply (merge_sorted Horder); assumption|].
    split; [apply merge_permutation|].
    intros x Hx. apply (merge_stable Horder); assumption.
Qed.

End SortedLists.

Lemma insert_sorted_finds_its_place_witness :
  total_order_on Nat.ltb [2; 0; 1; 3] /\
  type_list.is_sorted Nat.ltb [0; 1; 3] = true /\
  type_list.insert_sorted Nat.ltb 2 [0; 1; 3] = [0; 1; 2; 3] /\
  type_list.is_sorted Nat.ltb (type_list.insert_sorted Nat.ltb 2 [0; 1; 3])
  = true.
Proof.
  assert (H : total_order_on Nat.ltb [2; 0; 1; 3]).
  { split.
    - intros x y _ _ H. apply Nat.ltb_lt in H. apply Nat.ltb_ge. lia.
    - intros x y z _ _ _ H1 H2.
      apply Nat.ltb_ge in H1, H2. apply Nat.ltb_ge. lia. }
  split; [exact H|]. split; [reflexivity|]. split; [reflexivity|].
  exact (proj2 (@insert_sorted_finds_its_place nat Nat.ltb 2 [0; 1; 3])
           H eq_refl).
Defined.

Lemma merge_of_sorted_lists_witness :
  type_list.merge by_key false [(1, 0); (2, 0)] [(2, 1); (0, 0)] = None /\
  exists M,
    type_list.merge by_key false [(1, 0); (2, 0)] [(0, 1); (2, 1)] = Some M /\
    type_list.is_sorted by_key M = true /\
    Permutation ([(1, 0); (2, 0)] ++ [(0, 1); (2, 1)]) M /\
    forall x, In x ([(1, 0); (2, 0)] ++ [(0, 1); (2, 1)]) ->
      List.filter (equivalent by_key x) M
      = List.filter (equivalent by_key x) [(1, 0); (2, 0)]
        ++ List.filter (equivalent by_key x) [(0, 1); (2, 1)].
Proof.
  split.
  - exact (proj1 (@merge_of_sorted_lists (nat * nat) by_key false
                    [(1, 0); (2, 0)] [(2, 1); (0, 0)])
             eq_refl (or_intror eq_refl)).
  - exact (proj2 (@merge_of_sorted_lists (nat * nat) by_key false
                    [(1, 0); (2, 0)] [(0, 1); (2, 1)])
             (by_key_total_order _) eq_refl eq_refl).
Defined.

(** ** [binary_search::upper_bound] *)

Section UpperBound.

Context {T Needle VArgs : Type}.

Variable compare : Needle -> indexed_type_tag T -> Z.

Variable needle : Needle.

Variable args : VArgs.

#[local] Abbreviation tag := (@mk_indexed_type_tag T).
#[local] Abbreviation call :=
  (type_list_impl.call_visitor (T := T) needle args).
#[local] Abbreviation search_above :=
  (type_list_impl.binary_search_upper_bound compare needle args).
#[local] Abbreviation sorted_at := (sorted_from compare needle).

Lemma upper_bound_unfold (a b : T) (rest : list T) (Offset : nat) :
  search_above (a :: b :: rest) Offset
  = match type_list_impl.split ((length (a :: b :: rest) + 1) / 2)
            (a :: b :: rest) with
    | Some (left_, right_) =>
        pivot <- type_list_impl.list_at (length left_ - 1) left_ ;;
        if (compare needle (tag pivot (Offset + (length left_ - 1))) <? 0)%Z
        then search_above left_ Offset
        else search_above right_ (Offset + length left_)
    | None => None
    end.
Proof.
  simp binary_search_upper_bound.
  destruct (inspect (type_list_impl.split
                       ((length (a :: b :: rest) + 1) / 2)
                       (a :: b :: rest))) as [[[left_ right_]|] e];
    simp binary_search_upper_bound; rewrite e; reflexivity.
Qed.

(** [upper_bound] on a part of the list that starts at position
    [Offset]. *)
Lemma upper_bound_window (l : list T) (Offset : nat) :
  exists b calls,
    search_above l Offset = Some (b, calls) /\
    (b = true ->
     exists i x,
       nth_error l i = Some x /\
       (compare needle (tag x (Offset + i)) < 0)%Z /\
       calls = [call x (Offset + i)] /\
       (sorted_at Offset l ->
        forall j y, j < i -> nth_error l j = Some y ->
                    (0 <= compare needle (tag y (Offset + j)))%Z)) /\
    (b = false ->
     calls = [] /\
     (sorted_at Offset l ->
      forall i x, nth_error l i = Some x ->
                  (0 <= compare needle (tag x (Offset + i)))%Z)).
Proof.
  remember (length l) as k eqn:Hk. revert l Offset Hk.
  induction k as [k IH] using lt_wf_ind.
  intros [|a [|b0 rest]] Offset Hk.
  - simp binary_search_upper_bound. exists false, [].
    split; [reflexivity|]. split; [discriminate|].
    intros _. split; [reflexivity|]. intros _ [|i] x Hi; discriminate.
  - simp binary_search_upper_bound.
    destruct (compare needle (tag a Offset) <? 0)%Z eqn:E.
    + apply Z.ltb_lt in E. exists true, [call a Offset].
      split; [reflexivity|]. split; [|discriminate].
      intros _. exists 0, a. rewrite Nat.add_0_r.
      repeat split; auto. intros _ j y Hj. lia.
    + apply Z.ltb_ge in E. exists false, [].
      split; [reflexivity|]. split; [discriminate|].
      intros _. split; [reflexivity|].
      intros _ [|[|i]] x Hi; simpl in Hi; try discriminate.
      inversion Hi; subst. rewrite Nat.add_0_r. exact E.
  - rewrite upper_bound_unfold.
    remember (a :: b0 :: rest) as l eqn:El.
    assert (Hlen : 2 <= length l) by (subst l; simpl; lia).
    clear El a b0 rest.
    pose proof (type_list_impl.upper_half_bounds Hlen) as Hh.
    set (h := (length l + 1) / 2) in *.
    rewrite type_list_impl.split_spec by lia.
    rewrite length_firstn, Nat.min_l by lia.
    unfold type_list_impl.list_at.
    rewrite static_assert_true
      by (rewrite length_firstn, Nat.min_l by lia;
          apply negb_true_iff, Nat.eqb_neq; lia).
    rewrite at_nth_error, nth_error_firstn.
    replace (h - 1 <? h) with true by (symmetry; apply Nat.ltb_lt; lia).
    destruct (nth_error l (h - 1)) as [pivot|] eqn:Hpivot;
      [|apply nth_error_None in Hpivot; lia].
    cbn [bind].
    destruct (compare needle (tag pivot (Offset + (h - 1))) <? 0)%Z eqn:Eneg.
    + apply Z.ltb_lt in Eneg.
      destruct (IH (length (firstn h l))) with (l := firstn h l)
                                               (Offset := Offset)
        as (b & calls & Hrun & Htrue & Hfalse);
        [rewrite length_firstn; lia | reflexivity |].
      exists b, calls. split; [exact Hrun|]. split.
      * intros Hb.
        destruct (Htrue Hb) as (i & x & Hi & Hc & Hcalls & Hbefore).
        rewrite nth_error_firstn in Hi.
        destruct (i <? h) eqn:Eih; [|discriminate].
        apply Nat.ltb_lt in Eih.
        exists i, x. repeat split; try assumption.
        intros Hsorted j y Hj Hy.
        apply Hbefore; [apply sorted_from_firstn; exact Hsorted | exact Hj|].
        rewrite nth_error_firstn.
        replace (j <? h) with true by (symmetry; apply Nat.ltb_lt; lia).
        exact Hy.
      * intros Hb. destruct (Hfalse Hb) as [Hcalls Hall].
        split; [exact Hcalls|].
        intros Hsorted. exfalso.
        assert (Hp : (0 <= compare needle (tag pivot (Offset + (h - 1))))%Z).
        { apply Hall; [apply sorted_from_firstn; exact Hsorted|].
          rewrite nth_error_firstn.
          replace (h - 1 <? h) with true
            by (symmetry; apply Nat.ltb_lt; lia).
          exact Hpivot. }
        lia.
    + apply Z.ltb_ge in Eneg.
      assert (Hleft : sorted_at Offset l ->
                forall j y, j < h -> nth_error l j = Some y ->
                            (0 <= compare needle (tag y (Offset + j)))%Z).
      { intros Hsorted j y Hj Hy.
        destruct (Nat.eq_dec j (h - 1)) as [->|Hne]; [congruence|].
        eapply sgn_not_below; [exact Eneg|].
        apply (Hsorted j (h - 1)); [lia | assumption | assumption]. }
      destruct (IH (length (skipn h l))) with (l := skipn h l)
                                              (Offset := Offset + h)
        as (b & calls & Hrun & Htrue & Hfalse);
        [rewrite length_skipn; lia | reflexivity |].
      exists b, calls. split; [exact Hrun|]. split.
      * intros Hb.
        destruct (Htrue Hb) as (i & x & Hi & Hc & Hcalls & Hbefore).
        rewrite nth_error_skipn in Hi.
        exists (h + i), x.
        replace (Offset + (h + i)) with (Offset + h + i) by lia.
        repeat split; try assumption.
        intros Hsorted j y Hj Hy.
        destruct (Nat.lt_ge_cases j h) as [Hlt|Hge].
        -- apply Hleft; assumption.
        -- replace j with (h + (j - h)) in * by lia.
           replace (Offset + (h + (j - h)))
             with (Offset + h + (j - h)) by lia.
           apply Hbefore; [apply sorted_from_skipn; exact Hsorted | lia|].
           rewrite nth_error_skipn. exact Hy.
      * intros Hb. destruct (Hfalse Hb) as [Hcalls Hall].
        split; [exact Hcalls|].
        intros Hsorted i x Hi.
        destruct (Nat.lt_ge_cases i h) as [Hlt|Hge].
        -- apply Hleft; assumption.
        -- replace i with (h + (i - h)) in * by lia.
           replace (Offset + (h + (i - h)))
             with (Offset + h + (i - h)) by lia.
           apply Hall; [apply sorted_from_skipn; exact Hsorted|].
           rewrite nth_error_skipn. exact Hi.
Qed.

(** X13. On a list sorted with respect to the comparer,
    [binary_search<TComparer>::upper_bound(needle, visitor, args...)]
    returns [true] exactly when some element is above the needle; it then
    calls the visitor once, with the first such element (nothing to its
    left is above the needle) and its position; when it returns [false] it
    does not call the visitor. *)
Theorem upper_bound_finds_least_above (L : list T) :
  sorted_for compare needle L ->
  exists b calls,
    type_list.upper_bound compare L needle args = Some (b, calls) /\
    (b = true <->
     exists i x, nth_error L i = Some x /\
                 (compare needle (tag x i) < 0)%Z) /\
    (b = true ->
     exists i x,
       nth_error L i = Some x /\
       calls = [mk_visit (tag x i) needle args] /\
       (compare needle (tag x i) < 0)%Z /\
       forall j y, j < i -> nth_error L j = Some y ->
                   (0 <= compare needle (tag y j))%Z) /\
    (b = false -> calls = []).
Proof.
  intros Hsorted.
  destruct (upper_bound_window L 0) as (b & calls & Hrun & Htrue & Hfalse).
  exists b, calls. split; [exact Hrun|].
  split; [|split].
  - split.
    + intros Hb. destruct (Htrue Hb) as (i & x & Hi & Hc & _).
      exists i, x. split; assumption.
    + intros (i & x & Hi & Hc).
      destruct b; [reflexivity|].
      destruct (Hfalse eq_refl) as [_ Hall].
      specialize (Hall Hsorted i x Hi). simpl in Hall. lia.
  - intros Hb. destruct (Htrue Hb) as (i & x & Hi & Hc & Hcalls & Hbefore).
    exists i, x. repeat split; try assumption.
    intros j y Hj Hy. apply (Hbefore Hsorted j y Hj Hy).
  - intros Hb. apply (Hfalse Hb).
Qed.

End UpperBound.

Example upper_bound_tens_inside :
  type_list.upper_bound difference tens 31%Z tt
  = Some (true, [mk_visit (mk_indexed_type_tag 50%Z 2) 31%Z tt]).
Proof. reflexivity. Qed.

Example upper_bound_tens_above :
  type_list.upper_bound difference tens 70%Z tt = Some (false, []).
Proof. reflexivity. Qed.

Lemma upper_bound_finds_least_above_witness :
  sorted_for difference 31%Z tens /\
  exists b calls,
    type_list.upper_bound difference tens 31%Z tt = Some (b, calls) /\
    (b = true <->
     exists i x, nth_error tens i = Some x /\
                 (difference 31%Z (mk_indexed_type_tag x i) < 0)%Z) /\
    (b = true ->
     exists i x,
       nth_error tens i = Some x /\
       calls = [mk_visit (mk_indexed_type_tag x i) 31%Z tt] /\
       (difference 31%Z (mk_indexed_type_tag x i) < 0)%Z /\
       forall j y, j < i -> nth_error tens j = Some y ->
                   (0 <= difference 31%Z (mk_indexed_type_tag y j))%Z) /\
    (b = false -> calls = []).
Proof.
  assert (H : sorted_for difference 31%Z tens)
    by (apply sorted_forb_sound; reflexivity).
  split; [exact H|].
  exact (@upper_bound_finds_least_above Z Z unit difference 31%Z tt tens H).
Defined.

(** ** The comparers of [fatal/type/list.h] under [binary_search] *)

Section ValueComparer.

Context {T VArgs : Type}.

(** The member [value] of the elements, which are
    [std::integral_constant]-like. *)
Variable value : T -> Z.

Variable args : VArgs.





Lemma index_value_comparer_sign (needle : nat) (t : indexed_type_tag T) :
  index_value_comparer needle t
  = Z.sgn (Z.of_nat needle - Z.of_nat (tag_index t)).
Proof.
  unfold index_value_comparer.
  destruct (Nat.ltb_spec needle (tag_index t)).
  - rewrite Z.sgn_neg by lia. reflexivity.
  - destruct (Nat.ltb_spec (tag_index t) needle).
    + rewrite Z.sgn_pos by lia. reflexivity.
    + replace (Z.of_nat needle - Z.of_nat (tag_index t))%Z with 0%Z by lia.
      reflexivity.
Qed.

(** With [index_value_comparer], which compares the needle with the
    position of an element, every list is sorted, and [exact] with the
    needle [i] calls the visitor with the element at position [i]: it
    returns [true] exactly when [i] is below the size of the list. *)
Theorem exact_with_index_value_comparer (L : list T) (needle : nat) :
  type_list.exact index_value_comparer L needle args
  = match nth_error L needle with
    | Some x =>
        Some (true, [mk_visit (mk_indexed_type_tag x needle) needle args])
    | None => Some (false, [])
    end.
Proof.
  assert (Hsorted : sorted_from (@index_value_comparer T) needle 0 L).
  { intros i j x y Hij _ _.
    rewrite !index_value_comparer_sign. cbn [tag_index].
    rewrite !Z.sgn_sgn.
    destruct (Z.sgn_spec (Z.of_nat needle - Z.of_nat (0 + i)))
      as [[? ->]|[[? ->]|[? ->]]];
      destruct (Z.sgn_spec (Z.of_nat needle - Z.of_nat (0 + j)))
        as [[? ->]|[[? ->]|[? ->]]];
      lia. }
  assert (Hzero : forall (x : T) i,
             index_value_comparer needle (mk_indexed_type_tag x i) = 0%Z
             <-> i = needle).
  { intros x i. rewrite index_value_comparer_sign. cbn [tag_index].
    rewrite Z.sgn_null_iff. lia. }
  destruct (exact_window (@index_value_comparer T) needle args L 0)
    as (b & calls & Hrun & Htrue & Hfalse).
  unfold type_list.exact. rewrite Hrun.
  destruct b.
  - destruct (Htrue eq_refl) as (i & x & Hi & Hc & Hcalls).
    apply Hzero in Hc. simpl in Hc. subst i.
    rewrite Hi, Hcalls. reflexivity.
  - destruct (Hfalse eq_refl) as [Hcalls Hnone].
    destruct (nth_error L needle) as [x|] eqn:E.
    + exfalso. apply (Hnone Hsorted needle x E). apply Hzero. reflexivity.
    + rewrite Hcalls. reflexivity.
Qed.

End ValueComparer.


(** * Further properties of [type_map] *)

Section MapLookups.

Context {K V : Type}.

Variable is_same_dec : forall x y : K, {x = y} + {x <> y}.

Variable void : K.

#[local] Abbreviation same := (type_list_impl.is_same is_same_dec).
#[local] Abbreviation lookup := (type_map.find is_same_dec void).
#[local] Abbreviation has := (type_map.contains is_same_dec).

Lemma find_cons (TKey k : K) (v TDefault : V) (M : list (K * V)) :
  lookup TKey TDefault ((k, v) :: M)
  = if same k TKey then v else lookup TKey TDefault M.
Proof.
  unfold type_map.find, type_list.search, type_map.curried_key_filter.
  simpl. destruct (same k TKey); reflexivity.
Qed.

Lemma contains_cons (TKey k : K) (v : V) (M : list (K * V)) :
  has TKey ((k, v) :: M) = if same TKey k then true else has TKey M.
Proof. reflexivity. Qed.

Lemma same_sym (x y : K) : same x y = same y x.
Proof.
  unfold type_list_impl.is_same.
  destruct (is_same_dec x y), (is_same_dec y x); congruence.
Qed.

Lemma same_refl (x : K) : same x x = true.
Proof. apply is_same_true. reflexivity. Qed.

Lemma find_app (TKey : K) (TDefault : V) (M1 M2 : list (K * V)) :
  lookup TKey TDefault (M1 ++ M2)
  = if has TKey M1 then lookup TKey TDefault M1 else lookup TKey TDefault M2.
Proof.
  induction M1 as [|[k v] M1' IH]; [reflexivity|].
  cbn [app]. rewrite !find_cons, contains_cons, (same_sym TKey k).
  destruct (same k TKey); [reflexivity | exact IH].
Qed.

Lemma contains_app (TKey : K) (M1 M2 : list (K * V)) :
  has TKey (M1 ++ M2) = has TKey M1 || has TKey M2.
Proof.
  induction M1 as [|[k v] M1' IH]; [reflexivity|].
  cbn [app]. rewrite !contains_cons.
  destruct (same TKey k); [reflexivity | exact IH].
Qed.

Lemma find_without_key (TKey : K) (TDefault : V) (M : list (K * V)) :
  has TKey M = false -> lookup TKey TDefault M = TDefault.
Proof.
  intros H. apply find_absent. intros Hin.
  apply (proj2 (map_contains_In is_same_dec _ _)) in Hin. congruence.
Qed.

(** X15. Looking a key up after adding a pair: [push_front] puts the new pair
    before every other pair with its key, so that it is the one found;
    [push_back] and [insert] put it behind them, so that it is found only
    when the key was not in the map.  Other keys are found as before. *)
Theorem find_after_adding_a_pair
  (TKey : K) (TMapped : V) (Other : K) (TDefault : V) (M : list (K * V)) :
  lookup TKey TDefault (type_map.push_front M TKey TMapped) = TMapped /\
  lookup TKey TDefault (type_map.push_back M TKey TMapped)
  = (if has TKey M then lookup TKey TDefault M else TMapped) /\
  type_map.insert M TKey TMapped = type_map.push_back M TKey TMapped /\
  (Other <> TKey ->
   lookup Other TDefault (type_map.push_front M TKey TMapped)
   = lookup Other TDefault M /\
   lookup Other TDefault (type_map.push_back M TKey TMapped)
   = lookup Other TDefault M) /\
  has TKey (type_map.push_front M TKey TMapped) = true /\
  has TKey (type_map.push_back M TKey TMapped) = true.
Proof.
  unfold type_map.push_front, type_map.push_back, type_map.insert,
    type_list.push_back.
  split; [rewrite find_cons, same_refl; reflexivity|].
  split; [rewrite find_app, find_cons, same_refl; reflexivity|].
  split; [reflexivity|].
  split.
  - intros Hne.
    assert (Hs : same TKey Other = false) by (apply is_same_false; congruence).
    split.
    + rewrite find_cons, Hs. reflexivity.
    + rewrite find_app, find_cons, Hs.
      destruct (has Other M) eqn:E; [reflexivity|].
      rewrite (@find_without_key _ _ _ E). reflexivity.
  - split.
    + rewrite contains_cons, same_refl. reflexivity.
    + rewrite contains_app, contains_cons, same_refl. apply orb_true_r.
Qed.

(** What [find] yields on the pairs whose key passes a test. *)
Lemma find_in_filtered (q : K -> bool) (TKey : K) (TDefault : V)
  (M : list (K * V)) :
  lookup TKey TDefault (List.filter (fun p => q (fst p)) M)
  = if q TKey then lookup TKey TDefault M else TDefault.
Proof.
  induction M as [|[k v] M' IH]; simpl.
  - destruct (q TKey); reflexivity.
  - destruct (q k) eqn:Ek.
    + rewrite !find_cons, IH.
      destruct (same k TKey) eqn:Es; [|reflexivity].
      apply is_same_true in Es. subst. rewrite Ek. reflexivity.
    + rewrite find_cons, IH.
      destruct (same k TKey) eqn:Es; [|reflexivity].
      apply is_same_true in Es. subst. rewrite Ek. reflexivity.
Qed.

Lemma contains_in_filtered (q : K -> bool) (TKey : K) (M : list (K * V)) :
  has TKey (List.filter (fun p => q (fst p)) M) = q TKey && has TKey M.
Proof.
  induction M as [|[k v] M' IH]; simpl.
  - apply eq_sym, andb_false_r.
  - destruct (q k) eqn:Ek.
    + rewrite !contains_cons, IH.
      destruct (same TKey k) eqn:Es; [|reflexivity].
      apply is_same_true in Es. subst. rewrite Ek. reflexivity.
    + rewrite contains_cons, IH.
      destruct (same TKey k) eqn:Es; [|reflexivity].
      apply is_same_true in Es. subst. rewrite Ek. reflexivity.
Qed.

(** X16. [filter<TFilter>] splits a map into the pairs whose key the filter
    accepts and the others, both in the order of the map: a key is found
    in the part it belongs to as it is found in the map, and is not in the
    other part. *)
Theorem map_filter_splits_by_key (TFilter : K -> bool) (TKey : K)
  (TDefault : V) (M : list (K * V)) :
  let accepted := fst (type_map.filter TFilter M) in
  let rejected := snd (type_map.filter TFilter M) in
  accepted = List.filter (fun p => TFilter (fst p)) M /\
  rejected = List.filter (fun p => negb (TFilter (fst p))) M /\
  (TFilter TKey = true ->
   lookup TKey TDefault accepted = lookup TKey TDefault M /\
   has TKey accepted = has TKey M /\ has TKey rejected = false) /\
  (TFilter TKey = false ->
   lookup TKey TDefault rejected = lookup TKey TDefault M /\
   has TKey rejected = has TKey M /\ has TKey accepted = false).
Proof.
  unfold type_map.filter, type_list.filter, type_map.curried_key_filter.
  rewrite filter_components. cbn [fst snd].
  split; [reflexivity|]. split; [reflexivity|].
  split; intros Hf.
  - rewrite (find_in_filtered TFilter), (contains_in_filtered TFilter),
      (contains_in_filtered (fun k => negb (TFilter k))), Hf.
    repeat split.
  - rewrite (find_in_filtered (fun k => negb (TFilter k))),
      (contains_in_filtered TFilter),
      (contains_in_filtered (fun k => negb (TFilter k))), Hf.
    repeat split.
Qed.

(** [remove<UArgs...>] drops every pair whose key is one of [UArgs...]
    and keeps the others in their order: a removed key is no longer in the
    map, and any other key is found as before. *)
Theorem map_remove_drops_keys (UArgs : list K) (TKey : K) (TDefault : V)
  (M : list (K * V)) :
  type_map.remove is_same_dec UArgs M
  = List.filter (fun p => negb (type_list.contains is_same_dec (fst p) UArgs))
      M /\
  (In TKey UArgs ->
   has TKey (type_map.remove is_same_dec UArgs M) = false /\
   lookup TKey TDefault (type_map.remove is_same_dec UArgs M) = TDefault) /\
  (~ In TKey UArgs ->
   has TKey (type_map.remove is_same_dec UArgs M) = has TKey M /\
   lookup TKey TDefault (type_map.remove is_same_dec UArgs M)
   = lookup TKey TDefault M).
Proof.
  unfold type_map.remove, type_list.filter, type_map.curried_key_filter.
  rewrite filter_components. cbn [snd].
  split; [reflexivity|].
  rewrite (find_in_filtered
             (fun k => negb (type_list.contains is_same_dec k UArgs))),
    (contains_in_filtered
       (fun k => negb (type_list.contains is_same_dec k UArgs))).
  unfold type_list.contains.
  split; intros Hin.
  - apply (proj2 (contains_In is_same_dec _ _)) in Hin. rewrite Hin.
    split; reflexivity.
  - apply (proj2 (contains_false is_same_dec _ _)) in Hin. rewrite Hin.
    split; reflexivity.
Qed.

(** X17. [replace<TKey, TMapped>] changes the mapped type of every pair with
    key [TKey] to [TMapped] and nothing else: the keys stay where they
    are, [TKey] is then mapped to [TMapped] if it is in the map, and any
    other key is found as before. *)
Theorem map_replace_sets_mapped (TKey : K) (TMapped : V) (Other : K)
  (TDefault : V) (M : list (K * V)) :
  type_map.keys (type_map.replace is_same_dec TKey TMapped M)
  = type_map.keys M /\
  (forall k v, In (k, v) (type_map.replace is_same_dec TKey TMapped M) ->
               k = TKey -> v = TMapped) /\
  lookup TKey TDefault (type_map.replace is_same_dec TKey TMapped M)
  = (if has TKey M then TMapped else TDefault) /\
  (Other <> TKey ->
   lookup Other TDefault (type_map.replace is_same_dec TKey TMapped M)
   = lookup Other TDefault M).
Proof.
  unfold type_map.replace.
  split; [apply keys_transform_at|].
  split; [|split].
  - intros k v Hin ->.
    unfold type_map.transform_at in Hin. apply in_map_iff in Hin.
    destruct Hin as ([k' v'] & Heq & _).
    unfold type_map.transform_at_pair, type_map.pair_transform,
      type_map.fixed in Heq. simpl in Heq.
    destruct (same TKey k') eqn:E.
    + inversion Heq. reflexivity.
    + apply is_same_false in E. inversion Heq. congruence.
  - induction M as [|[k v] M' IH]; [reflexivity|].
    unfold type_map.transform_at in *. cbn [map].
    unfold type_map.transform_at_pair at 1.
    unfold type_map.pair_transform, type_map.fixed. cbn [fst snd].
    rewrite contains_cons.
    destruct (same TKey k) eqn:E.
    + apply is_same_true in E. subst.
      rewrite find_cons, same_refl. reflexivity.
    + rewrite find_cons, (same_sym k TKey), E. exact IH.
  - intros Hne.
    induction M as [|[k v] M' IH]; [reflexivity|].
    unfold type_map.transform_at in *. cbn [map].
    unfold type_map.transform_at_pair at 1.
    unfold type_map.pair_transform, type_map.fixed. cbn [fst snd].
    destruct (same TKey k) eqn:E.
    + apply is_same_true in E. subst.
      assert (Hs : same k Other = false)
        by (apply is_same_false; congruence).
      rewrite !find_cons, Hs. exact IH.
    + rewrite !find_cons.
      destruct (same k Other); [reflexivity | exact IH].
Qed.

(** [transform<TMappedTransform>] applies the transform to every mapped
    type and leaves the keys alone: a key is found mapped to the
    transform of what it was mapped to. *)
Theorem map_transform_maps_through {V' : Type} (TMappedTransform : V -> V')
  (TKey : K) (TDefault : V) (M : list (K * V)) :
  type_map.keys (type_map.transform TMappedTransform (fun k => k) M)
  = type_map.keys M /\
  type_map.find is_same_dec void TKey (TMappedTransform TDefault)
    (type_map.transform TMappedTransform (fun k => k) M)
  = TMappedTransform (lookup TKey TDefault M).
Proof.
  unfold type_map.transform, type_map.pair_transform, type_map.keys.
  split.
  - rewrite map_map. apply map_ext. intros [k v]. reflexivity.
  - unfold type_map.find, type_list.search, type_map.curried_key_filter.
    induction M as [|[k v] M' IH]; [reflexivity|].
    simpl. destruct (same k TKey); [reflexivity | exact IH].
Qed.

End MapLookups.

Section MapInvert.

Context {K V : Type}.

(** [invert<>] swaps keys and mapped types, pair by pair, and twice is
    the map itself; with transforms, the keys of the inverted map are the
    transformed mapped types and its mapped types the transformed keys. *)
Theorem map_invert_swaps {K' V' : Type} (TKeyTransform : K -> K')
  (TMappedTransform : V -> V') (M : list (K * V)) :
  type_map.invert (fun v => v) (fun k => k)
    (type_map.invert (fun k => k) (fun v => v) M) = M /\
  type_map.keys (type_map.invert TKeyTransform TMappedTransform M)
  = map TMappedTransform (type_map.mapped M) /\
  type_map.mapped (type_map.invert TKeyTransform TMappedTransform M)
  = map TKeyTransform (type_map.keys M).
Proof.
  unfold type_map.invert, type_map.keys, type_map.mapped,
    type_map.pair_invert, type_map.pair_transform.
  split; [|split].
  - rewrite map_map. rewrite <- (map_id M) at 2.
    apply map_ext. intros [k v]. reflexivity.
  - rewrite !map_map. apply map_ext. intros [k v]. reflexivity.
  - rewrite !map_map. apply map_ext. intros [k v]. reflexivity.
Qed.

End MapInvert.

Section MapOrder.

Context {K V : Type}.

Variable is_same_dec : forall x y : K, {x = y} + {x <> y}.

Variable void : K.

Variable TLessComparer : K -> K -> bool.

#[local] Abbreviation same := (type_list_impl.is_same is_same_dec).
#[local] Abbreviation lookup := (type_map.find is_same_dec void).
#[local] Abbreviation has := (type_map.contains is_same_dec).
#[local] Abbreviation less := TLessComparer.
#[local] Abbreviation by_first :=
  (type_map.type_get_first_comparer (V := V) TLessComparer).

(** [find] looks only at the pairs that have the key. *)
Lemma find_by_key_filter (TKey : K) (TDefault : V) (M : list (K * V)) :
  lookup TKey TDefault M
  = match List.filter (fun p => same (fst p) TKey) M with
    | [] => TDefault
    | p :: _ => snd p
    end.
Proof.
  induction M as [|[k v] M' IH]; [reflexivity|].
  rewrite find_cons. cbn [List.filter fst].
  destruct (same k TKey); [reflexivity | exact IH].
Qed.

Lemma first_comparer_total_order (M : list (K * V)) :
  total_order_on less (type_map.keys M) -> total_order_on by_first M.
Proof.
  intros [Hasym Htrans].
  assert (Hin : forall x, In x M -> In (fst x) (type_map.keys M))
    by (intros x Hx; apply in_map; exact Hx).
  unfold type_map.type_get_first_comparer. split.
  - intros x y Hx Hy. apply Hasym; auto.
  - intros x y z Hx Hy Hz. apply Htrans; auto.
Qed.

Lemma is_sorted_keys (M : list (K * V)) :
  type_list_impl.is_sorted by_first M
  = type_list_impl.is_sorted less (type_map.keys M).
Proof.
  induction M as [|x [|y M'] IH]; [reflexivity | reflexivity |].
  change (type_list_impl.is_sorted by_first (x :: y :: M'))
    with (negb (by_first y x) && type_list_impl.is_sorted by_first (y :: M')).
  rewrite IH. reflexivity.
Qed.

Lemma insert_sorted_keys (TKey : K) (TValue : V) (M : list (K * V)) :
  type_map.keys (type_list_impl.insert_sorted by_first (TKey, TValue) M)
  = type_list_impl.insert_sorted less TKey (type_map.keys M).
Proof.
  unfold type_map.keys.
  induction M as [|[k v] M' IH]; [reflexivity|].
  cbn [type_list_impl.insert_sorted map fst].
  unfold type_map.type_get_first_comparer at 1. cbn [fst].
  destruct (less TKey k); [reflexivity|].
  cbn [map fst]. rewrite IH. reflexivity.
Qed.

(** The pairs with a key are among those equivalent to any pair with
    that key, when the comparer is irreflexive at the key. *)
Lemma key_filter_through_equivalent (TKey : K) (v : V) (l : list (K * V)) :
  less TKey TKey = false ->
  List.filter (fun p => same (fst p) TKey) l
  = List.filter (fun p => same (fst p) TKey)
      (List.filter (equivalent by_first (TKey, v)) l).
Proof.
  intros Hirr. rewrite filter_both. apply filter_ext. intros [k w].
  cbn [fst]. destruct (same k TKey) eqn:E; [|reflexivity].
  apply is_same_true in E. subst.
  unfold equivalent, type_map.type_get_first_comparer. cbn [fst].
  rewrite Hirr. reflexivity.
Qed.

(** X18. [merge_sort<TLessComparer>] on a map sorts the pairs by their keys:
    when the comparer is a strict order on the keys, the result holds the
    same pairs, its keys are sorted, and every key is found mapped as
    before (pairs with equivalent keys keep their order). *)
Theorem map_merge_sort_sorts_by_key (NDEBUG : bool) (M : list (K * V)) :
  total_order_on less (type_map.keys M) ->
  exists S,
    type_map.merge_sort TLessComparer NDEBUG M = Some S /\
    Permutation M S /\
    type_list.is_sorted less (type_map.keys S) = true /\
    forall TKey TDefault,
      lookup TKey TDefault S = lookup TKey TDefault M /\
      has TKey S = has TKey M.
Proof.
  intros Horder.
  pose proof (first_comparer_total_order M Horder) as Hpairs.
  destruct (merge_sort_on NDEBUG Hpairs (incl_refl M))
    as (S & Hrun & Hsorted & Hperm & Hstable).
  exists S. split; [exact Hrun|]. split; [exact Hperm|].
  split.
  - unfold type_list.is_sorted in *. rewrite <- is_sorted_keys. exact Hsorted.
  - intros TKey TDefault.
    assert (Hkeys : In TKey (type_map.keys M) <-> In TKey (type_map.keys S)).
    { unfold type_map.keys. split; apply Permutation_in, Permutation_map.
      - exact Hperm.
      - apply Permutation_sym. exact Hperm. }
    destruct (has TKey M) eqn:E.
    + pose proof (proj1 (map_contains_In is_same_dec _ _) E) as Hin.
      split; [|apply (map_contains_In is_same_dec), Hkeys; exact Hin].
      pose proof Hin as Hin'. unfold type_map.keys in Hin'.
      apply in_map_iff in Hin'. destruct Hin' as ([k v] & Hk & Hx).
      cbn [fst] in Hk. subst k.
      assert (Hirr : less TKey TKey = false).
      { destruct (less TKey TKey) eqn:El; [|reflexivity].
        rewrite <- El. apply (proj1 Horder); assumption. }
      rewrite !find_by_key_filter.
      rewrite (key_filter_through_equivalent v S Hirr),
        (key_filter_through_equivalent v M Hirr), (Hstable _ Hx).
      reflexivity.
    + assert (Hn : ~ In TKey (type_map.keys M)).
      { intros Hin. apply (map_contains_In is_same_dec) in Hin. congruence. }
      split.
      * rewrite (@find_absent _ _ is_same_dec void TKey TDefault M Hn).
        apply find_absent. intros Hin. apply Hn, Hkeys. exact Hin.
      * destruct (has TKey S) eqn:Es; [|reflexivity].
        apply (map_contains_In is_same_dec) in Es. apply Hkeys in Es.
        contradiction.
Qed.

(** X19. [insert_sorted<TKey, TValue, TLessComparer>] puts the pair before the
    first pair whose key is greater: on the keys it is [insert_sorted] of
    the list of keys, so that sorted keys stay sorted; the new key, if it
    was not in the map, is found mapped to [TValue], and every other key
    as before.  [insert_pair_sorted] is the same on a pair. *)
Theorem map_insert_sorted_by_key (TKey : K) (TValue : V) (Other : K)
  (TDefault : V) (M : list (K * V)) :
  let inserted := type_map.insert_sorted TKey TValue TLessComparer M in
  type_map.insert_pair_sorted (TKey, TValue) TLessComparer M = inserted /\
  type_map.keys inserted
  = type_list.insert_sorted less TKey (type_map.keys M) /\
  has TKey inserted = true /\
  (has TKey M = false -> lookup TKey TDefault inserted = TValue) /\
  (Other <> TKey -> lookup Other TDefault inserted = lookup Other TDefault M) /\
  (total_order_on less (TKey :: type_map.keys M) ->
   type_list.is_sorted less (type_map.keys M) = true ->
   type_list.is_sorted less (type_map.keys inserted) = true).
Proof.
  unfold type_map.insert_sorted, type_map.insert_pair_sorted,
    type_list.insert_sorted, type_list.is_sorted.
  cbn zeta.
  split; [reflexivity|]. split; [apply insert_sorted_keys|].
  destruct (insert_sorted_splits by_first (TKey, TValue) M)
    as (before & after & HM & Hins & _ & _).
  rewrite Hins. subst M.
  split; [|split; [|split]].
  - rewrite contains_app, contains_cons, same_refl. apply orb_true_r.
  - intros Habs. rewrite contains_app in Habs.
    apply orb_false_iff in Habs. destruct Habs as [Hb _].
    rewrite find_app, Hb, find_cons, same_refl. reflexivity.
  - intros Hne.
    assert (Hs : same TKey Other = false) by (apply is_same_false; congruence).
    rewrite !find_app, find_cons, Hs. reflexivity.
  - intros Horder Hsorted. rewrite <- Hins, insert_sorted_keys.
    rewrite insert_sorted_is_merge.
    apply (merge_sorted Horder).
    + intros x [<-|[]]. left. reflexivity.
    + apply incl_tl, incl_refl.
    + reflexivity.
    + exact Hsorted.
Qed.

Section MapVisit.

Variable visit_not_found : V.

Variable is_same_mapped_dec : forall x y : V, {x = y} + {x <> y}.

(** X20. [visit<TKey>(visitor, args...)] calls the visitor once, with the pair
    of the key and the type [find] gives for it, and returns [true]; it
    calls nothing and returns [false] when [find] gives
    [visit_not_found], as it does for a key that is not in the map. *)
Theorem map_visit_calls_for_found_key (TKey : K) (M : list (K * V)) :
  let result :=
    type_map.visit is_same_dec visit_not_found is_same_mapped_dec void TKey M
  in
  (fst result = true <-> lookup TKey visit_not_found M <> visit_not_found) /\
  (fst result = true ->
   exists TMapped,
     snd result = [(TKey, TMapped)] /\ TMapped <> visit_not_found /\
     first_pair TKey TMapped M) /\
  (fst result = false -> snd result = []) /\
  (has TKey M = false -> result = (false, [])).
Proof.
  unfold type_map.visit. cbn zeta.
  destruct (type_list_impl.is_same is_same_mapped_dec
              (lookup TKey visit_not_found M) visit_not_found) eqn:E.
  - apply is_same_true in E. cbn [fst snd].
    split; [split; [discriminate | congruence]|].
    split; [discriminate|]. split; reflexivity.
  - apply is_same_false in E. cbn [fst snd].
    split; [split; [intros _; exact E | reflexivity]|].
    split; [|split; [discriminate|]].
    + intros _. exists (lookup TKey visit_not_found M).
      split; [reflexivity|]. split; [exact E|].
      apply find_present.
      destruct (has TKey M) eqn:Eh.
      * apply (map_contains_In is_same_dec). exact Eh.
      * exfalso. apply E. apply find_without_key. exact Eh.
    + intros Eh. exfalso. apply E. apply find_without_key. exact Eh.
Qed.

End MapVisit.

End MapOrder.

Lemma map_merge_sort_sorts_by_key_witness :
  total_order_on Nat.ltb (type_map.keys [(3, 30); (1, 10); (2, 20); (1, 11)])
  /\ exists S,
    type_map.merge_sort Nat.ltb false [(3, 30); (1, 10); (2, 20); (1, 11)]
    = Some S /\
    Permutation [(3, 30); (1, 10); (2, 20); (1, 11)] S /\
    type_list.is_sorted Nat.ltb (type_map.keys S) = true /\
    forall TKey TDefault,
      type_map.find Nat.eq_dec 0 TKey TDefault S
      = type_map.find Nat.eq_dec 0 TKey TDefault
          [(3, 30); (1, 10); (2, 20); (1, 11)] /\
      type_map.contains Nat.eq_dec TKey S
      = type_map.contains Nat.eq_dec TKey
          [(3, 30); (1, 10); (2, 20); (1, 11)].
Proof.
  assert (H : total_order_on Nat.ltb
                (type_map.keys [(3, 30); (1, 10); (2, 20); (1, 11)])).
  { split.
    - intros x y _ _ H. apply Nat.ltb_lt in H. apply Nat.ltb_ge. lia.
    - intros x y z _ _ _ H1 H2.
      apply Nat.ltb_ge in H1, H2. apply Nat.ltb_ge. lia. }
  split; [exact H|].
  exact (@map_merge_sort_sorts_by_key nat nat Nat.eq_dec 0 Nat.ltb false
           [(3, 30); (1, 10); (2, 20); (1, 11)] H).
Defined.

Section MapSearch.

Context {K V Needle VArgs : Type}.

Variable compare : Needle -> indexed_type_tag K -> Z.

Variable needle : Needle.

Variable args : VArgs.

#[local] Abbreviation on_pairs :=
  (type_map.binary_search_comparer (V := V) compare).

(** A map whose keys are sorted for a needle is sorted for it as a list
    of pairs, under the comparer that looks at the keys. *)
Lemma sorted_keys_sorted_pairs (M : list (K * V)) :
  sorted_for compare needle (type_map.keys M) ->
  sorted_for on_pairs needle M.
Proof.
  unfold sorted_for, sorted_from, type_map.keys,
    type_map.binary_search_comparer.
  intros H i j x y Hij Hx Hy. cbn [tag_type tag_index].
  apply (H i j (fst x) (fst y) Hij).
  - rewrite nth_error_map, Hx. reflexivity.
  - rewrite nth_error_map, Hy. reflexivity.
Qed.

(** X21. [binary_search<TComparer>::exact] on a map compares the needle with
    the keys: on a map whose keys are sorted for the needle it returns
    [true] exactly when some key compares equal, and then the visitor is
    called once, with the pair of that key and its position. *)
Theorem map_exact_searches_the_keys (M : list (K * V)) :
  sorted_for compare needle (type_map.keys M) ->
  exists b calls,
    type_map.exact compare M needle args = Some (b, calls) /\
    (b = true <->
     exists i k v, nth_error M i = Some (k, v) /\
                   compare needle (mk_indexed_type_tag k i) = 0%Z) /\
    (b = true ->
     exists i k v, nth_error M i = Some (k, v) /\
                   compare needle (mk_indexed_type_tag k i) = 0%Z /\
                   calls = [mk_visit (mk_indexed_type_tag (k, v) i)
                              needle args]) /\
    (b = false -> calls = []).
Proof.
  intros Hsorted. apply sorted_keys_sorted_pairs in Hsorted.
  destruct (exact_window on_pairs needle args M 0)
    as (b & calls & Hrun & Htrue & Hfalse).
  exists b, calls. split; [exact Hrun|].
  split; [|split].
  - split.
    + intros Hb. destruct (Htrue Hb) as (i & [k v] & Hi & Hc & _).
      exists i, k, v. split; assumption.
    + intros (i & k & v & Hi & Hc).
      destruct b; [reflexivity|].
      destruct (Hfalse eq_refl) as [_ Hnone].
      exfalso. apply (Hnone Hsorted i (k, v) Hi). exact Hc.
  - intros Hb. destruct (Htrue Hb) as (i & [k v] & Hi & Hc & Hcalls).
    exists i, k, v. split; [exact Hi|]. split; [exact Hc|]. exact Hcalls.
  - intros Hb. apply (Hfalse Hb).
Qed.

End MapSearch.

Lemma map_exact_searches_the_keys_witness :
  sorted_for difference 50%Z
    (type_map.keys [(10, true); (30, false); (50, true); (70, false)]%Z) /\
  exists b calls,
    type_map.exact difference
      [(10, true); (30, false); (50, true); (70, false)]%Z 50%Z tt
    = Some (b, calls) /\
    (b = true <->
     exists i k v,
       nth_error [(10, true); (30, false); (50, true); (70, false)]%Z i
       = Some (k, v) /\
       difference 50%Z (mk_indexed_type_tag k i) = 0%Z) /\
    (b = true ->
     exists i k v,
       nth_error [(10, true); (30, false); (50, true); (70, false)]%Z i
       = Some (k, v) /\
       difference 50%Z (mk_indexed_type_tag k i) = 0%Z /\
       calls = [mk_visit (mk_indexed_type_tag (k, v) i) 50%Z tt]) /\
    (b = false -> calls = []).
Proof.
  assert (H : sorted_for difference 50%Z
                (type_map.keys
                   [(10, true); (30, false); (50, true); (70, false)]%Z)).
  { apply sorted_forb_sound. reflexivity. }
  split; [exact H|].
  exact (@map_exact_searches_the_keys Z bool Z unit difference 50%Z tt
           [(10, true); (30, false); (50, true); (70, false)]%Z H).
Defined.

Example map_exact_finds_the_pair :
  type_map.exact difference
    [(10, true); (30, false); (50, true); (70, false)]%Z 50%Z tt
  = Some (true, [mk_visit (mk_indexed_type_tag (50%Z, true) 2) 50%Z tt]).
Proof. reflexivity. Qed.

Section MapBuilder.

Context {T : Type}.

(** The flat list of the keys and mapped types of a map, as
    [build_type_map] takes them. *)
Definition flat_pairs (M : list (T * T)) : list T :=
  flat_map (fun p => [fst p; snd p]) M.

Lemma skip_even_flat (M : list (T * T)) :
  type_list_impl.skip 0 1 (flat_pairs M) = map fst M.
Proof.
  induction M as [|[k v] M' IH]; [reflexivity|].
  simpl. f_equal. exact IH.
Qed.

Lemma skip_odd_flat (v : T) (M : list (T * T)) :
  type_list_impl.skip 0 1 (v :: flat_pairs M) = v :: map (@snd T T) M.
Proof.
  revert v. induction M as [|[k w] M' IH]; intros v; [reflexivity|].
  simpl. f_equal. apply IH.
Qed.

Lemma pairwise_pair (M : list (T * T)) :
  pairwise pair (map fst M) (map snd M) = M.
Proof.
  unfold pairwise.
  induction M as [|[k v] M' IH]; [reflexivity|].
  simpl. f_equal. exact IH.
Qed.

Lemma build_flat (M : list (T * T)) :
  type_map.build_type_map (flat_pairs M) = Some M.
Proof.
  unfold type_map.build_type_map, type_list.unzip, type_list.tail,
    type_list.size, type_list.combine.
  destruct M as [|[k v] M'].
  - reflexivity.
  - change (flat_pairs ((k, v) :: M')) with (k :: v :: flat_pairs M').
    change (length (k :: v :: flat_pairs M'))
      with (S (S (length (flat_pairs M')))).
    change (0 <? S (S (length (flat_pairs M')))) with true.
    change (1 <? S (S (length (flat_pairs M'))))
      with (0 <? S (length (flat_pairs M'))).
    change (0 <? S (length (flat_pairs M'))) with true.
    cbv iota.
    change (type_list_impl.tail 0 (k :: v :: flat_pairs M'))
      with (Some (k :: v :: flat_pairs M')).
    change (type_list_impl.tail 1 (k :: v :: flat_pairs M'))
      with (Some (v :: flat_pairs M')).
    cbn [bind].
    change (k :: v :: flat_pairs M') with (flat_pairs ((k, v) :: M')).
    rewrite skip_even_flat, skip_odd_flat.
    change (v :: map snd M') with (map snd ((k, v) :: M')).
    rewrite !length_map, Nat.eqb_refl. cbn [static_assert bind].
    rewrite (combine_from pair (map snd ((k, v) :: M'))
               (map fst ((k, v) :: M')) (Nat.le_0_l _)).
    rewrite !length_map, Nat.sub_0_r, Nat.eqb_refl.
    cbn [skipn]. rewrite pairwise_pair. reflexivity.
Qed.

Lemma skip_length (l : list T) :
  length (type_list_impl.skip 0 1 l) = (length l + 1) / 2 /\
  length (type_list_impl.skip 1 1 l) = length l / 2.
Proof.
  induction l as [|x l' [IH0 IH1]]; [split; reflexivity|].
  split.
  - change (type_list_impl.skip 0 1 (x :: l'))
      with (x :: type_list_impl.skip 1 1 l').
    cbn [length]. rewrite IH1.
    replace (S (length l') + 1) with (length l' + 1 * 2) by lia.
    rewrite Nat.div_add by lia. lia.
  - change (type_list_impl.skip 1 1 (x :: l'))
      with (type_list_impl.skip 0 1 l').
    rewrite IH0. cbn [length]. f_equal. lia.
Qed.

Lemma even_flat (n : nat) (l : list T) :
  length l = 2 * n -> exists M, l = flat_pairs M.
Proof.
  revert l. induction n as [|n IH]; intros l Hl.
  - destruct l; [|discriminate]. exists []. reflexivity.
  - destruct l as [|k [|v l']]; try (simpl in Hl; lia).
    destruct (IH l') as [M HM]; [simpl in Hl; lia|].
    exists ((k, v) :: M). rewrite HM. reflexivity.
Qed.

(** X22. [build_type_map<Args...>] takes keys and mapped types by turns: the
    flat list of a map gives that map back; a list of odd size is
    rejected by the [static_assert]; and every list of even size is the
    flat list of the map that is built. *)
Theorem build_type_map_pairs_up (args : list T) :
  (forall M, type_map.build_type_map (flat_pairs M) = Some M) /\
  (Nat.even (type_list.size args) = true ->
   exists M, type_map.build_type_map args = Some M /\ args = flat_pairs M) /\
  (Nat.even (type_list.size args) = false ->
   type_map.build_type_map args = None).
Proof.
  split; [exact build_flat|]. split.
  - intros Heven. apply Nat.even_spec in Heven. destruct Heven as [n Hn].
    destruct (even_flat n args Hn) as [M HM].
    exists M. split; [|exact HM]. rewrite HM. apply build_flat.
  - intros Hodd.
    assert (Ho : Nat.odd (length args) = true).
    { unfold type_list.size in Hodd. rewrite <- Nat.negb_even, Hodd.
      reflexivity. }
    apply Nat.odd_spec in Ho. destruct Ho as [n Hn].
    unfold type_map.build_type_map, type_list.unzip, type_list.tail,
      type_list.size.
    destruct args as [|x l]; [simpl in Hn; lia|].
    change (0 <? length (x :: l)) with true. cbv iota.
    change (type_list_impl.tail 0 (x :: l)) with (Some (x :: l)).
    cbn [bind].
    assert (Htail : type_list_impl.tail
                      (if 1 <? length (x :: l) then 1 else length (x :: l))
                      (x :: l) = Some l).
    { destruct l as [|y l']; reflexivity. }
    rewrite Htail. cbn [bind].
    destruct (skip_length (x :: l)) as [H0 _].
    destruct (skip_length l) as [H1 _].
    rewrite H0, H1. cbn [length] in *.
    assert (Hl : length l = 2 * n) by lia.
    rewrite Hl.
    replace (S (2 * n) + 1) with (0 + (n + 1) * 2) by lia.
    replace (2 * n + 1) with (1 + n * 2) by lia.
    rewrite !Nat.div_add by lia.
    change (0 / 2) with 0. change (1 / 2) with 0.
    assert (Hne : (0 + (n + 1) =? 0 + n) = false)
      by (apply Nat.eqb_neq; lia).
    rewrite Hne. reflexivity.
Qed.

End MapBuilder.

(** * Further properties of [flag_set] *)

Section FlagSetFacts.

Context {Flag : Type}.

Variable is_same_dec : forall x y : Flag, {x = y} + {x <> y}.

Variable flags_bits : nat -> nat.

#[local] Abbreviation index_of := (type_list.index_of is_same_dec).
#[local] Abbreviation instantiate := (flag_set.instantiate flags_bits).
#[local] Abbreviation mask_for := (flag_set.mask_for is_same_dec flags_bits).
#[local] Abbreviation flag_mask := (flag_set.flag_mask is_same_dec flags_bits).
#[local] Abbreviation is_set := (flag_set.is_set is_same_dec flags_bits).

(** The bit of a flag in the integral representation. *)
Definition bit_of (tag_list : list Flag) (UFlag : Flag) : Z :=
  Z.of_nat (index_of UFlag tag_list).

(** The [static_assert] of the class holds. *)
Definition fits (tag_list : list Flag) : Prop :=
  type_list.size tag_list <= flags_bits (type_list.size tag_list).

Lemma instantiate_fits (tag_list : list Flag) :
  instantiate tag_list = flag_set.ok tt <-> fits tag_list.
Proof.
  unfold flag_set.instantiate, flag_set.enable_if, fits.
  destruct (type_list.size tag_list <=? flags_bits (type_list.size tag_list))
    eqn:E.
  - apply Nat.leb_le in E. tauto.
  - apply Nat.leb_gt in E. split; [discriminate | lia].
Qed.

Lemma instantiate_cases (tag_list : list Flag) :
  (instantiate tag_list = flag_set.ok tt /\ fits tag_list) \/
  instantiate tag_list = flag_set.ill_formed.
Proof.
  destruct (instantiate tag_list) as [[]| |] eqn:E.
  - left. split; [reflexivity | apply instantiate_fits; exact E].
  - right. reflexivity.
  - unfold flag_set.instantiate, flag_set.enable_if in E.
    destruct (_ <=? _); discriminate.
Qed.

Lemma index_of_lt (tag_list : list Flag) (UFlag : Flag) :
  In UFlag tag_list -> index_of UFlag tag_list < type_list.size tag_list.
Proof.
  intros Hin. destruct (@index_of_present _ is_same_dec _ _ Hin) as [Hat _].
  apply nth_error_Some. unfold type_list.size. congruence.
Qed.

Lemma index_of_inj (tag_list : list Flag) (F G : Flag) :
  In F tag_list -> In G tag_list ->
  index_of F tag_list = index_of G tag_list -> F = G.
Proof.
  intros HF HG Heq.
  destruct (@index_of_present _ is_same_dec _ _ HF) as [HatF _].
  destruct (@index_of_present _ is_same_dec _ _ HG) as [HatG _].
  rewrite Heq in HatF. congruence.
Qed.

Lemma flag_mask_member (tag_list : list Flag) (IgnoreUnsupported : bool)
  (UFlag : Flag) :
  fits tag_list -> In UFlag tag_list ->
  flag_mask tag_list IgnoreUnsupported UFlag
  = flag_set.ok (2 ^ bit_of tag_list UFlag)%Z.
Proof.
  intros Hfits Hin. unfold flag_set.flag_mask, type_list.contains.
  rewrite (proj2 (contains_In is_same_dec _ _) Hin), orb_true_r.
  pose proof (@index_of_lt tag_list UFlag Hin) as Hlt.
  rewrite (proj2 (Nat.ltb_lt _ _) Hlt).
  cbn [flag_set.enable_if flag_set.and_then]. f_equal.
  unfold flag_set.flags_type, bit_of. rewrite Z.shiftl_1_l.
  apply Z.mod_small. split; [apply Z.pow_nonneg; lia|].
  apply Z.pow_lt_mono_r; unfold fits in Hfits; lia.
Qed.

Lemma flag_mask_ignored (tag_list : list Flag) (UFlag : Flag) :
  ~ In UFlag tag_list -> flag_mask tag_list true UFlag = flag_set.ok 0%Z.
Proof.
  intros Hout. unfold flag_set.flag_mask.
  rewrite (@index_of_absent _ is_same_dec _ _ Hout), Nat.ltb_irrefl.
  reflexivity.
Qed.

Lemma flag_mask_rejected (tag_list : list Flag) (UFlag : Flag) :
  ~ In UFlag tag_list ->
  flag_mask tag_list false UFlag = flag_set.ill_formed.
Proof.
  intros Hout. unfold flag_set.flag_mask, type_list.contains.
  rewrite (proj2 (contains_false is_same_dec _ _) Hout). reflexivity.
Qed.

Lemma flag_mask_cases (tag_list : list Flag) (IgnoreUnsupported : bool)
  (UFlag : Flag) :
  (exists m, flag_mask tag_list IgnoreUnsupported UFlag = flag_set.ok m) \/
  flag_mask tag_list IgnoreUnsupported UFlag = flag_set.ill_formed.
Proof.
  unfold flag_set.flag_mask.
  destruct (IgnoreUnsupported
            || type_list.contains is_same_dec UFlag tag_list);
    [left; eexists; reflexivity | right; reflexivity].
Qed.

Lemma mask_for_rejected (tag_list UFlags : list Flag) (UFlag : Flag) :
  In UFlag UFlags -> ~ In UFlag tag_list ->
  mask_for tag_list false UFlags = flag_set.ill_formed.
Proof.
  intros Hin Hout.
  induction UFlags as [|u us IH]; [destruct Hin|].
  cbn [flag_set.mask_for].
  destruct Hin as [->|Hin].
  - rewrite (@flag_mask_rejected tag_list UFlag Hout). reflexivity.
  - destruct (flag_mask_cases tag_list false u) as [[m Hm]|Hm]; rewrite Hm;
      [|reflexivity].
    cbn [flag_set.and_then]. rewrite (IH Hin). reflexivity.
Qed.

Lemma mask_for_supported (tag_list UFlags : list Flag) (m : Z) :
  mask_for tag_list false UFlags = flag_set.ok m -> incl UFlags tag_list.
Proof.
  intros Hm u Hu.
  destruct (in_dec is_same_dec u tag_list) as [Hin|Hout]; [exact Hin|].
  rewrite (@mask_for_rejected tag_list UFlags u Hu Hout) in Hm. discriminate.
Qed.

(** The mask of supported flags has the bits of these flags and no
    other. *)
Lemma mask_for_members (tag_list : list Flag) (IgnoreUnsupported : bool)
  (UFlags : list Flag) :
  fits tag_list -> incl UFlags tag_list ->
  exists m,
    mask_for tag_list IgnoreUnsupported UFlags = flag_set.ok m /\
    forall k, (0 <= k)%Z ->
      (Z.testbit m k = true <->
       exists u, In u UFlags /\ bit_of tag_list u = k).
Proof.
  intros Hfits.
  induction UFlags as [|u us IH]; intros Hincl.
  - exists 0%Z. split; [reflexivity|].
    intros k _. rewrite Z.bits_0.
    split; [discriminate | intros (u & [] & _)].
  - destruct IH as (rest & Hrest & Hbits).
    { intros x Hx. apply Hincl. right. exact Hx. }
    exists (Z.lor (2 ^ bit_of tag_list u) rest).
    split.
    + cbn [flag_set.mask_for].
      rewrite (@flag_mask_member tag_list IgnoreUnsupported u Hfits
                 (Hincl u (or_introl eq_refl))).
      cbn [flag_set.and_then]. rewrite Hrest. reflexivity.
    + intros k Hk. rewrite Z.lor_spec, orb_true_iff, (Hbits k Hk).
      rewrite Z.pow2_bits_eqb by (unfold bit_of; lia).
      rewrite Z.eqb_eq.
      split.
      * intros [H|(x & Hx & Hb)].
        -- exists u. split; [left; reflexivity | exact H].
        -- exists x. split; [right; exact Hx | exact Hb].
      * intros (x & [<-|Hx] & Hb).
        -- left. exact Hb.
        -- right. exists x. split; assumption.
Qed.

Lemma mask_for_member_bit (tag_list : list Flag) (IgnoreUnsupported : bool)
  (UFlags : list Flag) (m : Z) (F : Flag) :
  fits tag_list -> incl UFlags tag_list ->
  mask_for tag_list IgnoreUnsupported UFlags = flag_set.ok m ->
  In F tag_list ->
  (Z.testbit m (bit_of tag_list F) = true <-> In F UFlags).
Proof.
  intros Hfits Hincl Hm HF.
  destruct (@mask_for_members tag_list IgnoreUnsupported UFlags Hfits Hincl)
    as (m' & Hm' & Hbits).
  rewrite Hm in Hm'. injection Hm' as <-.
  rewrite Hbits by (unfold bit_of; lia).
  split.
  - intros (u & Hu & Hb). unfold bit_of in Hb.
    apply Nat2Z.inj in Hb.
    rewrite <- (@index_of_inj tag_list u F (Hincl u Hu) HF Hb). exact Hu.
  - intros Hin. exists F. split; [exact Hin | reflexivity].
Qed.

(** [(flags & mask) == mask]: every bit of the mask is in the flags. *)
Lemma covers_bits (f m : Z) :
  (Z.land f m =? m)%Z = true <->
  forall k, (0 <= k)%Z -> Z.testbit m k = true -> Z.testbit f k = true.
Proof.
  rewrite Z.eqb_eq. split.
  - intros H k Hk Hm.
    apply (f_equal (fun x => Z.testbit x k)) in H.
    rewrite Z.land_spec, Hm, andb_true_r in H. exact H.
  - intros H. apply Z.bits_inj'. intros k Hk.
    rewrite Z.land_spec.
    destruct (Z.testbit m k) eqn:E; [|apply andb_false_r].
    rewrite (H k Hk E). reflexivity.
Qed.

Lemma covers_pow2 (f k : Z) :
  (0 <= k)%Z -> (Z.land f (2 ^ k) =? 2 ^ k)%Z = Z.testbit f k.
Proof.
  intros Hk. apply eq_true_iff_eq. rewrite covers_bits. split.
  - intros H. apply (H k Hk). rewrite Z.pow2_bits_eqb by lia.
    apply Z.eqb_refl.
  - intros H i Hi Hb. rewrite Z.pow2_bits_eqb in Hb by lia.
    apply Z.eqb_eq in Hb. subst. exact H.
Qed.

Lemma is_set_member (tag_list : list Flag) (F : Flag) (s : flag_set.t) :
  fits tag_list -> In F tag_list ->
  is_set tag_list [F] s
  = flag_set.ok (Z.testbit (flag_set.flags_ s) (bit_of tag_list F)).
Proof.
  intros Hfits Hin. unfold flag_set.is_set.
  rewrite (proj2 (instantiate_fits tag_list) Hfits).
  cbn [flag_set.and_then flag_set.mask_for].
  rewrite (@flag_mask_member tag_list false F Hfits Hin).
  cbn [flag_set.and_then]. rewrite Z.lor_0_r.
  rewrite covers_pow2 by (unfold bit_of; lia). reflexivity.
Qed.

Lemma is_set_inv (tag_list UFlags : list Flag) (s : flag_set.t) (b : bool) :
  is_set tag_list UFlags s = flag_set.ok b ->
  fits tag_list /\
  exists m, mask_for tag_list false UFlags = flag_set.ok m /\
            b = (Z.land (flag_set.flags_ s) m =? m)%Z.
Proof.
  unfold flag_set.is_set. intros H.
  destruct (instantiate_cases tag_list) as [[Hi Hfits]|Hi]; rewrite Hi in H;
    [|discriminate].
  split; [exact Hfits|]. cbn [flag_set.and_then] in H.
  destruct (mask_for tag_list false UFlags) as [m| |]; try discriminate.
  exists m. split; [reflexivity|].
  cbn [flag_set.and_then] in H. congruence.
Qed.

(** [is_set<UFlags...>()] on supported flags: the flags of [UFlags] all
    have their bits in [flags_]. *)
Lemma is_set_all (tag_list UFlags : list Flag) (s : flag_set.t) :
  fits tag_list -> incl UFlags tag_list ->
  is_set tag_list UFlags s
  = flag_set.ok
      (forallb (fun u => Z.testbit (flag_set.flags_ s) (bit_of tag_list u))
         UFlags).
Proof.
  intros Hfits Hincl. unfold flag_set.is_set.
  rewrite (proj2 (instantiate_fits tag_list) Hfits).
  destruct (@mask_for_members tag_list false UFlags Hfits Hincl)
    as (m & Hm & Hbits).
  rewrite Hm. cbn [flag_set.and_then]. f_equal.
  apply eq_true_iff_eq. rewrite covers_bits, forallb_forall. split.
  - intros H u Hu. apply H; [unfold bit_of; lia|].
    apply Hbits; [unfold bit_of; lia|]. exists u. split; [exact Hu | reflexivity].
  - intros H k Hk Hb. apply (Hbits k Hk) in Hb.
    destruct Hb as (u & Hu & <-). apply H. exact Hu.
Qed.

#[local] Abbreviation set := (flag_set.set is_same_dec flags_bits).
#[local] Abbreviation reset := (flag_set.reset is_same_dec flags_bits).

Lemma set_inv (tag_list UFlags : list Flag) (s s' : flag_set.t) :
  set tag_list UFlags s = flag_set.ok s' ->
  fits tag_list /\
  exists m, mask_for tag_list false UFlags = flag_set.ok m /\
            s' = flag_set.mk (Z.lor (flag_set.flags_ s) m).
Proof.
  unfold flag_set.set. intros H.
  destruct (instantiate_cases tag_list) as [[Hi Hfits]|Hi]; rewrite Hi in H;
    [|discriminate].
  split; [exact Hfits|]. cbn [flag_set.and_then] in H.
  destruct (mask_for tag_list false UFlags) as [m| |]; try discriminate.
  exists m. split; [reflexivity|].
  cbn [flag_set.and_then] in H. cbv zeta in H.
  destruct (flag_set.assert _); cbn [flag_set.and_then] in H;
    congruence.
Qed.

(** After [set<UFlags...>()] a supported flag is set when it is one of
    [UFlags] or was set before. *)
Lemma set_flag_iff (tag_list UFlags : list Flag) (s s' : flag_set.t)
  (F : Flag) :
  set tag_list UFlags s = flag_set.ok s' -> In F tag_list ->
  (is_set tag_list [F] s' = flag_set.ok true <->
   In F UFlags \/ is_set tag_list [F] s = flag_set.ok true).
Proof.
  intros Hset HF.
  destruct (@set_inv tag_list UFlags s s' Hset) as (Hfits & m & Hm & ->).
  pose proof (@mask_for_supported tag_list UFlags m Hm) as Hincl.
  rewrite !(@is_set_member tag_list F _ Hfits HF).
  cbn [flag_set.flags_]. rewrite Z.lor_spec.
  pose proof (@mask_for_member_bit tag_list false UFlags m F Hfits Hincl Hm HF)
    as Hbit.
  split.
  - intros H. injection H as H. apply orb_true_iff in H.
    destruct H as [H|H]; [right; rewrite H; reflexivity|].
    left. apply Hbit. exact H.
  - intros [H|H].
    + rewrite (proj2 Hbit H), orb_true_r. reflexivity.
    + injection H as H. rewrite H. reflexivity.
Qed.

Lemma tagged_from_types (Index : nat) (l : list Flag) :
  map (@tag_type Flag) (tagged_from Index l) = l.
Proof.
  revert Index. induction l as [|x l' IH]; intros Index; [reflexivity|].
  simpl. rewrite IH. reflexivity.
Qed.

(** [foreach] visits the flags of the foreign set, each once. *)
Lemma foreach_types (UFlags : list Flag) :
  map (@tag_type Flag) (snd (type_list.foreach UFlags)) = UFlags.
Proof.
  unfold type_list.foreach, type_list.foreach_if. cbn [snd].
  rewrite foreach_if_from. cbn [snd].
  rewrite <- (tagged_from_types 0 UFlags) at 2. f_equal.
  induction (tagged_from 0 UFlags) as [|c cs IH]; [reflexivity|].
  simpl. rewrite IH. reflexivity.
Qed.

(** The mask that the visitor of [import_foreign] adds for a flag has the
    bit of that flag, if this set supports it, and no other. *)
Lemma ignored_mask_bit (tag_list : list Flag) (u F : Flag) (m : Z) :
  fits tag_list -> In F tag_list ->
  mask_for tag_list true [u] = flag_set.ok m ->
  (Z.testbit m (bit_of tag_list F) = true <-> u = F).
Proof.
  intros Hfits HF Hm. cbn [flag_set.mask_for] in Hm.
  destruct (in_dec is_same_dec u tag_list) as [Hin|Hout].
  - rewrite (@flag_mask_member tag_list true u Hfits Hin) in Hm.
    cbn [flag_set.and_then] in Hm. injection Hm as <-.
    rewrite Z.lor_0_r, Z.pow2_bits_eqb by (unfold bit_of; lia).
    rewrite Z.eqb_eq. unfold bit_of. split.
    + intros H. apply Nat2Z.inj in H.
      apply (@index_of_inj tag_list u F Hin HF H).
    + intros ->. reflexivity.
  - rewrite (@flag_mask_ignored tag_list u Hout) in Hm.
    cbn [flag_set.and_then] in Hm. injection Hm as <-.
    rewrite Z.bits_0. split; [discriminate|].
    intros ->. contradiction.
Qed.

Lemma visitor_inv (tag_list UFlags : list Flag) (c : indexed_type_tag Flag)
  (foreign : flag_set.t) (out out' : Z) :
  flag_set.visitor is_same_dec flags_bits tag_list UFlags c foreign out
  = flag_set.ok out' ->
  exists b m,
    is_set UFlags [tag_type c] foreign = flag_set.ok b /\
    mask_for tag_list true [tag_type c] = flag_set.ok m /\
    out' = if b then Z.lor out m else out.
Proof.
  unfold flag_set.visitor. intros H.
  destruct (is_set UFlags [tag_type c] foreign) as [b| |]; try discriminate.
  cbn [flag_set.and_then] in H.
  destruct (mask_for tag_list true [tag_type c]) as [m| |]; try discriminate.
  cbn [flag_set.and_then] in H.
  exists b, m. repeat split. congruence.
Qed.

(** What the calls of the visitor leave in [out], bit by bit. *)
Lemma visit_each_bits (tag_list UFlags : list Flag)
  (calls : list (indexed_type_tag Flag)) (foreign : flag_set.t)
  (out out' : Z) (F : Flag) :
  fits tag_list -> In F tag_list ->
  flag_set.visit_each is_same_dec flags_bits tag_list UFlags calls foreign out
  = flag_set.ok out' ->
  (Z.testbit out' (bit_of tag_list F) = true <->
   Z.testbit out (bit_of tag_list F) = true \/
   (In F (map (@tag_type Flag) calls) /\
    is_set UFlags [F] foreign = flag_set.ok true)).
Proof.
  intros Hfits HF. revert out.
  induction calls as [|c cs IH]; intros out H.
  - cbn [flag_set.visit_each] in H. injection H as <-.
    cbn [map In]. tauto.
  - cbn [flag_set.visit_each] in H.
    destruct (flag_set.visitor is_same_dec flags_bits tag_list UFlags c
                foreign out) as [out1| |] eqn:Hv; try discriminate.
    cbn [flag_set.and_then] in H.
    rewrite (IH out1 H). cbn [map In].
    destruct (@visitor_inv tag_list UFlags c foreign out out1 Hv)
      as (b & m & Hb & Hm & ->).
    pose proof (@ignored_mask_bit tag_list (tag_type c) F m Hfits HF Hm)
      as Hbit.
    destruct b.
    + rewrite Z.lor_spec, orb_true_iff, Hbit. split.
      * intros [[H1|H1]|H1]; [left; exact H1 | | tauto].
        right. split; [left; exact H1 | rewrite <- H1; exact Hb].
      * intros [H1|[[H1|H1] H2]]; [tauto | tauto | tauto].
    + split; [tauto|].
      intros [H1|[[H1|H1] H2]]; [tauto | | tauto].
      rewrite <- H1 in H2. congruence.
Qed.

Lemma foreign_ctor_inv (tag_list UFlags : list Flag)
  (other s' : flag_set.t) :
  flag_set.foreign_ctor is_same_dec flags_bits tag_list UFlags other
  = flag_set.ok s' ->
  fits tag_list /\
  flag_set.visit_each is_same_dec flags_bits tag_list UFlags
    (snd (type_list.foreach UFlags)) other 0
  = flag_set.ok (flag_set.flags_ s').
Proof.
  unfold flag_set.foreign_ctor, flag_set.import. intros H.
  destruct (instantiate_cases tag_list) as [[Hi Hfits]|Hi]; rewrite Hi in H;
    [|discriminate].
  split; [exact Hfits|]. cbn [flag_set.and_then] in H.
  destruct (flag_set.visit_each is_same_dec flags_bits tag_list UFlags
              (snd (type_list.foreach UFlags)) other 0) as [f| |];
    try discriminate.
  cbn [flag_set.and_then] in H.
  destruct (flag_set.assert _); cbn [flag_set.and_then] in H;
    try discriminate.
  injection H as <-. reflexivity.
Qed.

(** After construction from a foreign set, a supported flag is set when
    the foreign set supports it and has it set. *)
Lemma foreign_flag_iff (tag_list UFlags : list Flag)
  (other s' : flag_set.t) (F : Flag) :
  flag_set.foreign_ctor is_same_dec flags_bits tag_list UFlags other
  = flag_set.ok s' ->
  In F tag_list ->
  (is_set tag_list [F] s' = flag_set.ok true <->
   In F UFlags /\ is_set UFlags [F] other = flag_set.ok true).
Proof.
  intros H HF.
  destruct (@foreign_ctor_inv tag_list UFlags other s' H) as [Hfits Hrun].
  rewrite (@is_set_member tag_list F s' Hfits HF).
  pose proof (@visit_each_bits tag_list UFlags _ other 0 _ F Hfits HF Hrun)
    as Hbits.
  rewrite foreach_types, Z.bits_0 in Hbits.
  split.
  - intros E. injection E as E. apply Hbits in E.
    destruct E as [E|E]; [discriminate | exact E].
  - intros E. rewrite (proj2 Hbits (or_intror E)). reflexivity.
Qed.

Lemma set_if_true (tag_list : list Flag) (UFlag : Flag) (s : flag_set.t) :
  flag_set.set_if is_same_dec flags_bits tag_list UFlag true s
  = set tag_list [UFlag] s.
Proof.
  unfold flag_set.set_if, flag_set.set.
  destruct (instantiate_cases tag_list) as [[Hi _]|Hi]; rewrite Hi;
    [|reflexivity].
  cbn [flag_set.and_then].
  destruct (mask_for tag_list false [UFlag]) as [m| |]; reflexivity.
Qed.

Lemma set_if_false (tag_list : list Flag) (UFlag : Flag)
  (s s' : flag_set.t) :
  flag_set.set_if is_same_dec flags_bits tag_list UFlag false s
  = flag_set.ok s' -> s' = s.
Proof.
  unfold flag_set.set_if. intros H.
  destruct (instantiate tag_list) as [[]| |]; try discriminate.
  cbn [flag_set.and_then] in H.
  destruct (mask_for tag_list false [UFlag]) as [m| |]; try discriminate.
  cbn [flag_set.and_then] in H. congruence.
Qed.


Variable TFlags : list Flag.

(** X23. [get()] holds the supported flags from the lowest bit up:
    [is_set<UFlag>()] reads the bit at [index_of<UFlag>]. *)
Theorem is_set_reads_the_bit (UFlag : Flag) (s : flag_set.t) :
  instantiate TFlags = flag_set.ok tt ->
  In UFlag TFlags ->
  is_set TFlags [UFlag] s
  = flag_set.ok (Z.testbit (flag_set.get s)
                   (Z.of_nat (type_list.index_of is_same_dec UFlag TFlags))).
Proof.
  intros Hi Hin. apply instantiate_fits in Hi.
  apply (@is_set_member TFlags UFlag s Hi Hin).
Qed.

(** X24. [is_set<UFlags...>()] tells whether all the given flags are set: it
    is [true] exactly when [is_set] is [true] of each of them, and so it
    is [true] of no flags at all. *)
Theorem is_set_tells_whether_all_are_set
  (UFlags : list Flag) (s : flag_set.t) (b : bool) :
  is_set TFlags UFlags s = flag_set.ok b ->
  incl UFlags TFlags /\
  (b = true <->
   forall UFlag, In UFlag UFlags ->
                 is_set TFlags [UFlag] s = flag_set.ok true) /\
  is_set TFlags [] s = flag_set.ok true.
Proof.
  intros H.
  destruct (@is_set_inv TFlags UFlags s b H) as (Hfits & m & Hm & _).
  pose proof (@mask_for_supported TFlags UFlags m Hm) as Hincl.
  split; [exact Hincl|].
  rewrite (@is_set_all TFlags UFlags s Hfits Hincl) in H. injection H as <-.
  split.
  - rewrite forallb_forall. split.
    + intros Hall u Hu.
      rewrite (@is_set_member TFlags u s Hfits (Hincl u Hu)), (Hall u Hu).
      reflexivity.
    + intros Hall u Hu. specialize (Hall u Hu).
      rewrite (@is_set_member TFlags u s Hfits (Hincl u Hu)) in Hall.
      congruence.
  - unfold flag_set.is_set.
    rewrite (proj2 (instantiate_fits TFlags) Hfits).
    cbn [flag_set.and_then flag_set.mask_for].
    rewrite Z.land_0_r. reflexivity.
Qed.

(** X25. [set<UFlags...>()] sets the given flags and leaves the others as they
    were: afterwards [is_set<UFlags...>()] is [true], and a supported flag
    is set exactly when it is one of [UFlags] or was set before. *)
Theorem set_adds_the_flags (UFlags : list Flag) (s s' : flag_set.t) :
  set TFlags UFlags s = flag_set.ok s' ->
  is_set TFlags UFlags s' = flag_set.ok true /\
  forall UFlag, In UFlag TFlags ->
    (is_set TFlags [UFlag] s' = flag_set.ok true <->
     In UFlag UFlags \/ is_set TFlags [UFlag] s = flag_set.ok true).
Proof.
  intros Hset. split.
  - destruct (@set_inv TFlags UFlags s s' Hset) as (Hfits & m & Hm & Hs').
    pose proof (@mask_for_supported TFlags UFlags m Hm) as Hincl.
    rewrite (@is_set_all TFlags UFlags s' Hfits Hincl). f_equal.
    apply forallb_forall. intros u Hu.
    assert (H : is_set TFlags [u] s' = flag_set.ok true).
    { apply (@set_flag_iff TFlags UFlags s s' u Hset (Hincl u Hu)).
      left. exact Hu. }
    rewrite (@is_set_member TFlags u s' Hfits (Hincl u Hu)) in H.
    congruence.
  - intros F HF. apply (@set_flag_iff TFlags UFlags s s' F Hset HF).
Qed.

(** X26. [reset<UFlags...>()] is [clear()] then [set<UFlags...>()], as its
    comment says; after it, or after the constructor from flags, a
    supported flag is set exactly when it is one of [UFlags]. *)
Theorem reset_holds_exactly_the_flags (UFlags : list Flag) (s : flag_set.t) :
  reset TFlags UFlags s
  = flag_set.and_then (flag_set.clear flags_bits TFlags s)
      (set TFlags UFlags) /\
  forall s',
    reset TFlags UFlags s = flag_set.ok s' \/
    flag_set.variadic_ctor is_same_dec flags_bits TFlags UFlags
    = flag_set.ok s' ->
    forall UFlag, In UFlag TFlags ->
      (is_set TFlags [UFlag] s' = flag_set.ok true <-> In UFlag UFlags).
Proof.
  split.
  - unfold flag_set.reset, flag_set.clear, flag_set.set.
    destruct (instantiate_cases TFlags) as [[Hi _]|Hi]; rewrite Hi;
      [|reflexivity].
    cbn [flag_set.and_then].
    destruct (mask_for TFlags false UFlags) as [m| |]; reflexivity.
  - intros s' Hs' F HF.
    assert (H : fits TFlags /\
                exists m, mask_for TFlags false UFlags = flag_set.ok m /\
                          s' = flag_set.mk m).
    { destruct Hs' as [H|H].
      - unfold flag_set.reset in H.
        destruct (instantiate_cases TFlags) as [[Hi Hfits]|Hi];
          rewrite Hi in H; [|discriminate].
        split; [exact Hfits|]. cbn [flag_set.and_then] in H.
        destruct (mask_for TFlags false UFlags) as [m| |]; try discriminate.
        exists m. split; [reflexivity|]. cbn [flag_set.and_then] in H.
        destruct (flag_set.assert _); cbn [flag_set.and_then] in H;
          congruence.
      - unfold flag_set.variadic_ctor in H.
        destruct (instantiate_cases TFlags) as [[Hi Hfits]|Hi];
          rewrite Hi in H; [|discriminate].
        split; [exact Hfits|]. cbn [flag_set.and_then] in H.
        destruct (mask_for TFlags false UFlags) as [m| |]; try discriminate.
        exists m. split; [reflexivity|]. cbn [flag_set.and_then] in H.
        congruence. }
    destruct H as (Hfits & m & Hm & ->).
    pose proof (@mask_for_supported TFlags UFlags m Hm) as Hincl.
    rewrite (@is_set_member TFlags F _ Hfits HF). cbn [flag_set.flags_].
    rewrite <- (@mask_for_member_bit TFlags false UFlags m F Hfits Hincl Hm HF).
    split; congruence.
Qed.

(** A set that was just built by the default constructor, or cleared, has
    no flag set: [is_set] is [false] of every supported flag. *)
Theorem empty_set_has_no_flag (s s' : flag_set.t) :
  flag_set.default_ctor flags_bits TFlags = flag_set.ok s' \/
  flag_set.clear flags_bits TFlags s = flag_set.ok s' ->
  flag_set.get s' = 0%Z /\
  forall UFlag, In UFlag TFlags ->
                is_set TFlags [UFlag] s' = flag_set.ok false.
Proof.
  intros H.
  assert (H' : fits TFlags /\ s' = flag_set.mk 0).
  { unfold flag_set.default_ctor, flag_set.clear in H.
    destruct (instantiate_cases TFlags) as [[Hi Hfits]|Hi]; rewrite Hi in H.
    - split; [exact Hfits|]. cbn [flag_set.and_then] in H.
      destruct H; congruence.
    - destruct H; discriminate. }
  destruct H' as [Hfits ->]. split; [reflexivity|].
  intros F HF. rewrite (@is_set_member TFlags F _ Hfits HF).
  cbn [flag_set.flags_]. rewrite Z.bits_0. reflexivity.
Qed.

(** X27. A flag that the set does not support is a compile-time error in
    [set], [set_if] (whatever the condition), [reset], [is_set] and the
    constructor from flags. *)
Theorem unsupported_flag_is_ill_formed
  (UFlag : Flag) (UFlags : list Flag) (s : flag_set.t) :
  In UFlag UFlags -> ~ In UFlag TFlags ->
  set TFlags UFlags s = flag_set.ill_formed /\
  reset TFlags UFlags s = flag_set.ill_formed /\
  is_set TFlags UFlags s = flag_set.ill_formed /\
  flag_set.variadic_ctor is_same_dec flags_bits TFlags UFlags
  = flag_set.ill_formed /\
  forall condition,
    flag_set.set_if is_same_dec flags_bits TFlags UFlag condition s
    = flag_set.ill_formed.
Proof.
  intros Hin Hout.
  pose proof (@mask_for_rejected TFlags UFlags UFlag Hin Hout) as Hm.
  pose proof (@mask_for_rejected TFlags [UFlag] UFlag (or_introl eq_refl) Hout)
    as Hm1.
  unfold flag_set.set, flag_set.reset, flag_set.is_set,
    flag_set.variadic_ctor, flag_set.set_if.
  rewrite Hm, Hm1.
  destruct (instantiate_cases TFlags) as [[Hi _]|Hi]; rewrite Hi;
    repeat split; reflexivity.
Qed.


(** X29. [expand<UFlag>()] is [expand_if<UFlag>(true)].  The set that
    [expand_if<UFlag>(condition)] returns supports [UFlag] besides the
    flags of this set; in it a flag is set exactly when it is set in this
    set, or is [UFlag] and the condition holds. *)
Theorem expand_adds_a_flag (UFlag : Flag) (s : flag_set.t) :
  let TExpanded := flag_set.expanded is_same_dec TFlags UFlag in
  flag_set.expand is_same_dec flags_bits TFlags UFlag s
  = flag_set.expand_if is_same_dec flags_bits TFlags UFlag true s /\
  (forall F, In F TExpanded <-> In F TFlags \/ F = UFlag) /\
  forall condition s',
    flag_set.expand_if is_same_dec flags_bits TFlags UFlag condition s
    = flag_set.ok s' ->
    forall F, In F TExpanded ->
      (is_set TExpanded [F] s' = flag_set.ok true <->
       (condition = true /\ F = UFlag) \/
       (In F TFlags /\ is_set TFlags [F] s = flag_set.ok true)).
Proof.
  cbv zeta.
  assert (Hmem : forall F,
             In F (flag_set.expanded is_same_dec TFlags UFlag)
             <-> In F TFlags \/ F = UFlag).
  { intros F. unfold flag_set.expanded, type_list.contains.
    destruct (type_list_impl.contains is_same_dec UFlag TFlags) eqn:E.
    - apply contains_In in E. split; [tauto|].
      intros [H| ->]; assumption.
    - unfold type_list.push_back. rewrite in_app_iff. cbn [In].
      split.
      + intros [H|[H|[]]]; [left; exact H | right; congruence].
      + intros [H|H]; [left; exact H | right; left; congruence]. }
  split; [|split; [exact Hmem|]].
  - unfold flag_set.expand, flag_set.expand_if.
    destruct (flag_set.expanded_ctor is_same_dec flags_bits TFlags UFlag s);
      try reflexivity.
    cbn [flag_set.and_then]. rewrite set_if_true. reflexivity.
  - intros condition s' H F HF.
    unfold flag_set.expand_if in H.
    destruct (flag_set.expanded_ctor is_same_dec flags_bits TFlags UFlag s)
      as [copy| |] eqn:Hctor; try discriminate.
    cbn [flag_set.and_then] in H.
    assert (Hcopy : forall G,
               In G (flag_set.expanded is_same_dec TFlags UFlag) ->
               (is_set (flag_set.expanded is_same_dec TFlags UFlag) [G] copy
                = flag_set.ok true <->
                In G TFlags /\ is_set TFlags [G] s = flag_set.ok true)).
    { intros G HG. unfold flag_set.expanded_ctor in Hctor.
      destruct (instantiate_cases TFlags) as [[Hi Hfits]|Hi];
        rewrite Hi in Hctor; [|discriminate].
      cbn [flag_set.and_then] in Hctor.
      unfold flag_set.expanded in *. unfold type_list.contains in *.
      destruct (type_list_impl.contains is_same_dec UFlag TFlags) eqn:E.
      - unfold flag_set.copy_ctor in Hctor. rewrite Hi in Hctor.
        cbn [flag_set.and_then] in Hctor. injection Hctor as <-. tauto.
      - apply (@foreign_flag_iff _ TFlags s copy G Hctor HG). }
    destruct condition.
    + rewrite set_if_true in H.
      rewrite (@set_flag_iff _ [UFlag] copy s' F H HF), (Hcopy F HF).
      cbn [In]. split.
      * intros [[H1|[]]|H1]; [left; split; congruence | right; exact H1].
      * intros [[_ H1]|H1]; [left; left; congruence | right; exact H1].
    + apply set_if_false in H. subst s'. rewrite (Hcopy F HF).
      split; [tauto|]. intros [[H1 _]|H1]; [discriminate | exact H1].
Qed.


End FlagSetFacts.

(** A set of three flags in an eight-bit [flags_type], holding the first
    and the third flag. *)
Definition three_flags : list nat := [1; 2; 3].

Definition eight_bits (_ : nat) : nat := 8.

Lemma is_set_reads_the_bit_witness :
  flag_set.instantiate eight_bits three_flags = flag_set.ok tt /\
  In 3 three_flags /\
  flag_set.is_set Nat.eq_dec eight_bits three_flags [3] (flag_set.mk 5)
  = flag_set.ok (Z.testbit (flag_set.get (flag_set.mk 5))
                   (Z.of_nat (type_list.index_of Nat.eq_dec 3 three_flags))).
Proof.
  assert (Hi : flag_set.instantiate eight_bits three_flags = flag_set.ok tt)
    by reflexivity.
  assert (Hin : In 3 three_flags) by (simpl; lia).
  split; [exact Hi|]. split; [exact Hin|].
  exact (@is_set_reads_the_bit nat Nat.eq_dec eight_bits three_flags 3
           (flag_set.mk 5) Hi Hin).
Defined.

Lemma is_set_tells_whether_all_are_set_witness :
  flag_set.is_set Nat.eq_dec eight_bits three_flags [1; 3] (flag_set.mk 5)
  = flag_set.ok true /\
  incl [1; 3] three_flags /\
  (true = true <->
   forall UFlag, In UFlag [1; 3] ->
     flag_set.is_set Nat.eq_dec eight_bits three_flags [UFlag]
       (flag_set.mk 5)
     = flag_set.ok true) /\
  flag_set.is_set Nat.eq_dec eight_bits three_flags [] (flag_set.mk 5)
  = flag_set.ok true.
Proof.
  assert (H : flag_set.is_set Nat.eq_dec eight_bits three_flags [1; 3]
                (flag_set.mk 5) = flag_set.ok true) by reflexivity.
  split; [exact H|].
  exact (@is_set_tells_whether_all_are_set nat Nat.eq_dec eight_bits
           three_flags [1; 3] (flag_set.mk 5) true H).
Defined.

Lemma set_adds_the_flags_witness :
  flag_set.set Nat.eq_dec eight_bits three_flags [3] (flag_set.mk 1)
  = flag_set.ok (flag_set.mk 5) /\
  flag_set.is_set Nat.eq_dec eight_bits three_flags [3] (flag_set.mk 5)
  = flag_set.ok true /\
  forall UFlag, In UFlag three_flags ->
    (flag_set.is_set Nat.eq_dec eight_bits three_flags [UFlag]
       (flag_set.mk 5) = flag_set.ok true <->
     In UFlag [3] \/
     flag_set.is_set Nat.eq_dec eight_bits three_flags [UFlag]
       (flag_set.mk 1) = flag_set.ok true).
Proof.
  assert (H : flag_set.set Nat.eq_dec eight_bits three_flags [3]
                (flag_set.mk 1) = flag_set.ok (flag_set.mk 5))
    by reflexivity.
  split; [exact H|].
  exact (@set_adds_the_flags nat Nat.eq_dec eight_bits three_flags [3]
           (flag_set.mk 1) (flag_set.mk 5) H).
Defined.

Lemma empty_set_has_no_flag_witness :
  (flag_set.default_ctor eight_bits three_flags
   = flag_set.ok (flag_set.mk 0) \/
   flag_set.clear eight_bits three_flags (flag_set.mk 5)
   = flag_set.ok (flag_set.mk 0)) /\
  flag_set.get (flag_set.mk 0) = 0%Z /\
  forall UFlag, In UFlag three_flags ->
    flag_set.is_set Nat.eq_dec eight_bits three_flags [UFlag] (flag_set.mk 0)
    = flag_set.ok false.
Proof.
  assert (H : flag_set.default_ctor eight_bits three_flags
              = flag_set.ok (flag_set.mk 0) \/
              flag_set.clear eight_bits three_flags (flag_set.mk 5)
              = flag_set.ok (flag_set.mk 0))
    by (right; reflexivity).
  split; [exact H|].
  exact (@empty_set_has_no_flag nat Nat.eq_dec eight_bits three_flags
           (flag_set.mk 5) (flag_set.mk 0) H).
Defined.

Lemma unsupported_flag_is_ill_formed_witness :
  In 4 [1; 4] /\ ~ In 4 three_flags /\
  flag_set.set Nat.eq_dec eight_bits three_flags [1; 4] (flag_set.mk 0)
  = flag_set.ill_formed /\
  flag_set.reset Nat.eq_dec eight_bits three_flags [1; 4] (flag_set.mk 0)
  = flag_set.ill_formed /\
  flag_set.is_set Nat.eq_dec eight_bits three_flags [1; 4] (flag_set.mk 0)
  = flag_set.ill_formed /\
  flag_set.variadic_ctor Nat.eq_dec eight_bits three_flags [1; 4]
  = flag_set.ill_formed /\
  forall condition,
    flag_set.set_if Nat.eq_dec eight_bits three_flags 4 condition
      (flag_set.mk 0)
    = flag_set.ill_formed.
Proof.
  assert (Hin : In 4 [1; 4]) by (simpl; lia).
  assert (Hout : ~ In 4 three_flags) by (simpl; lia).
  split; [exact Hin|]. split; [exact Hout|].
  exact (@unsupported_flag_is_ill_formed nat Nat.eq_dec eight_bits
           three_flags 4 [1; 4] (flag_set.mk 0) Hin Hout).
Defined.



Example expand_unsupported_flag :
  flag_set.expanded Nat.eq_dec [2; 3] 4 = [2; 3; 4] /\
  flag_set.expand Nat.eq_dec eight_bits [2; 3] 4 (flag_set.mk 1)
  = flag_set.ok (flag_set.mk 5).
Proof. split; reflexivity. Qed.

Example expand_supported_flag :
  flag_set.expanded Nat.eq_dec [2; 3] 3 = [2; 3] /\
  flag_set.expand Nat.eq_dec eight_bits [2; 3] 3 (flag_set.mk 1)
  = flag_set.ok (flag_set.mk 3).
Proof. split; reflexivity. Qed.

Example assign_out_of_range :
  flag_set.assign eight_bits three_flags (flag_set.mk 8) (flag_set.mk 0)
  = flag_set.assertion_failed.
Proof. reflexivity. Qed.
